(** * Answer extraction and list scoring of [examples/eif_selection/eif_selection.py]

    A shallow embedding of the scoring engine of the EIF selection example:
    [normalize_eif_name], [_string_similarity], [check_eif_semantic_similarity],
    [calculate_eif_similarity], and of the parser methods [extract_answer] and
    [_clean_eif_name], together with the part of Python's [str] and [re]
    they rely on.

    Modelling conventions.
    - A Python [str] is a list of Unicode code points ([list N]); literals are
      written as UTF-8 text and decoded by [utf8].
    - A Python [float] is an exact rational ([Q]); [int] values that only
      count are [nat].
    - A Python [set] of strings is a [gset str].
    - The language model is an external collaborator: its two methods are
      functions over an abstract world, and may raise.
    - [logging] calls are not modelled. *)

From Stdlib Require Import QArith Qminmax Lqa.
From stdpp Require Import base list gmap strings.

Local Open Scope N_scope.

(** ** Python strings *)

Module Str.

Definition char := N.
Definition str := list char.

(** Decoding of UTF-8 bytes into code points, used for literals only. *)
Fixpoint bytes_of_string (s : string) : list N :=
  match s with
  | EmptyString => []
  | String a s' => Ascii.N_of_ascii a :: bytes_of_string s'
  end.

Definition cont (b : N) : N := N.land b 63.

Fixpoint utf8_decode (bs : list N) : str :=
  match bs with
  | [] => []
  | b :: r =>
      if b <? 128 then b :: utf8_decode r
      else if b <? 224 then
        match r with
        | b1 :: r1 => (N.land b 31 * 64 + cont b1) :: utf8_decode r1
        | _ => []
        end
      else if b <? 240 then
        match r with
        | b1 :: b2 :: r2 =>
            (N.land b 15 * 4096 + cont b1 * 64 + cont b2) :: utf8_decode r2
        | _ => []
        end
      else
        match r with
        | b1 :: b2 :: b3 :: r3 =>
            (N.land b 7 * 262144 + cont b1 * 4096 + cont b2 * 64 + cont b3)
              :: utf8_decode r3
        | _ => []
        end
  end.

Definition utf8 (s : string) : str := utf8_decode (bytes_of_string s).
Arguments utf8 s%_string.

(** [str.isspace] for one code point: the characters Python's [split],
    [strip] and the regular-expression class "\s" treat as whitespace. *)
Definition isspace (c : char) : bool :=
  ((9 <=? c) && (c <=? 13)) || ((28 <=? c) && (c <=? 32))
  || (c =? 133) || (c =? 160) || (c =? 5760)
  || ((8192 <=? c) && (c <=? 8202))
  || (c =? 8232) || (c =? 8233) || (c =? 8239) || (c =? 8287) || (c =? 12288).

(** [s.lstrip()], [s.rstrip()], [s.strip()]. *)
Fixpoint lstrip (s : str) : str :=
  match s with
  | c :: s' => if isspace c then lstrip s' else s
  | [] => []
  end.

Definition rstrip (s : str) : str := rev (lstrip (rev s)).

Definition strip (s : str) : str := rstrip (lstrip s).

(** [s.split()]: the maximal runs of non-whitespace, in order.  [tok] is
    the token being read. *)
Fixpoint split_from (tok : str) (s : str) : list str :=
  match s with
  | [] => match tok with [] => [] | _ => [tok] end
  | c :: s' =>
      if isspace c
      then match tok with [] => split_from [] s' | _ => tok :: split_from [] s' end
      else split_from (tok ++ [c]) s'
  end.

Definition split (s : str) : list str := split_from [] s.

(** [sep.join(l)]. *)
Fixpoint join (sep : str) (l : list str) : str :=
  match l with
  | [] => []
  | [x] => x
  | x :: l' => x ++ sep ++ join sep l'
  end.

Definition eqb (a b : str) : bool := bool_decide (a = b).

(** [x in l] for a list of strings. *)
Definition mem (x : str) (l : list str) : bool := bool_decide (x ∈ l).

(** [sub in s]: substring test. *)
Fixpoint is_prefix (p s : str) : bool :=
  match p, s with
  | [], _ => true
  | a :: p', b :: s' => (a =? b) && is_prefix p' s'
  | _ :: _, [] => false
  end.

Fixpoint contains (sub s : str) : bool :=
  is_prefix sub s || match s with [] => false | _ :: s' => contains sub s' end.

(** [s[-n:]]: the last [n] code points (all of [s] when it is shorter). *)
(** The longest prefix of [s] whose characters satisfy [p], and the rest. *)
Fixpoint take_while (p : char -> bool) (s : str) : str :=
  match s with
  | c :: s' => if p c then c :: take_while p s' else []
  | [] => []
  end.

Fixpoint drop_while (p : char -> bool) (s : str) : str :=
  match s with
  | c :: s' => if p c then drop_while p s' else s
  | [] => []
  end.

(** The part of [s] before the first occurrence of [c]. *)
Fixpoint takewhile_ne (c : char) (s : str) : str :=
  match s with
  | [] => []
  | d :: s' => if d =? c then [] else d :: takewhile_ne c s'
  end.

Definition last_n (n : nat) (s : str) : str := drop (length s - n) s.

End Str.
Export Str.

(** What the model takes from Python's Unicode database: [str.lower], the
    decimal digits (category Nd, the regular-expression class "\d") and
    their values as [float] reads them. *)
Record unicode_tables := {
  str_lower : str -> str;
  isdecimal : char -> bool;
  decimal_value : char -> N
}.

(** The tables restricted to ASCII: every other code point is caseless and
    no digit. *)
Definition ascii_lower_char (c : char) : char :=
  if (65 <=? c) && (c <=? 90) then c + 32 else c.

Definition ascii_tables : unicode_tables := {|
  str_lower := map ascii_lower_char;
  isdecimal := fun c => (48 <=? c) && (c <=? 57);
  decimal_value := fun c => c - 48
|}.

(** ** Python regular expressions

    The fragment of [re] the source uses, as a backtracking matcher: the
    order in which alternatives are tried is the one of Python's engine, so
    greedy and lazy repetition and the choice among alternatives agree with
    it. *)

Module Re.

Inductive citem :=
| CChar (c : char)
| CRange (lo hi : char)
| CSpace
| CDigit.

Inductive re :=
| Eps
| Chr (neg : bool) (items : list citem)   (* one character, in or out of a class *)
| Cat (a b : re)
| Alt (a b : re)
| Star (greedy : bool) (a : re)
| Group (i : nat) (a : re)                (* capturing group number [i] *)
| Look (positive : bool) (a : re)         (* lookahead *)
| Eol                                     (* "$" without MULTILINE *)
| EndZ.                                   (* "\Z" *)

(** A compiled pattern; [anchored] records a leading "^". *)
Record pattern := { anchored : bool; body : re }.

Definition Lit (c : char) : re := Chr false [CChar c].
Definition Never : re := Chr false [].

(** *** Reading a pattern *)

Definition is_special (c : char) : bool :=
  (c =? 42) || (c =? 43) || (c =? 63) || (c =? 41) || (c =? 124) || (c =? 93).

Definition class_escape (c : char) : option citem :=
  if c =? 115 then Some CSpace
  else if c =? 100 then Some CDigit
  else if c =? 110 then Some (CChar 10)
  else if ((65 <=? c) && (c <=? 90)) || ((97 <=? c) && (c <=? 122)) || ((48 <=? c) && (c <=? 57))
       then None
  else Some (CChar c).

(** The items of a class, up to its closing bracket. *)
Fixpoint parse_class (fuel : nat) (s : str) : option (list citem * str) :=
  match fuel with
  | O => None
  | S f =>
      match s with
      | [] => None
      | c :: s1 =>
          if c =? 93 then Some ([], s1)
          else if c =? 92 then
            match s1 with
            | e :: s2 =>
                match class_escape e, parse_class f s2 with
                | Some it, Some (its, s3) => Some (it :: its, s3)
                | _, _ => None
                end
            | [] => None
            end
          else
            match s1 with
            | d :: hi :: s2 =>
                if (d =? 45) && negb (hi =? 93) && negb (hi =? 92) then
                  match parse_class f s2 with
                  | Some (its, s3) => Some (CRange c hi :: its, s3)
                  | None => None
                  end
                else
                  match parse_class f s1 with
                  | Some (its, s3) => Some (CChar c :: its, s3)
                  | None => None
                  end
            | _ =>
                match parse_class f s1 with
                | Some (its, s3) => Some (CChar c :: its, s3)
                | None => None
                end
            end
      end
  end.

(** A quantifier after an atom: "*", "+", "?" and their lazy forms. *)
Definition parse_quant (a : re) (s : str) : re * str :=
  match s with
  | q :: s1 =>
      let '(lazy, s2) :=
        match s1 with
        | l :: s2 => if l =? 63 then (true, s2) else (false, s1)
        | [] => (false, s1)
        end in
      if q =? 42 then (Star (negb lazy) a, s2)
      else if q =? 43 then (Cat a (Star (negb lazy) a), s2)
      else if q =? 63 then ((if lazy then Alt Eps a else Alt a Eps), s2)
      else (a, s)
  | [] => (a, s)
  end.

Definition expect_close (r : option (re * str * nat)) (wrap : re -> re)
  : option (re * str * nat) :=
  match r with
  | Some (a, c :: s, g) => if c =? 41 then Some (wrap a, s, g) else None
  | _ => None
  end.

Fixpoint parse_alt (fuel : nat) (dotall : bool) (s : str) (g : nat)
  : option (re * str * nat) :=
  match fuel with
  | O => None
  | S f =>
      match parse_seq f dotall s g with
      | Some (a, s1, g1) =>
          match s1 with
          | c :: s2 =>
              if c =? 124 then
                match parse_alt f dotall s2 g1 with
                | Some (b, s3, g3) => Some (Alt a b, s3, g3)
                | None => None
                end
              else Some (a, s1, g1)
          | [] => Some (a, s1, g1)
          end
      | None => None
      end
  end
with parse_seq (fuel : nat) (dotall : bool) (s : str) (g : nat)
  : option (re * str * nat) :=
  match fuel with
  | O => None
  | S f =>
      match s with
      | [] => Some (Eps, s, g)
      | c :: _ =>
          if (c =? 41) || (c =? 124) then Some (Eps, s, g)
          else
            match parse_atom f dotall s g with
            | Some (a, s1, g1) =>
                let '(a', s2) := parse_quant a s1 in
                match parse_seq f dotall s2 g1 with
                | Some (Eps, s3, g3) => Some (a', s3, g3)
                | Some (b, s3, g3) => Some (Cat a' b, s3, g3)
                | None => None
                end
            | None => None
            end
      end
  end
with parse_atom (fuel : nat) (dotall : bool) (s : str) (g : nat)
  : option (re * str * nat) :=
  match fuel with
  | O => None
  | S f =>
      match s with
      | [] => None
      | c :: s1 =>
          if c =? 40 then
            match s1 with
            | q :: k :: s2 =>
                if (q =? 63) && (k =? 58) then expect_close (parse_alt f dotall s2 g) id
                else if (q =? 63) && (k =? 61) then
                  expect_close (parse_alt f dotall s2 g) (Look true)
                else if (q =? 63) && (k =? 33) then
                  expect_close (parse_alt f dotall s2 g) (Look false)
                else if q =? 63 then None
                else expect_close (parse_alt f dotall s1 (S g)) (Group g)
            | _ => expect_close (parse_alt f dotall s1 (S g)) (Group g)
            end
          else if c =? 91 then
            match s1 with
            | n :: s2 =>
                let '(neg, s3) := if n =? 94 then (true, s2) else (false, s1) in
                match parse_class (length s3) s3 with
                | Some (its, s4) => Some (Chr neg its, s4, g)
                | None => None
                end
            | [] => None
            end
          else if c =? 46 then
            Some (Chr true (if dotall then [] else [CChar 10]), s1, g)
          else if c =? 36 then Some (Eol, s1, g)
          else if c =? 92 then
            match s1 with
            | e :: s2 =>
                if e =? 90 then Some (EndZ, s2, g)
                else match class_escape e with
                     | Some it => Some (Chr false [it], s2, g)
                     | None => None
                     end
            | [] => None
            end
          else if is_special c || (c =? 94) then None
          else Some (Lit c, s1, g)
      end
  end.

(** [re.compile(p)] with or without the DOTALL flag.  [None] stands for a
    pattern outside the fragment. *)
Definition parse (dotall : bool) (p : str) : option pattern :=
  let '(anch, p') :=
    match p with
    | c :: p' => if c =? 94 then (true, p') else (false, p)
    | [] => (false, p)
    end in
  match parse_alt (3 * length p' + 3) dotall p' 1 with
  | Some (r, [], _) => Some {| anchored := anch; body := r |}
  | _ => None
  end.

Definition compile (dotall : bool) (p : string) : pattern :=
  default {| anchored := false; body := Never |} (parse dotall (utf8 p)).
Arguments compile dotall p%_string.

End Re.
Export Re.

(** *** Matching *)

Module Match.

(** The text of each capturing group that took part in the match. *)
Definition caps := list (nat * str).

Definition group (i : nat) (cs : caps) : option str :=
  snd <$> List.find (fun p => Nat.eqb (fst p) i) cs.

(** A match object: the text before the match, the match, the groups, and
    the text after it. *)
Record match_obj := {
  m_before : str;
  m_text : str;
  m_groups : caps;
  m_after : str
}.

Definition orelse {A} (x y : option A) : option A :=
  match x with Some _ => x | None => y end.

Section Engine.
Variable U : unicode_tables.

Definition citem_mem (c : char) (it : citem) : bool :=
  match it with
  | CChar d => c =? d
  | CRange lo hi => (lo <=? c) && (c <=? hi)
  | CSpace => isspace c
  | CDigit => isdecimal U c
  end.

Definition chr_ok (neg : bool) (items : list citem) (c : char) : bool :=
  xorb neg (existsb (citem_mem c) items).

(** A continuation: what to do with the rest of the text once a piece of
    the pattern has matched; [None] asks for another way to match. *)
Definition kont := str -> caps -> option (str * caps).

(** Repetition of a matcher [ma], at most [n] times, each round taking at
    least one character; greedy repetition tries one more round first, lazy
    repetition tries to stop first. *)
Fixpoint star_loop (ma : str -> caps -> kont -> option (str * caps))
    (greedy : bool) (k : kont) (n : nat) (s : str) (cs : caps) {struct n}
  : option (str * caps) :=
  match n with
  | O => k s cs
  | S n' =>
      let again :=
        ma s cs (fun s' cs' =>
          if (length s' <? length s)%nat then star_loop ma greedy k n' s' cs'
          else None) in
      if greedy then orelse again (k s cs) else orelse (k s cs) again
  end.

(** [rmatch r s cs k]: match [r] at the head of [s], then continue with [k]
    on what is left. *)
Fixpoint rmatch (r : re) (s : str) (cs : caps) (k : kont) {struct r}
  : option (str * caps) :=
  match r with
  | Eps => k s cs
  | Chr neg items =>
      match s with
      | c :: s' => if chr_ok neg items c then k s' cs else None
      | [] => None
      end
  | Cat a b => rmatch a s cs (fun s' cs' => rmatch b s' cs' k)
  | Alt a b => orelse (rmatch a s cs k) (rmatch b s cs k)
  | Star greedy a => star_loop (rmatch a) greedy k (length s) s cs
  | Group i a =>
      rmatch a s cs (fun s' cs' => k s' ((i, take (length s - length s') s) :: cs'))
  | Look positive a =>
      match rmatch a s cs (fun s' cs' => Some (s', cs')) with
      | Some (_, cs') => if positive then k s cs' else None
      | None => if positive then None else k s cs
      end
  | Eol =>
      match s with
      | [] => k s cs
      | [c] => if c =? 10 then k s cs else None
      | _ => None
      end
  | EndZ => match s with [] => k s cs | _ => None end
  end.

(** A match starting exactly at the head of [s]. *)
Definition match_here (r : re) (s : str) : option (str * caps) :=
  rmatch r s [] (fun s' cs => Some (s', cs)).

Definition here (r : re) (s : str) : option match_obj :=
  match match_here r s with
  | Some (rest, cs) =>
      Some {| m_before := []; m_text := take (length s - length rest) s;
              m_groups := cs; m_after := rest |}
  | None => None
  end.

Definition shift (c : char) (m : match_obj) : match_obj :=
  {| m_before := c :: m_before m; m_text := m_text m;
     m_groups := m_groups m; m_after := m_after m |}.

(** The leftmost match in [s]. *)
Fixpoint scan (r : re) (s : str) : option match_obj :=
  match here r s with
  | Some m => Some m
  | None =>
      match s with
      | [] => None
      | c :: s' => shift c <$> scan r s'
      end
  end.

(** [re.search(p, s)]. *)
Definition search (p : pattern) (s : str) : option match_obj :=
  if anchored p then here (body p) s else scan (body p) s.

(** [m.group(1)]. *)
Definition group1 (m : match_obj) : str := default [] (group 1 (m_groups m)).

(** The successive non-overlapping matches of [p] in [s], leftmost first;
    after an empty match the scan moves on by one character. *)
Fixpoint matches_from (fuel : nat) (p : pattern) (start : bool) (s : str)
  : list match_obj :=
  match fuel with
  | O => []
  | S f =>
      match (if anchored p && negb start then None else search p s) with
      | None => []
      | Some m =>
          match m_text m, m_after m with
          | [], [] => [m]
          | [], c :: rest =>
              m :: map (fun m' => {| m_before := c :: m_before m'; m_text := m_text m';
                                     m_groups := m_groups m'; m_after := m_after m' |})
                       (matches_from f p false rest)
          | _, rest => m :: matches_from f p false rest
          end
      end
  end.

Definition finditer (p : pattern) (s : str) : list match_obj :=
  matches_from (S (length s)) p true s.

(** [re.sub(p, '', s)]: every match removed. *)
Fixpoint remove_matches (ms : list match_obj) (s : str) : str :=
  match ms with
  | [] => s
  | m :: ms' => m_before m ++ remove_matches ms' (m_after m)
  end.

Definition sub_empty (p : pattern) (s : str) : str :=
  remove_matches (finditer p s) s.

(** [re.split(p, s)] for a pattern without groups. *)
Fixpoint split_at (ms : list match_obj) (s : str) : list str :=
  match ms with
  | [] => [s]
  | m :: ms' => m_before m :: split_at ms' (m_after m)
  end.

Definition re_split (p : pattern) (s : str) : list str :=
  split_at (finditer p s) s.

(** [re.findall(p, s)] for a pattern with one group. *)
Definition findall (p : pattern) (s : str) : list str :=
  map group1 (finditer p s).

End Engine.
End Match.
Export Match.

(** ** The scoring engine *)

Module Scoring.

(** An exception object ([Exception] and its subclasses). *)
Inductive exn := Exception (msg : str).

Inductive outcome (A : Type) :=
| Ok (a : A)
| Raise (e : exn).
Arguments Ok {A} a.
Arguments Raise {A} e.

Local Open Scope Q_scope.

(** *** Python floats as rationals

    A float of the program is the rational number it stands for.  What
    [float] reads from a text is rounded to the nearest binary64 number, as
    Python does ([round64]); the sums, products and quotients of the
    scorer are those of the rationals, without the rounding of their last
    place.  A literal of the source is the decimal number written: no
    binary64 number lies between 0.7 and the binary64 number nearest to
    it, so that for a score read by [float] the test against the one is
    the test against the other. *)

Definition Qltb (a b : Q) : bool := negb (Qle_bool b a).
Definition of_nat (n : nat) : Q := inject_Z (Z.of_nat n).

(** The integer part of the binary logarithm of [a / b], for positive [a]
    and [b]. *)
Definition log2_floor (a b : Z) : Z :=
  let e := (Z.log2 a - Z.log2 b)%Z in
  if (a * 2 ^ Z.max 0 (- e) <? b * 2 ^ Z.max 0 e)%Z then (e - 1)%Z else e.

(** The integer nearest to [n / m], the even one of two that are equally
    near. *)
Definition round_half_even (n m : Z) : Z :=
  let q := (n / m)%Z in
  match (2 * (n mod m) ?= m)%Z with
  | Lt => q
  | Gt => (q + 1)%Z
  | Eq => if Z.even q then q else (q + 1)%Z
  end.

(** [k * 2 ^ p], in lowest terms. *)
Definition scaled (k p : Z) : Q :=
  if (0 <=? p)%Z then inject_Z (k * 2 ^ p) else Qred (k # Z.to_pos (2 ^ (- p))).

(** The binary64 number nearest to [a / b], for [a >= 0] and [b > 0]:
    53 binary digits from the leading one on, but none below 2^-1074, and
    ties to the even neighbour.  [p] is the exponent of the last place and
    [k] the number of units of that place, the integer nearest to
    [a / (b * 2^p)].  What lies beyond the greatest binary64 number by half
    a unit of its last place or more is [inf], for which 2^1024 stands, a
    number that no binary64 number equals. *)
Definition round64 (a b : Z) : Q :=
  if (a <=? 0)%Z then 0
  else
    let p := (Z.max (log2_floor a b) (-1022) - 52)%Z in
    let k := round_half_even (a * 2 ^ 1074) (b * 2 ^ (p + 1074)) in
    if (1024 <? p)%Z || (2 ^ (1024 - p) <=? k)%Z then inject_Z (2 ^ 1024) else scaled k p.

(** [max(a, b)] and [min(a, b)]: the first argument unless the second is
    strictly beyond it. *)
Definition py_max (a b : Q) : Q := if Qltb a b then b else a.
Definition py_min (a b : Q) : Q := if Qltb b a then b else a.

(** [not l] for lists. *)
Definition is_nil {A} (l : list A) : bool := match l with [] => true | _ => false end.

(** [not s] for strings. *)
Definition falsy (s : str) : bool := match s with [] => true | _ => false end.

(** [set(s)] for a string: its characters, each a string of length one. *)
Definition chars (s : str) : list str := map (fun c => [c]) s.

(** [_string_similarity(s1, s2)]. *)
Definition string_similarity (s1 s2 : str) : Q :=
  if falsy s1 || falsy s2 then 0
  else
    let set1 : gset str := list_to_set (split s1) in
    let set2 : gset str := list_to_set (split s2) in
    let '(set1, set2) :=
      if bool_decide (set1 = ∅) || bool_decide (set2 = ∅)
      then (list_to_set (chars s1) : gset str, list_to_set (chars s2) : gset str)
      else (set1, set2) in
    let intersection := size (set1 ∩ set2) in
    let union := size (set1 ∪ set2) in
    if (0 <? union)%nat then of_nat intersection / of_nat union else 0.

(** The three literal parts of the prompt's f-string. *)
Definition prompt_head : str := utf8 "你是一个IFPUG功能点分析专家。请判断以下两个EIF（外部接口文件）功能点名称是否指代同一个功能点。

功能点1: ".
Definition prompt_mid : str := utf8 "
功能点2: ".
Definition prompt_tail : str := utf8 "

请分析：
1. 它们是否指代相同的外部数据源或接口？
2. 考虑中英文翻译、同义词、缩写等因素
3. 只要语义相同即可，不需要完全字面匹配

请直接回答相似度分数（0.0到1.0之间的小数）：
- 1.0: 完全相同的功能点
- 0.8-0.9: 高度相似，很可能是同一个功能点
- 0.5-0.7: 中等相似，可能相关
- 0.0-0.4: 不相似或不相关

只需要回答一个数字，格式：0.95".

Definition similarity_prompt (name1 name2 : str) : str :=
  prompt_head ++ name1 ++ prompt_mid ++ name2 ++ prompt_tail.

Section WithModel.
Variable U : unicode_tables.
(** The state of everything outside the program, and what [query] returns. *)
Variables World Response : Type.

(** A computation that reads and changes the world and may raise. *)
Definition M (A : Type) : Type := World -> outcome A * World.

Definition ret {A} (a : A) : M A := fun w => (Ok a, w).

Definition bind {A B} (m : M A) (f : A -> M B) : M B :=
  fun w => match m w with
           | (Ok a, w') => f a w'
           | (Raise e, w') => (Raise e, w')
           end.

(** [try: m except Exception as e: h e]. *)
Definition try_except {A} (m : M A) (h : exn -> M A) : M A :=
  fun w => match m w with
           | (Ok a, w') => (Ok a, w')
           | (Raise e, w') => h e w'
           end.

Notation "'let*' x ':=' m 'in' f" := (bind m (fun x => f))
  (at level 10, x name, m at level 100, f at level 200).

(** The two methods of [AbstractLanguageModel] the scorer calls. *)
Record language_model := {
  query : str -> nat -> M Response;
  get_response_texts : Response -> M (list str)
}.

(** [normalize_eif_name(name)]. *)
Definition normalize_eif_name (name : str) : str :=
  let name := strip (str_lower U name) in
  let name := join (utf8 " ") (split name) in
  let name := sub_empty U (compile false "\([^)]*\)") name in
  let name := sub_empty U (compile false "（[^）]*）") name in
  strip name.

(** [float(s)] for a digit run with an optional point and fraction: the
    decimal number, rounded to binary64. *)
Definition digits_value (ds : str) : N :=
  fold_left (fun acc c => 10 * acc + decimal_value U c)%N ds 0%N.

Definition py_float (s : str) : Q :=
  let ip := takewhile_ne 46%N s in
  let fp := drop (S (length ip)) s in
  round64 (Z.of_N (digits_value (ip ++ fp))) (10 ^ Z.of_nat (length fp)).

(** [check_eif_semantic_similarity(name1, name2, lm, use_lm)].  The [try]
    block yields [Some score] where the source returns from inside it, and
    [None] where control falls through to the fallback. *)
Definition check_eif_semantic_similarity (name1 name2 : str)
    (lm : option language_model) (use_lm : bool) : M Q :=
  match lm with
  | Some lm' =>
      if negb use_lm then ret (string_similarity name1 name2)
      else
        let prompt := similarity_prompt name1 name2 in
        let* returned :=
          try_except
            (let* query_response := query lm' prompt 1%nat in
             let* response_texts := get_response_texts lm' query_response in
             match response_texts with
             | first :: _ =>
                 let text := strip first in
                 match search U (compile false "(\d+\.?\d*)") text with
                 | Some m =>
                     let score := py_float (group1 m) in
                     let score := py_max 0 (py_min 1 score) in
                     ret (Some score)
                 | None => ret None
                 end
             | [] => ret None
             end)
            (fun e => ret None) in
        match returned with
        | Some score => ret score
        | None =>
            let fallback_score := string_similarity name1 name2 in
            ret fallback_score
        end
  | None => ret (string_similarity name1 name2)
  end.

(** One entry of [match_details].  The source keeps the rendering
    "pred <-> truth (score)"; the model keeps the three values. *)
Record match_detail := {
  md_pred : str;
  md_truth : str;
  md_score : Q
}.

(** The dictionary [calculate_eif_similarity] returns. *)
Record report := {
  f1_score : Q;
  precision : Q;
  recall : Q;
  exact_matches : nat;
  fuzzy_score : Q;
  semantic_matches : list match_detail
}.

(** The variables of the inner loop: [max_similarity], [best_match],
    [best_match_orig]. *)
Record best := {
  max_similarity : Q;
  best_match : option str;
  best_match_orig : option str
}.

(** The variables the outer loop updates. *)
Record loop_state := {
  ls_fuzzy_score : Q;
  ls_matched_truth : gset str;
  ls_match_details : list match_detail
}.

Section Matcher.
Variable lm : option language_model.
Variable use_lm_semantic : bool.

(** The body of [for truth_norm, truth_orig in unmatched_truth]. *)
Fixpoint scan_truth (pred_norm pred_orig : str) (matched_truth : gset str)
    (unmatched_truth : list (str * str)) (b : best) : M best :=
  match unmatched_truth with
  | [] => ret b
  | (truth_norm, truth_orig) :: rest =>
      if bool_decide (truth_orig ∈ matched_truth)
      then scan_truth pred_norm pred_orig matched_truth rest b
      else
        let* similarity :=
          (if use_lm_semantic && bool_decide (is_Some lm)
           then check_eif_semantic_similarity pred_orig truth_orig lm true
           else ret (string_similarity pred_norm truth_norm)) in
        let b' :=
          if Qltb (max_similarity b) similarity
          then {| max_similarity := similarity;
                  best_match := Some truth_norm;
                  best_match_orig := Some truth_orig |}
          else b in
        scan_truth pred_norm pred_orig matched_truth rest b'
  end.

(** [if max_similarity > 0.7 and best_match:] and its two branches. *)
Definition accept (pred_orig : str) (b : best) (st : loop_state) : loop_state :=
  match best_match b, best_match_orig b with
  | Some bm, Some bmo =>
      if Qltb (7 # 10) (max_similarity b) && negb (falsy bm)
      then {| ls_fuzzy_score := ls_fuzzy_score st + max_similarity b;
              ls_matched_truth := ls_matched_truth st ∪ {[ bmo ]};
              ls_match_details :=
                ls_match_details st ++
                [{| md_pred := pred_orig; md_truth := bmo;
                    md_score := max_similarity b |}] |}
      else st
  | _, _ => st
  end.

(** [for pred_norm, pred_orig in unmatched_pred]. *)
Fixpoint match_loop (unmatched_pred unmatched_truth : list (str * str))
    (st : loop_state) : M loop_state :=
  match unmatched_pred with
  | [] => ret st
  | (pred_norm, pred_orig) :: rest =>
      let* b :=
        scan_truth pred_norm pred_orig (ls_matched_truth st) unmatched_truth
          {| max_similarity := 0; best_match := None; best_match_orig := None |} in
      match_loop rest unmatched_truth (accept pred_orig b st)
  end.

(** [calculate_eif_similarity(predicted, ground_truth, lm, use_lm_semantic)]. *)
Definition calculate_eif_similarity (predicted ground_truth : list str) : M report :=
  if is_nil ground_truth && is_nil predicted then
      ret {| f1_score := 1; precision := 1; recall := 1; exact_matches := 0;
             fuzzy_score := 0; semantic_matches := [] |}
  else if is_nil ground_truth || is_nil predicted then
      ret {| f1_score := 0; precision := 0; recall := 0; exact_matches := 0;
             fuzzy_score := 0; semantic_matches := [] |}
  else
      let pred_normalized := map normalize_eif_name predicted in
      let truth_normalized := map normalize_eif_name ground_truth in
      let pred_set : gset str := list_to_set pred_normalized in
      let truth_set : gset str := list_to_set truth_normalized in
      let exact_matches := size (pred_set ∩ truth_set) in
      let unmatched_pred :=
        filter (fun pp => fst pp ∉ truth_set) (zip pred_normalized predicted) in
      let unmatched_truth :=
        filter (fun tt => fst tt ∉ pred_set) (zip truth_normalized ground_truth) in
      let* st :=
        match_loop unmatched_pred unmatched_truth
          {| ls_fuzzy_score := 0; ls_matched_truth := ∅; ls_match_details := [] |} in
      let fuzzy_score := ls_fuzzy_score st in
      let total_matches := of_nat exact_matches + fuzzy_score in
      let precision :=
        if is_nil predicted then 0 else total_matches / of_nat (length predicted) in
      let recall :=
        if is_nil ground_truth then 0 else total_matches / of_nat (length ground_truth) in
      let f1_score :=
        if Qeq_bool (precision + recall) 0 then 0
        else 2 * (precision * recall) / (precision + recall) in
      ret {| f1_score := f1_score; precision := precision; recall := recall;
             exact_matches := exact_matches; fuzzy_score := fuzzy_score;
             semantic_matches := ls_match_details st |}.

End Matcher.
End WithModel.
End Scoring.
Export Scoring.

Arguments ret {World A} a.
Arguments bind {World A B} m f.
Arguments try_except {World A} m h.
Arguments query {World Response} l _ _.
Arguments get_response_texts {World Response} l _.
Arguments check_eif_semantic_similarity U {World Response} name1 name2 lm use_lm.
Arguments scan_truth U {World Response} lm use_lm_semantic pred_norm pred_orig
  matched_truth unmatched_truth b.
Arguments match_loop U {World Response} lm use_lm_semantic unmatched_pred unmatched_truth st.
Arguments calculate_eif_similarity U {World Response} lm use_lm_semantic predicted ground_truth.

(** ** The answer extractor *)

Module Parser.

(** [s.split(',')]: the pieces between the occurrences of one separator. *)
Fixpoint split_on_from (sep : char) (piece : str) (s : str) : list str :=
  match s with
  | [] => [piece]
  | c :: s' =>
      if c =? sep then piece :: split_on_from sep [] s'
      else split_on_from sep (piece ++ [c]) s'
  end.

Definition split_on (sep : char) (s : str) : list str := split_on_from sep [] s.

Definition truthy (s : str) : bool := negb (falsy s).

(** The first stage that returns decides; [None] is falling through. *)
Fixpoint first_return {A B} (f : A -> option B) (l : list A) : option B :=
  match l with
  | [] => None
  | a :: l' => match f a with Some b => Some b | None => first_return f l' end
  end.

Definition final_patterns : list string := [
  "\*\*最终EIF功能点列表\*\*[：:]\s*\[([^\]]+)\]";
  "\*\*最终EIF功能点列表\*\*[：:]\s*([^\n]+)";
  "最终EIF功能点列表[：:]\s*\[([^\]]+)\]";
  "最终EIF功能点列表[：:]\s*([^\n]+)";
  "最终.*?功能点.*?列表[：:]\s*\[([^\]]+)\]";
  "\*?\*?EIF功能点列表\*?\*?[：:]\s*\[([^\]]+)\]";
  "EIF功能点列表[：:]\s*([^\n]+)"
]%string.

Definition patterns : list string := [
  "最终EIF功能点列表[：:]\s*\[([^\]]+)\]";
  "最终EIF功能点列表[：:]\s*([^\n（]+)";
  "改进后的EIF功能点列表[：:]\s*\[([^\]]+)\]";
  "改进后的EIF功能点列表[：:]\s*([^\n（]+)";
  "该视角识别的EIF功能点[：:]\s*\[([^\]]+)\]";
  "该视角识别的EIF功能点[：:]\s*([^\n（]+)";
  "\*?\*?EIF功能点列表\*?\*?[：:]\s*\[([^\]]+)\]";
  "EIF功能点列表[：:]\s*\[([^\]]+)\]";
  "EIF功能点列表[：:]\s*([^\n（]+)";
  "功能点如下[：:]\s*([^\n]+)";
  "功能点[：:]\s*([^\n（]+)"
]%string.

(** The answers that mean an empty list. *)
Definition none_words : list str := [utf8 "无"; utf8 "无。"; utf8 "None"; utf8 "none"].

Section WithTables.
Variable U : unicode_tables.

(** [_clean_eif_name(name)]. *)
Definition clean_eif_name (name : str) : str :=
  let name := sub_empty U (compile false "^\d+[\.\)、]\s*") name in
  let name := sub_empty U (compile false "^[-•·]\s*") name in
  let name := sub_empty U (compile false "[\[\]]") name in
  join (utf8 " ") (split name).

(** The body of [for pattern in final_patterns] (long texts). *)
Definition try_final_pattern (text : str) (pattern : string) : option (list str) :=
  match search U (compile true pattern) text with
  | Some m =>
      let eif_text := strip (group1 m) in
      if mem eif_text none_words then Some []
      else
        let eif_list :=
          map (fun item => clean_eif_name (strip item))
              (re_split U (compile false "[,，、;；]") eif_text) in
        let eif_list :=
          List.filter (fun item => truthy item && (length item <? 50)%nat) eif_list in
        if negb (is_nil eif_list) then Some eif_list else None
  | None => None
  end.

(** The bracketed list closest to the end of a long text. *)
Definition try_text_tail (text : str) : option (list str) :=
  let text_tail := last_n 500 text in
  match search U (compile true "\[([A-Z][A-Z_,\s]+)\](?!.*\[)") text_tail with
  | Some m =>
      let eif_text := strip (group1 m) in
      let eif_list := map (fun item => clean_eif_name (strip item)) (split_on 44 eif_text) in
      let eif_list :=
        List.filter (fun item => truthy item && (length item <? 50)%nat) eif_list in
      if negb (is_nil eif_list) then Some eif_list else None
  | None => None
  end.

(** The numbered list of bold names under the title. *)
Definition try_numbered_after_title (text : str) : option (list str) :=
  match search U (compile true
          "EIF功能点列表[：:]\s*\*?\*?\s*\n((?:\d+\.\s*\*\*[^\*]+\*\*[^\n]*\n?)+)") text with
  | Some eif_list_match =>
      let list_section := group1 eif_list_match in
      let matches := findall U (compile false "\d+\.\s*\*\*([A-Z][A-Za-z_\s]+)\*\*") list_section in
      if negb (is_nil matches) then
        let eif_list := map (fun m => clean_eif_name (strip m)) matches in
        let eif_list :=
          List.filter (fun item => truthy item && (2 <? length item)%nat
                                   && (length item <? 50)%nat) eif_list in
        if negb (is_nil eif_list) then Some eif_list else None
      else None
  | None => None
  end.

(** The body of [for pattern in patterns]. *)
Definition try_pattern (text : str) (pattern : string) : option (list str) :=
  match search U (compile false pattern) text with
  | Some m =>
      let answer_text := strip (group1 m) in
      if mem answer_text none_words then Some []
      else if mem answer_text [utf8 ""; utf8 "**"; utf8 "*"] then None
      else
        let eif_list := re_split U (compile false "[,，、;；]") answer_text in
        let eif_list :=
          map (fun item => clean_eif_name (strip item))
              (List.filter (fun item => truthy (strip item)) eif_list) in
        let eif_list :=
          List.filter (fun item => truthy item && (0 <? length item)%nat) eif_list in
        if negb (is_nil eif_list) then Some eif_list else None
  | None => None
  end.

(** The whole answer as a comma-separated list. *)
Definition try_simple (cleaned_text : str) : option (list str) :=
  if contains (utf8 ",") cleaned_text || contains (utf8 "，") cleaned_text then
    let eif_list := re_split U (compile false "[,，、;；]") cleaned_text in
    let eif_list :=
      map (fun item => clean_eif_name (strip item))
          (List.filter (fun item => truthy (strip item)) eif_list) in
    let eif_list :=
      List.filter (fun item => truthy item && (length item <? 50)%nat
                               && (0 <? length item)%nat) eif_list in
    if negb (is_nil eif_list) then Some eif_list else None
  else None.

(** The whole answer as one name. *)
Definition try_single (cleaned_text : str) : option (list str) :=
  if (length cleaned_text <? 50)%nat && (0 <? length cleaned_text)%nat then
    let eif_name := clean_eif_name cleaned_text in
    if truthy eif_name then Some [eif_name] else None
  else None.

(** A numbered list of bold names followed by a dash. *)
Definition try_bold_list (text : str) : option (list str) :=
  let matches := findall U (compile false "\d+\.\s*\*\*([A-Z][A-Za-z_\s]+)\*\*\s*[-–—]") text in
  if negb (is_nil matches) then
    let eif_list := map (fun m => clean_eif_name (strip m)) matches in
    let eif_list :=
      List.filter (fun item => truthy item && (2 <? length item)%nat
                               && (length item <? 50)%nat
                               && negb (contains (utf8 "列表") item)
                               && negb (contains (utf8 "功能点") item)) eif_list in
    if negb (is_nil eif_list) then Some eif_list else None
  else None.

(** A plain numbered list in the section under the title. *)
Definition try_plain_list (text : str) : option (list str) :=
  match search U (compile true "EIF功能点列表[：:](.*?)(?=\n\n|\Z)") text with
  | Some eif_section =>
      let section_text := group1 eif_section in
      let matches :=
        findall U (compile false "\d+\.\s*([A-Z][A-Z_\s]+?)(?:\s*[-–—]|\s*\n|$)") section_text in
      if negb (is_nil matches) then
        let eif_list := map (fun m => clean_eif_name (strip m)) matches in
        let eif_list :=
          List.filter (fun item => truthy item && (0 <? length item)%nat
                                   && (length item <? 50)%nat) eif_list in
        if negb (is_nil eif_list) then Some eif_list else None
      else None
  | None => None
  end.

(** What follows the loop over [patterns]; the check for the word for
    nothing returns the empty list. *)
Definition extract_unlabelled (text : str) : list str :=
  let cleaned_text := sub_empty U (compile false "根据.*?如下[：:]?\s*") text in
  let cleaned_text := sub_empty U (compile false "识别出.*?如下[：:]?\s*") cleaned_text in
  let cleaned_text := strip cleaned_text in
  if mem (str_lower U cleaned_text) [utf8 "无"; utf8 "none"; utf8 ""] then []
  else
    default []
      (orelse (try_simple cleaned_text)
      (orelse (try_single cleaned_text)
      (orelse (try_bold_list text)
              (try_plain_list text)))).

(** [extract_answer(text)]. *)
Definition extract_answer (text : str) : list str :=
  if falsy text then []
  else
    let text := strip text in
    let long_stage :=
      if (500 <? length text)%nat
      then orelse (first_return (try_final_pattern text) final_patterns)
                  (try_text_tail text)
      else None in
    match orelse long_stage
            (orelse (try_numbered_after_title text)
                    (first_return (try_pattern text) patterns)) with
    | Some eif_list => eif_list
    | None => extract_unlabelled text
    end.

End WithTables.
End Parser.
Export Parser.

(** ** Thought states, their assessment and the parsing of responses *)

Module Assessment.

Local Open Scope Q_scope.

(** A text or a flag kept in a thought state. *)
Inductive entry :=
| Text (s : str)
| Flag (b : bool).

#[global] Instance entry_eq_dec : EqDecision entry.
Proof. solve_decision. Defined.

(** [str(v)], as an f-string renders an entry. *)
Definition show (v : entry) : str :=
  match v with
  | Text s => s
  | Flag true => utf8 "True"
  | Flag false => utf8 "False"
  end.

(** A thought state: the dictionary the operations pass along.  The keys
    "final_answer" and "ground_truth" hold lists of names and the key
    "evaluation_metrics" holds a report; each is a field of its own, absent
    when the key is.  [st_entries] holds the other keys, which hold texts
    and flags ("current", "perspective", "phase", "merge_perspectives",
    ...).  The keys the parser computes end in "_analysis", so that a write
    through [st_entries] never reaches one of the three fields. *)
Record thought_state := {
  st_final_answer : option (list str);
  st_ground_truth : option (list str);
  st_evaluation_metrics : option report;
  st_entries : gmap str entry
}.

(** [state[key] = v] for a key of [st_entries]. *)
Definition set_entry (key : str) (v : entry) (st : thought_state) : thought_state :=
  {| st_final_answer := st_final_answer st;
     st_ground_truth := st_ground_truth st;
     st_evaluation_metrics := st_evaluation_metrics st;
     st_entries := <[key := v]> (st_entries st) |}.

(** [state["final_answer"] = answer]. *)
Definition set_final_answer (answer : list str) (st : thought_state) : thought_state :=
  {| st_final_answer := Some answer;
     st_ground_truth := st_ground_truth st;
     st_evaluation_metrics := st_evaluation_metrics st;
     st_entries := st_entries st |}.

(** [state["evaluation_metrics"] = result]. *)
Definition set_evaluation_metrics (result : report) (st : thought_state) : thought_state :=
  {| st_final_answer := st_final_answer st;
     st_ground_truth := st_ground_truth st;
     st_evaluation_metrics := Some result;
     st_entries := st_entries st |}.

Section WithWorld.
Variable U : unicode_tables.
Variables World Response : Type.

Notation "'let*' x ':=' m 'in' f" := (bind m (fun x => f))
  (at level 10, x name, m at level 100, f at level 200).

(** The two globals of the module, [_GLOBAL_LM_FOR_SCORING] and
    [_USE_LLM_SEMANTIC]. *)
Record globals := {
  GLOBAL_LM_FOR_SCORING : option (language_model World Response);
  USE_LLM_SEMANTIC : bool
}.

(** Their values when the module is loaded. *)
Definition initial_globals : globals :=
  {| GLOBAL_LM_FOR_SCORING := None; USE_LLM_SEMANTIC := false |}.

(** [set_scoring_lm(lm, use_semantic)]. *)
Definition set_scoring_lm (lm : option (language_model World Response))
    (use_semantic : bool) (g : globals) : globals :=
  {| GLOBAL_LM_FOR_SCORING := lm; USE_LLM_SEMANTIC := use_semantic |}.

Definition raise {A} (e : exn) : M World A := fun w => (Raise e, w).

(** [state["ground_truth"]]: a [KeyError] when the key is absent. *)
Definition get_ground_truth (st : thought_state) : M World (list str) :=
  match st_ground_truth st with
  | Some t => ret t
  | None => raise (Exception (utf8 "'ground_truth'"))
  end.

(** [score_assessment(state)]: the score, and the state as the call leaves
    it. *)
Definition score_assessment (g : globals) (st : thought_state) : M World (Q * thought_state) :=
  try_except
    (let prediction :=
       match st_final_answer st with
       | Some final_answer => final_answer
       | None => []
       end in
     let* ground_truth := get_ground_truth st in
     let* similarity_result :=
       calculate_eif_similarity U (GLOBAL_LM_FOR_SCORING g) (USE_LLM_SEMANTIC g)
         prediction ground_truth in
     let st := set_evaluation_metrics similarity_result st in
     ret (f1_score similarity_result, st))
    (fun e => ret (0, st)).

(** [test_eif_assessment(state)]. *)
Definition test_eif_assessment (g : globals) (st : thought_state) : M World (bool * thought_state) :=
  try_except
    (let prediction :=
       match st_final_answer st with
       | Some final_answer => final_answer
       | None => []
       end in
     let* ground_truth := get_ground_truth st in
     let* similarity_result :=
       calculate_eif_similarity U (GLOBAL_LM_FOR_SCORING g) (USE_LLM_SEMANTIC g)
         prediction ground_truth in
     let st := set_evaluation_metrics similarity_result st in
     ret (Qle_bool (8 # 10) (f1_score similarity_result), st))
    (fun e => ret (false, st)).

End WithWorld.

Section WithTables.
Variable U : unicode_tables.

(** The body of the [try] block of [parse_generate_answer]. *)
Definition parse_text (state : thought_state) (text : str) : outcome thought_state :=
  let new_state := state in
  let new_state := set_entry (utf8 "current") (Text text) new_state in
  let answer := extract_answer U text in
  let new_state := set_final_answer answer new_state in
  let new_state :=
    match st_entries state !! utf8 "perspective" with
    | Some perspective =>
        let new_state :=
          set_entry (show perspective ++ utf8 "_analysis") (Text text) new_state in
        if bool_decide (perspective = Text (utf8 "用户视角"))
        then set_entry (utf8 "user_perspective") (Text text) new_state
        else if bool_decide (perspective = Text (utf8 "系统视角"))
        then set_entry (utf8 "system_perspective") (Text text) new_state
        else if bool_decide (perspective = Text (utf8 "IFPUG规则视角"))
        then set_entry (utf8 "ifpug_perspective") (Text text) new_state
        else new_state
    | None =>
        match st_entries state !! utf8 "merge_perspectives" with
        | Some _ => set_entry (utf8 "merged_analysis") (Text text) new_state
        | None => new_state
        end
    end in
  Ok new_state.

(** The state the [except] block builds. *)
Definition default_state (state : thought_state) (text : str) (e : exn) : thought_state :=
  let default_state := state in
  let default_state := set_entry (utf8 "current") (Text text) default_state in
  let default_state := set_final_answer [] default_state in
  match e with
  | Exception msg => set_entry (utf8 "parse_error") (Text msg) default_state
  end.

(** [parse_generate_answer(state, texts)]. *)
Definition parse_generate_answer (state : thought_state) (texts : list str) : list thought_state :=
  map (fun text =>
         match parse_text state text with
         | Ok new_state => new_state
         | Raise e => default_state state text e
         end) texts.

End WithTables.

End Assessment.
Export Assessment.

Arguments GLOBAL_LM_FOR_SCORING {World Response} g.
Arguments USE_LLM_SEMANTIC {World Response} g.
Arguments set_scoring_lm {World Response} lm use_semantic g.
Arguments score_assessment U {World Response} g st.
Arguments test_eif_assessment U {World Response} g st.

(** ** The prompts *)

Module Prompter.

(** *** [str.format] *)

(** [tpl.format] with keyword arguments [kw], read in one pass from left to
    right: "{name}" is replaced by the value of [name], rendered as [str]
    renders it, and a value is not read again; "{{" and "}}" stand for a
    brace.  [field] is the name being read, once a brace is open.  The
    fields of the templates below are plain names; the rest of the field
    syntax (positions, conversions, format specifications, attributes and
    indices) is not modelled. *)
Fixpoint format_from (kw : list (str * entry)) (field : option str) (tpl : str)
  : outcome str :=
  match field, tpl with
  | Some name, [] =>
      Raise (Exception (utf8 "expected '}' before end of string"))
  | Some name, c :: t =>
      if (c =? 125)%N then
        match List.find (fun kv => bool_decide (kv.1 = name)) kw with
        | Some kv =>
            match format_from kw None t with
            | Ok rest => Ok (show kv.2 ++ rest)
            | Raise e => Raise e
            end
        | None => Raise (Exception (utf8 "'" ++ name ++ utf8 "'"))
        end
      else format_from kw (Some (name ++ [c])) t
  | None, [] => Ok []
  | None, c :: t =>
      if (c =? 123)%N then
        match t with
        | d :: t' =>
            if (d =? 123)%N then
              match format_from kw None t' with
              | Ok rest => Ok (123%N :: rest)
              | Raise e => Raise e
              end
            else format_from kw (Some []) t
        | [] => Raise (Exception (utf8 "Single '{' encountered in format string"))
        end
      else if (c =? 125)%N then
        match t with
        | d :: t' =>
            if (d =? 125)%N then
              match format_from kw None t' with
              | Ok rest => Ok (125%N :: rest)
              | Raise e => Raise e
              end
            else Raise (Exception (utf8 "Single '}' encountered in format string"))
        | [] => Raise (Exception (utf8 "Single '}' encountered in format string"))
        end
      else
        match format_from kw None t with
        | Ok rest => Ok (c :: rest)
        | Raise e => Raise e
        end
  end.

Definition format (tpl : str) (kw : list (str * entry)) : outcome str :=
  format_from kw None tpl.

(** *** The templates of [FunctionPointPrompter] *)

Definition io_prompt : str := utf8 "你是一个IFPUG功能点分析专家。请分析给定的需求文档，识别出其中所有可能的外部接口文件（EIF）功能点。

[需求文档]
{requirement_text}

**【重要】请严格按照以下格式输出（必须使用方括号，功能点之间用逗号分隔）：**

EIF功能点列表：[功能点1, 功能点2, 功能点3]

如果没有EIF功能点，请输出：
EIF功能点列表：无".

Definition cot_prompt : str := utf8 "你是一个IFPUG功能点分析专家。请分析给定的需求文档，识别出其中所有可能的外部接口文件（EIF）功能点。
请按照以下步骤进行分析：

1. 识别需求文档中提到的所有外部数据源/接口
2. 对每个外部数据源，判断是否逻辑上独立且用户可识别
3. 判断是否被当前应用引用，但物理/逻辑上存在于当前应用之外
4. 判断是否不由当前应用进行维护（即只读，不增删改）
5. 根据以上分析，列出所有满足EIF条件的功能点

[需求文档]
{requirement_text}

请按以下格式输出：
思考过程：
1. 识别的外部数据源：[列出所有外部数据源]
2. EIF条件分析：
   - 数据源1：[分析是否满足EIF条件]
   - 数据源2：[分析是否满足EIF条件]
   ...
3. 结论：[总结]

**【重要】请在最后一行严格按照以下格式输出（必须使用方括号，功能点之间用逗号分隔）：**

EIF功能点列表：[功能点1, 功能点2, 功能点3]

如果没有EIF功能点，请输出：
EIF功能点列表：无".

Definition tot_prompt : str := utf8 "你是一个IFPUG功能点分析专家。请分析给定的需求文档，识别出其中所有可能的外部接口文件（EIF）功能点。

[需求文档]
{requirement_text}

请按以下方法进行分析：

1. 初步识别
   1.1 扫描文档，列出所有外部数据源/接口
   1.2 标注每个数据源的特征（来源、访问方式等）

2. 深入分析每个外部数据源
   2.1 数据组特征
       - 是否逻辑上独立
       - 用户是否可识别
   2.2 数据位置与访问方式
       - 是否存在于应用边界之外
       - 应用是否仅引用（读取）该数据，不进行维护

3. 反向验证
   3.1 检查是否有遗漏的外部数据源
   3.2 验证已识别的功能点是否真正满足EIF条件

4. 最终结论

**【重要】请在最后一行严格按照以下格式输出（必须使用方括号，功能点之间用逗号分隔）：**

EIF功能点列表：[功能点1, 功能点2, 功能点3]

如果没有EIF功能点，请输出：
EIF功能点列表：无".

Definition got_prompt : str := utf8 "你是一个IFPUG功能点分析专家。请分析给定的需求文档，识别出其中所有可能的外部接口文件（EIF）功能点。

[需求文档]
{requirement_text}

请按以下步骤分析：

1. 需求分解
- 识别文档中提到的所有外部系统/数据源
- 分析当前应用如何访问这些外部数据
- 标注每个外部数据源的访问方式（只读/读写）

2. 多路径验证
路径1：从用户视角
- 哪些外部数据组用户可以识别
- 哪些外部数据对业务有价值

路径2：从系统视角
- 哪些数据存在于应用边界之外
- 哪些数据应用只引用（读取）不维护

路径3：从IFPUG规则视角
- 检查每个数据源是否符合EIF定义
- 验证是否满足所有必要条件（逻辑独立、外部存储、只读引用）

3. 结果合并
- 综合各路径结果
- 去除重复和不符合条件的
- 得出最终的EIF功能点列表

**【重要】请在最后一行严格按照以下格式输出（必须使用方括号，功能点之间用逗号分隔）：**

EIF功能点列表：[功能点1, 功能点2, 功能点3]

如果没有EIF功能点，请输出：
EIF功能点列表：无".

Definition tot_improve_prompt : str := utf8 "你是一个IFPUG功能点分析专家。基于之前的分析结果进行改进：

之前识别的EIF功能点：{current}

[需求文档]
{requirement_text}

请基于之前的分析进行改进：
1. 分析之前识别的功能点是否准确
2. 检查是否有遗漏的EIF功能点
3. 检查是否有误判的非EIF功能点（例如内部数据或有写操作的数据）
4. 重新验证EIF的三个关键条件
5. 给出改进后的功能点列表

**【重要】请在最后一行严格按照以下格式输出（必须使用方括号，功能点之间用逗号分隔）：**

改进后的EIF功能点列表：[功能点1, 功能点2, 功能点3]

如果没有EIF功能点，请输出：
改进后的EIF功能点列表：无".

Definition perspective_prompt : str := utf8 "你是一个IFPUG功能点分析专家。请从{perspective}分析需求文档，识别出所有可能的EIF功能点。

[需求文档]
{requirement_text}

[分析视角说明]
用户视角 - 关注：
- 哪些外部数据组逻辑上独立且用户可识别
- 哪些外部数据对业务有实际价值
- 用户是否能够理解这些外部数据的业务含义

系统视角 - 关注：
- 哪些数据存在于应用边界之外
- 应用如何访问这些外部数据（只读/读写）
- 哪些数据由外部系统维护，当前应用不进行增删改

IFPUG规则视角 - 关注：
- 哪些外部数据源满足EIF的所有必要条件（逻辑独立、外部存储、只读引用）
- 需要排除哪些不符合条件的候选项（内部数据、有写操作的数据）
- 是否符合IFPUG的最佳实践

[分析步骤]
1. 识别文档中提到的所有外部数据源/接口
2. 从该视角评估每个外部数据源
3. 列出符合EIF条件的功能点
4. 说明判断依据

[输出格式]
分析过程：
1. 识别的外部数据源：
   [列出所有外部数据源]

2. 从{perspective}评估：
   - 数据源1：[评估结果和理由]
   - 数据源2：[评估结果和理由]
   ...

3. 结论：
   [总结性分析]

**【重要】请在最后一行严格按照以下格式输出（必须使用方括号，功能点之间用逗号分隔）：**

该视角识别的EIF功能点：[功能点1, 功能点2, 功能点3]

如果没有EIF功能点，请输出：
该视角识别的EIF功能点：无".

Definition merge_prompt : str := utf8 "你是一个IFPUG功能点分析专家。请综合以下三个视角的分析结果，得出最终的EIF功能点列表。

[需求文档]
{requirement_text}

[各视角分析结果]
用户视角分析：
{user_perspective}

系统视角分析：
{system_perspective}

IFPUG规则视角分析：
{ifpug_perspective}

[分析要求]
1. EIF必须同时满足以下所有条件：
   - 逻辑上独立且用户可识别的数据组
   - 被当前应用引用，但物理/逻辑上存在于当前应用之外
   - 不由当前应用进行维护（即只读，不增删改）

2. 需要排除的情况：
   - 数据由当前应用维护（有增删改操作）
   - 数据存储在应用边界内
   - 数据不是逻辑独立的
   - 不符合IFPUG规则的要求

请按以下步骤综合分析：
1. 汇总三个视角识别的所有功能点
2. 对每个功能点，检查三个视角的一致性
3. 去除重复项和明显不符合条件的项
4. 对有争议的功能点进行深入分析
5. 得出最终的EIF功能点列表

请输出：
1. 各视角关键发现：
   用户视角识别：[功能点列表]
   系统视角识别：[功能点列表]
   IFPUG规则视角识别：[功能点列表]

2. 一致性分析：
   - 三个视角都认同的：[功能点列表]
   - 两个视角认同的：[功能点列表及分析]
   - 仅一个视角认同的：[功能点列表及分析]

3. 争议功能点处理：
   [对有争议的功能点进行详细分析]

4. 综合结论：
   [总结性分析]

**【重要】请在最后一行严格按照以下格式输出（必须使用方括号，功能点之间用逗号分隔）：**

最终EIF功能点列表：[功能点1, 功能点2, 功能点3]

如果没有EIF功能点，请输出：
最终EIF功能点列表：无".

(** *** [generate_prompt] *)

(** [kwargs[key]]: a [KeyError] when the key is absent. *)
Definition get_item (kwargs : gmap str entry) (key : str) : outcome entry :=
  match kwargs !! key with
  | Some v => Ok v
  | None => Raise (Exception (utf8 "'" ++ key ++ utf8 "'"))
  end.

(** [bool(v)] for an entry. *)
Definition truth (v : entry) : bool :=
  match v with
  | Text s => truthy s
  | Flag b => b
  end.

Definition and_then {A B} (x : outcome A) (f : A -> outcome B) : outcome B :=
  match x with
  | Ok a => f a
  | Raise e => Raise e
  end.

#[local] Notation "'let*' x ':=' m 'in' f" := (and_then m (fun x => f))
  (at level 10, x name, m at level 100, f at level 200).

(** [generate_prompt], with [kwargs] its keyword arguments: the entries of
    the thought state other than "current" and "method", which Python binds
    to the parameters of these names.  [None] is what the source returns
    when no branch does.  The calls of [logging.debug] are left out. *)
Definition generate_prompt (num_branches : Z) (current : option str) (method : str)
    (kwargs : gmap str entry) : outcome (option str) :=
  if negb (num_branches =? 1)%Z
  then Raise (Exception (utf8 "Branching should be done via multiple requests."))
  else if is_prefix (utf8 "io") method then
    let* requirement_text := get_item kwargs (utf8 "requirement_text") in
    let* prompt := format io_prompt [(utf8 "requirement_text", requirement_text)] in
    Ok (Some prompt)
  else if is_prefix (utf8 "cot") method then
    let* requirement_text := get_item kwargs (utf8 "requirement_text") in
    let* prompt := format cot_prompt [(utf8 "requirement_text", requirement_text)] in
    Ok (Some prompt)
  else if is_prefix (utf8 "tot") method then
    match current with
    | None | Some [] =>
        let* requirement_text := get_item kwargs (utf8 "requirement_text") in
        let* prompt := format tot_prompt [(utf8 "requirement_text", requirement_text)] in
        Ok (Some prompt)
    | Some text =>
        let* requirement_text := get_item kwargs (utf8 "requirement_text") in
        let* prompt :=
          format tot_improve_prompt
            [(utf8 "current", Text text); (utf8 "requirement_text", requirement_text)] in
        Ok (Some prompt)
    end
  else if is_prefix (utf8 "got") method then
    if bool_decide (kwargs !! utf8 "phase" = Some (Text (utf8 "analysis")))
       && bool_decide (is_Some (kwargs !! utf8 "perspective"))
    then
      let* perspective := get_item kwargs (utf8 "perspective") in
      let* requirement_text := get_item kwargs (utf8 "requirement_text") in
      let* prompt :=
        format perspective_prompt
          [(utf8 "perspective", perspective); (utf8 "requirement_text", requirement_text)] in
      Ok (Some prompt)
    else if bool_decide (kwargs !! utf8 "phase" = Some (Text (utf8 "merge")))
            && from_option truth false (kwargs !! utf8 "merge_perspectives")
    then
      let* requirement_text := get_item kwargs (utf8 "requirement_text") in
      let* prompt :=
        format merge_prompt
          [(utf8 "requirement_text", requirement_text);
           (utf8 "user_perspective", default (Text []) (kwargs !! utf8 "user_perspective"));
           (utf8 "system_perspective", default (Text []) (kwargs !! utf8 "system_perspective"));
           (utf8 "ifpug_perspective", default (Text []) (kwargs !! utf8 "ifpug_perspective"))] in
      Ok (Some prompt)
    else
      let* requirement_text := get_item kwargs (utf8 "requirement_text") in
      let* prompt := format got_prompt [(utf8 "requirement_text", requirement_text)] in
      Ok (Some prompt)
  else Ok None.

End Prompter.
Export Prompter.

(** ** Reading the ground truth of a sample *)

Module Dataset.

Section WithTables.
Variable U : unicode_tables.

(** The ground-truth list [run] reads from the second cell of a row of the
    data file: the body of [for row in reader] from [row[1]] to
    [true_eif_list]. *)
Definition true_eif_list (cell : str) : list str :=
  let true_eif_str := strip cell in
  if truthy true_eif_str
     && negb (mem (str_lower U true_eif_str) [utf8 "无"; utf8 "none"; utf8 ""])
  then
    map strip
        (List.filter (fun item => truthy (strip item))
                     (re_split U (compile false "[,，]") true_eif_str))
  else [].

End WithTables.

End Dataset.
Export Dataset.

(** * Vocabulary of the properties

    Definitions the statements below are written with; none of them is
    part of the program. *)

Local Open Scope Q_scope.

(** ** The patterns of the source *)

(** Every pattern the modelled functions compile, with its DOTALL flag. *)
Definition patterns_in_use : list (bool * string) :=
  map (pair true) final_patterns ++ map (pair false) patterns ++
  [ (false, "\([^)]*\)"); (false, "（[^）]*）"); (false, "(\d+\.?\d*)");
    (false, "^\d+[\.\)、]\s*"); (false, "^[-•·]\s*"); (false, "[\[\]]");
    (false, "[,，、;；]"); (true, "\[([A-Z][A-Z_,\s]+)\](?!.*\[)");
    (true, "EIF功能点列表[：:]\s*\*?\*?\s*\n((?:\d+\.\s*\*\*[^\*]+\*\*[^\n]*\n?)+)");
    (false, "\d+\.\s*\*\*([A-Z][A-Za-z_\s]+)\*\*");
    (false, "根据.*?如下[：:]?\s*"); (false, "识别出.*?如下[：:]?\s*");
    (false, "\d+\.\s*\*\*([A-Z][A-Za-z_\s]+)\*\*\s*[-–—]");
    (true, "EIF功能点列表[：:](.*?)(?=\n\n|\Z)");
    (false, "\d+\.\s*([A-Z][A-Z_\s]+?)(?:\s*[-–—]|\s*\n|$)") ]%string.

(** ** The lexical oracle *)

(** The Jaccard index of two collections read as sets, counted on lists:
    distinct common elements over distinct elements, and 0 when there is
    no element at all. *)
Definition jaccard (a b : list str) : Q :=
  let common := length (remove_dups (List.filter (fun x => mem x b) a)) in
  let all := length (remove_dups (a ++ b)) in
  if (0 <? all)%nat then of_nat common / of_nat all else 0.

(** The lexical oracle as the specification words it: token-set Jaccard,
    and character-set Jaccard when either string has no token. *)
Definition lexical_oracle_spec (s1 s2 : str) : Q :=
  if is_nil (split s1) || is_nil (split s2)
  then jaccard (chars s1) (chars s2)
  else jaccard (split s1) (split s2).

(** ** The semantic oracle *)

Section ScoreVocabulary.
Variable U : unicode_tables.
Variables World Response : Type.

(** The decimal number that starts at the head of [s]: a longest run of
    digits, then, when a point follows, the point and the longest run of
    digits after it. *)
Definition number_at (s : str) : option str :=
  match take_while (isdecimal U) s with
  | [] => None
  | ip =>
      match drop_while (isdecimal U) s with
      | d :: rest =>
          if (d =? 46)%N then Some (ip ++ d :: take_while (isdecimal U) rest) else Some ip
      | [] => Some ip
      end
  end.

(** The first decimal number of [s], scanning from the left. *)
Fixpoint first_number (s : str) : option str :=
  match number_at s with
  | Some n => Some n
  | None => match s with [] => None | _ :: s' => first_number s' end
  end.

Definition score_re : re :=
  Group 1 (Cat (Cat (Chr false [CDigit]) (Star true (Chr false [CDigit])))
               (Cat (Alt (Lit 46%N) Eps) (Star true (Chr false [CDigit])))).

(** What is left after an optional point. *)
Definition skip_point (s : str) : str :=
  match s with
  | d :: rest => if (d =? 46)%N then rest else s
  | [] => []
  end.

(** The first text the model returns for a prompt, when both calls
    succeed and there is a text. *)
Definition model_answer (lm : language_model World Response) (prompt : str) (w : World)
  : option str * World :=
  match query lm prompt 1%nat w with
  | (Raise _, w1) => (None, w1)
  | (Ok r, w1) =>
      match get_response_texts lm r w1 with
      | (Ok (text :: _), w2) => (Some text, w2)
      | (_, w2) => (None, w2)
      end
  end.

Definition clamp (x : Q) : Q := py_max 0 (py_min 1 x).

(** The score the oracle is to return, read off the model's answer. *)
Definition oracle_score (name1 name2 : str) (answer : option str) : Q :=
  match answer with
  | Some text =>
      match first_number (strip text) with
      | Some n => clamp (py_float U n)
      | None => string_similarity name1 name2
      end
  | None => string_similarity name1 name2
  end.

End ScoreVocabulary.

Arguments model_answer {World Response} lm prompt w.

(** ** The matching loop and the report *)

(** The sum of the scores of a list of matches. *)
Definition total_score (ds : list match_detail) : Q :=
  fold_right (fun d acc => md_score d + acc) 0 ds.

(** What the inner loop maintains: a score in [0, 1], and a best candidate
    that is one of the remaining truth items, not claimed yet. *)
Definition good_best (matched : gset str) (ut : list (str * str)) (b : best) : Prop :=
  0 <= max_similarity b <= 1 /\
  match best_match b, best_match_orig b with
  | Some tn, Some to => (tn, to) ∈ ut /\ to ∉ matched
  | None, None => True
  | _, _ => False
  end.

(** What the outer loop maintains. *)
Definition loop_inv (ut : list (str * str)) (st : loop_state) : Prop :=
  ls_matched_truth st = list_to_set (md_truth <$> ls_match_details st) /\
  NoDup (md_truth <$> ls_match_details st) /\
  Forall (fun d => (exists tn, (tn, md_truth d) ∈ ut /\ tn <> [])
                   /\ 7 # 10 < md_score d /\ md_score d <= 1)
         (ls_match_details st) /\
  ls_fuzzy_score st == total_score (ls_match_details st).

Definition empty_state : loop_state :=
  {| ls_fuzzy_score := 0; ls_matched_truth := ∅; ls_match_details := [] |}.

(** The state once a match is recorded. *)
Definition record_match (pred_orig truth_orig : str) (score : Q) (st : loop_state)
  : loop_state :=
  {| ls_fuzzy_score := ls_fuzzy_score st + score;
     ls_matched_truth := ls_matched_truth st ∪ {[ truth_orig ]};
     ls_match_details :=
       ls_match_details st ++
       [{| md_pred := pred_orig; md_truth := truth_orig; md_score := score |}] |}.

(** The report of a run that returns. *)
Definition returned {A W} (r : outcome A * W) : option A :=
  match r.1 with
  | Ok a => Some a
  | Raise _ => None
  end.

(** The fuzzy score and the matches of a run that returns. *)
Definition fuzzy_outcome {W} (r : outcome report * W) : option (Q * list match_detail) :=
  match r.1 with
  | Ok rep => Some (fuzzy_score rep, semantic_matches rep)
  | Raise _ => None
  end.

(** A model that answers every prompt with the same text. *)
Definition answering (text : str) : language_model unit unit :=
  {| query := fun _ _ w => (Ok tt, w);
     get_response_texts := fun _ w => (Ok [text], w) |}.

(** A model that answers a request for one response with the same text,
    and fails when asked for more. *)
Definition answering_once (text : str) : language_model unit unit :=
  {| query := fun _ n w =>
       if (n =? 1)%nat then (Ok tt, w) else (Raise (Exception (utf8 "one response only")), w);
     get_response_texts := fun _ w => (Ok [text], w) |}.

Section ScanVocabulary.
Variable U : unicode_tables.
Variables World Response : Type.
Variable lm : option (language_model World Response).
Variable use_lm_semantic : bool.

(** The truth items the inner loop does not skip: those that no earlier
    predicted item has claimed. *)
Definition remaining (matched : gset str) (ut : list (str * str)) : list (str * str) :=
  List.filter (fun item => negb (bool_decide (item.2 ∈ matched))) ut.

(** The similarity the inner loop computes for a truth item. *)
Definition similarity (pred_norm pred_orig : str) (item : str * str) : M World Q :=
  if use_lm_semantic && bool_decide (is_Some lm)
  then check_eif_semantic_similarity U pred_orig item.2 lm true
  else ret (string_similarity pred_norm item.1).

(** The similarities of the items of a list, computed from left to right. *)
Fixpoint similarities (pred_norm pred_orig : str) (l : list (str * str))
  : M World (list Q) :=
  match l with
  | [] => ret []
  | item :: l' =>
      bind (similarity pred_norm pred_orig item) (fun s =>
      bind (similarities pred_norm pred_orig l') (fun ss => ret (s :: ss)))
  end.

End ScanVocabulary.

Arguments similarity U {World Response} lm use_lm_semantic pred_norm pred_orig item.
Arguments similarities U {World Response} lm use_lm_semantic pred_norm pred_orig l.

(** The greatest of the scores of the candidates, and 0 when none is
    positive. *)
Definition greatest {A} (cands : list (A * Q)) : Q :=
  fold_right (fun c g => if Qltb g c.2 then c.2 else g) 0 cands.

(** The best candidate: the first one with the greatest score, when that
    score is positive. *)
Definition first_best {A} (cands : list (A * Q)) : option (A * Q) :=
  if Qltb 0 (greatest cands)
  then List.find (fun c => Qeq_bool c.2 (greatest cands)) cands
  else None.

(** What the acceptance step makes of the best remaining truth item: a
    match when its score is above 0.7 and its normalized name is not
    empty. *)
Definition accepted (pred_orig : str) (found : option ((str * str) * Q)) (st : loop_state)
  : loop_state :=
  match found with
  | Some ((truth_norm, truth_orig), score) =>
      if Qltb (7 # 10) score && negb (falsy truth_norm)
      then record_match pred_orig truth_orig score st
      else st
  | None => st
  end.

(** The variables of the inner loop once a candidate is looked at, and once
    the best one is found. *)
Definition pick (b : best) (c : (str * str) * Q) : best :=
  if Qltb (max_similarity b) c.2
  then {| max_similarity := c.2; best_match := Some c.1.1; best_match_orig := Some c.1.2 |}
  else b.

Definition chosen (b : best) (found : option ((str * str) * Q)) : best :=
  match found with
  | Some c =>
      {| max_similarity := c.2; best_match := Some c.1.1; best_match_orig := Some c.1.2 |}
  | None => b
  end.

Section CountingVocabulary.
Context {A : Type} (f : A -> str).

(** The items of [l] whose key is not in [other], as the source pairs
    them with their keys. *)
Definition left_over (l : list A) (other : gset str) : list (str * A) :=
  filter (fun pp => pp.1 ∉ other) (zip (map f l) l).

End CountingVocabulary.

Section NameVocabulary.
Variable U : unicode_tables.

(** The set of normalized names of a list. *)
Definition name_set (l : list str) : gset str :=
  list_to_set (map (normalize_eif_name U) l).

(** The distinct normalized forms the two lists share, counted on lists. *)
Definition shared_forms (predicted ground_truth : list str) : list str :=
  remove_dups (List.filter (fun x => mem x (map (normalize_eif_name U) ground_truth))
                           (map (normalize_eif_name U) predicted)).

End NameVocabulary.

(** ** Name normalization *)

(** One edit that changes whitespace only: a whitespace character dropped
    at either end, dropped next to another one, or replaced by another
    whitespace character. *)
Inductive ws_edit : str -> str -> Prop :=
| ws_lead w s : isspace w = true -> ws_edit (w :: s) s
| ws_trail w s : isspace w = true -> ws_edit (s ++ [w]) s
| ws_run s1 w w' s2 :
    isspace w = true -> isspace w' = true ->
    ws_edit (s1 ++ w :: w' :: s2) (s1 ++ w' :: s2)
| ws_kind s1 w w' s2 :
    isspace w = true -> isspace w' = true ->
    ws_edit (s1 ++ w :: s2) (s1 ++ w' :: s2).

(** Two names differ only by case and by surrounding or extra whitespace:
    their lower-cased forms are related by whitespace edits, in either
    direction. *)
Definition same_modulo_case_and_space (U : unicode_tables) (a b : str) : Prop :=
  rtsc ws_edit (str_lower U a) (str_lower U b).

(** The order of steps the specification gives: trim, lower-case, strip
    the bracketed content, collapse the whitespace. *)
Definition normalize_as_specified (U : unicode_tables) (name : str) : str :=
  let name := str_lower U (strip name) in
  let name := sub_empty U (compile false "\([^)]*\)") name in
  let name := sub_empty U (compile false "（[^）]*）") name in
  join (utf8 " ") (split name).

(** The name in lower case, with single spaces between its words and none
    at its ends: what the first two steps of [normalize_eif_name] make of
    it. *)
Definition single_spaced (U : unicode_tables) (name : str) : str :=
  join (utf8 " ") (split (str_lower U name)).

(** A text without its groups between [o] and [c]: from left to right,
    each [o] that a [c] follows is dropped with everything up to the first
    such [c].  [held] is the text read since an [o] that no [c] has
    followed yet. *)
Fixpoint drop_groups (o c : char) (held : option str) (s : str) : str :=
  match s, held with
  | [], None => []
  | [], Some h => h
  | x :: t, None =>
      if (x =? o)%N then drop_groups o c (Some [x]) t else x :: drop_groups o c None t
  | x :: t, Some h =>
      if (x =? c)%N then drop_groups o c None t else drop_groups o c (Some (h ++ [x])) t
  end.

(** One parenthesized group taken out of a text: the first group in ASCII
    parentheses, or the first group in full-width parentheses when no ASCII
    opening parenthesis stands before or inside it. *)
Inductive drops_group : str -> str -> Prop :=
| drops_ascii x q y :
    40%N ∉ x -> 41%N ∉ q ->
    drops_group (x ++ 40%N :: q ++ 41%N :: y) (x ++ y)
| drops_cjk x q y :
    65288%N ∉ x -> 65289%N ∉ q -> 40%N ∉ x -> 40%N ∉ q ->
    drops_group (x ++ 65288%N :: q ++ 65289%N :: y) (x ++ y).

(** ** Searching past a prefix *)

(** The characters a pattern must read first, as far as its shape shows
    them: [avoid] lists characters the text is known not to start with, so
    that an optional literal of that kind is known to be skipped. *)
Fixpoint required_prefix (avoid : list char) (r : re) : str :=
  match r with
  | Chr false [CChar c] => [c]
  | Cat (Chr false [CChar c]) b => c :: required_prefix [] b
  | Cat (Alt (Chr false [CChar x]) Eps) b =>
      if bool_decide (x ∈ avoid) then required_prefix avoid b else []
  | Cat a _ => required_prefix avoid a
  | Group _ a => required_prefix avoid a
  | _ => []
  end.

(** The text does not start with a character of [avoid]. *)
Definition head_avoids (avoid : list char) (t : str) : Prop :=
  match t with
  | c :: _ => c ∉ avoid
  | [] => True
  end.

Definition prepend (pre : str) (m : match_obj) : match_obj :=
  {| m_before := pre ++ m_before m; m_text := m_text m;
     m_groups := m_groups m; m_after := m_after m |}.

(** A pattern that is not anchored and must read [o] first. *)
Definition opens_with (p : pattern) (o : char) : Prop :=
  anchored p = false /\ required_prefix [] (body p) = [o].

(** The pattern that strips the content in ASCII parentheses. *)
Definition paren_re : re :=
  Cat (Lit 40%N) (Cat (Star true (Chr true [CChar 41%N])) (Lit 41%N)).

(** The label of the answer line. *)
Definition label : str := utf8 "EIF功能点列表".

(** What a labelled pattern of the extractor cannot match without: the word
    "列表" followed by a colon, with one or two stars before the colon or
    none, or the label "该视角识别的EIF功能点" followed by a colon. *)
Definition triggers : list str :=
  flat_map (fun stars => map (fun colon => utf8 "列表" ++ stars ++ colon) [utf8 "："; utf8 ":"])
           [[]; utf8 "*"; utf8 "**"]
  ++ map (fun colon => utf8 "该视角识别的EIF功能点" ++ colon) [utf8 "："; utf8 ":"].

(** The text starts with a trigger. *)
Definition triggered (s : str) : bool := existsb (fun w => is_prefix w s) triggers.

(** [quiet pre rest]: in [pre ++ rest] no trigger starts at a position
    inside [pre]. *)
Fixpoint quiet (pre rest : str) : bool :=
  match pre with
  | [] => true
  | c :: pre' => negb (triggered (pre ++ rest)) && quiet pre' rest
  end.

(** A pattern without capturing group. *)
Fixpoint capture_free (r : re) : bool :=
  match r with
  | Eps | Chr _ _ | Eol | EndZ => true
  | Cat a b | Alt a b => capture_free a && capture_free b
  | Star _ a | Look _ a => capture_free a
  | Group _ _ => false
  end.

Fixpoint item_chars (items : list citem) : option (list char) :=
  match items with
  | [] => Some []
  | CChar d :: items' => cons d <$> item_chars items'
  | _ => None
  end.

(** The words a pattern matches, when its shape shows that they are
    finitely many: literal characters, sequences and alternatives. *)
Fixpoint exact_words (r : re) : option (list str) :=
  match r with
  | Eps => Some [[]]
  | Chr false items => map (fun d => [d]) <$> item_chars items
  | Cat a b =>
      match exact_words a, exact_words b with
      | Some wa, Some wb => Some (flat_map (fun w => map (app w) wb) wa)
      | _, _ => None
      end
  | Alt a b =>
      match exact_words a, exact_words b with
      | Some wa, Some wb => Some (wa ++ wb)
      | _, _ => None
      end
  | _ => None
  end.

(** Words one of which every match of the pattern starts with. *)
Fixpoint heads (r : re) : list str :=
  match r with
  | Cat a b =>
      match exact_words a with
      | Some wa => flat_map (fun w => map (app w) (heads b)) wa
      | None => heads a
      end
  | Alt a b => heads a ++ heads b
  | Group _ a => heads a
  | _ => default [[]] (exact_words r)
  end.

(** The part of a pattern from its trigger on: what is left of a sequence
    once the leading parts without capturing group are set aside, as soon
    as every match of the rest starts with a trigger. *)
Fixpoint trigger_cut (r : re) : option re :=
  if forallb triggered (heads r) then Some r
  else match r with
       | Cat a b => if capture_free a then trigger_cut b else None
       | _ => None
       end.

(** A text and what is left of it after each of its characters. *)
Fixpoint tails (s : str) : list str :=
  s :: match s with
       | [] => []
       | _ :: t => tails t
       end.

(** The first groups of the matches of [K] that start inside [line]. *)
Definition outcomes (U : unicode_tables) (K : re) (line : str) : list str :=
  omap (fun s => match match_here U K s with
                 | Some (_, cs) => Some (default [] (group 1 cs))
                 | None => None
                 end) (tails line).

(** What [try_pattern] and [try_final_pattern] make of the first group of
    a match. *)
Definition read_pattern (U : unicode_tables) (g : str) : option (list str) :=
  let answer_text := strip g in
  if mem answer_text none_words then Some []
  else if mem answer_text [utf8 ""; utf8 "**"; utf8 "*"] then None
  else
    let eif_list := re_split U (compile false "[,，、;；]") answer_text in
    let eif_list :=
      map (fun item => clean_eif_name U (strip item))
          (List.filter (fun item => truthy (strip item)) eif_list) in
    let eif_list :=
      List.filter (fun item => truthy item && (0 <? length item)%nat) eif_list in
    if negb (is_nil eif_list) then Some eif_list else None.

Definition read_final (U : unicode_tables) (g : str) : option (list str) :=
  let eif_text := strip g in
  if mem eif_text none_words then Some []
  else
    let eif_list :=
      map (fun item => clean_eif_name U (strip item))
          (re_split U (compile false "[,，、;；]") eif_text) in
    let eif_list :=
      List.filter (fun item => truthy item && (length item <? 50)%nat) eif_list in
    if negb (is_nil eif_list) then Some eif_list else None.

(** On a text that ends in [line] after a quiet part, the pattern finds
    nothing, or a first group that is read as [result]. *)
Definition settles (U : unicode_tables) (read : str -> option (list str)) (dotall : bool)
    (line : str) (result : list str) (pat : string) : bool :=
  match trigger_cut (body (compile dotall pat)) with
  | Some K =>
      forallb (fun g => match read g with
                        | Some l => bool_decide (l = result)
                        | None => true
                        end) (outcomes U K line)
  | None => false
  end.

(** On such a text the pattern finds a first group that is read as
    [result]. *)
Definition decides (U : unicode_tables) (read : str -> option (list str)) (dotall : bool)
    (line : str) (result : list str) (pat : string) : bool :=
  negb (anchored (compile dotall pat))
  && bool_decide (is_Some (here U (body (compile dotall pat)) line))
  && match trigger_cut (body (compile dotall pat)) with
     | Some K => forallb (fun g => bool_decide (read g = Some result)) (outcomes U K line)
     | None => false
     end.

(** The patterns before the [n]th settle, and the [n]th decides. *)
Definition stage_decides (U : unicode_tables) (read : str -> option (list str))
    (dotall : bool) (line : str) (result : list str) (ps : list string) (n : nat) : bool :=
  forallb (settles U read dotall line result) (take n ps)
  && match ps !! n with
     | Some pat => decides U read dotall line result pat
     | None => false
     end.

(** On such a text the pattern finds nothing. *)
Definition silent (U : unicode_tables) (dotall : bool) (line : str) (pat : string) : bool :=
  match trigger_cut (body (compile dotall pat)) with
  | Some K => is_nil (outcomes U K line)
  | None => false
  end.

(** The two spellings of the colon after the label, each with or without
    a space after it. *)
Definition colons : list str := [utf8 "："; utf8 ":"; utf8 "： "; utf8 ": "].

(** The answer line: the label, a colon, and the answer. *)
Definition answer_line (colon answer : str) : str := label ++ colon ++ answer.

(** The characters of the answer lines studied below. *)
Definition answer_alphabet : str := label ++ utf8 "：: [Job Info, Employee Info]none".

(** No character of [s] is a decimal digit for the tables [U]. *)
Definition no_digit (U : unicode_tables) (s : str) : Prop :=
  Forall (fun c => isdecimal U c = false) s.

(** The tables [U], with the characters of [known] declared not to be
    digits: the same tables when [no_digit U known]. *)
Definition without_digits (U : unicode_tables) (known : str) : unicode_tables :=
  {| str_lower := str_lower U;
     isdecimal := fun c => if existsb (N.eqb c) known then false else isdecimal U c;
     decimal_value := decimal_value U |}.

(** ** Words and separators *)

(** A word as [str.split] yields it: not empty, and without whitespace. *)
Definition solid (w : str) : Prop :=
  w <> [] /\ Forall (fun c => isspace c = false) w.

(** The pieces of [s] between the characters that satisfy [sep]; [piece]
    is the piece being read. *)
Fixpoint pieces_from (sep : char -> bool) (piece : str) (s : str) : list str :=
  match s with
  | [] => [piece]
  | c :: s' =>
      if sep c then piece :: pieces_from sep [] s'
      else pieces_from sep (piece ++ [c]) s'
  end.

Definition pieces (sep : char -> bool) (s : str) : list str := pieces_from sep [] s.

(** A pattern that reads one character of a class. *)
Definition class_pattern (neg : bool) (items : list citem) : pattern :=
  {| anchored := false; body := Chr neg items |}.

(** ** Names as the extractor returns them *)

(** No square bracket. *)
Definition bracket_free (x : str) : Prop :=
  Forall (fun c => c <> 91%N /\ c <> 93%N) x.

(** No whitespace at either end, single spaces between the words, and no
    square bracket. *)
Definition tidy (x : str) : Prop :=
  strip x = x /\ join (utf8 " ") (split x) = x /\ bracket_free x.

(** A non-empty result of [_clean_eif_name]. *)
Definition produced (U : unicode_tables) (x : str) : Prop :=
  x <> [] /\ exists y, x = clean_eif_name U y.

(** ** The matching loop without a model *)

(** The inner loop when no model is used: the best remaining truth item by
    string similarity of the normalized names. *)
Fixpoint best_lexical (pred_norm : str) (matched_truth : gset str)
    (unmatched_truth : list (str * str)) (b : best) : best :=
  match unmatched_truth with
  | [] => b
  | (truth_norm, truth_orig) :: rest =>
      if bool_decide (truth_orig ∈ matched_truth)
      then best_lexical pred_norm matched_truth rest b
      else
        let similarity := string_similarity pred_norm truth_norm in
        best_lexical pred_norm matched_truth rest
          (if Qltb (max_similarity b) similarity
           then {| max_similarity := similarity;
                   best_match := Some truth_norm;
                   best_match_orig := Some truth_orig |}
           else b)
  end.

(** The outer loop when no model is used. *)
Fixpoint match_lexical (unmatched_pred unmatched_truth : list (str * str))
    (st : loop_state) : loop_state :=
  match unmatched_pred with
  | [] => st
  | (pred_norm, pred_orig) :: rest =>
      match_lexical rest unmatched_truth
        (accept pred_orig
           (best_lexical pred_norm (ls_matched_truth st) unmatched_truth
              {| max_similarity := 0; best_match := None; best_match_orig := None |})
           st)
  end.

(** ** Parsed states *)

(** The keys of [st_entries] that [parse_generate_answer] may write for a
    state. *)
Definition written_keys (state : thought_state) : list str :=
  [utf8 "current"; utf8 "user_perspective"; utf8 "system_perspective";
   utf8 "ifpug_perspective"; utf8 "merged_analysis"] ++
  match st_entries state !! utf8 "perspective" with
  | Some perspective => [show perspective ++ utf8 "_analysis"]
  | None => []
  end.

(** ** Groups between an opening and a closing character *)

(** The pattern of a group: the opening character, any characters but the
    closing one, the closing character. *)
Definition group_re (o c : char) : re :=
  Cat (Lit o) (Cat (Star true (Chr true [CChar c])) (Lit c)).

Definition group_pattern (o c : char) : pattern :=
  {| anchored := false; body := group_re o c |}.

(** No opening character of [s] is followed, however far, by a closing
    one. *)
Definition group_free (o c : char) (s : str) : Prop :=
  forall a b, s = a ++ o :: b -> c ∉ b.

(** ** Characters a pattern cannot do without *)

(** [requires c r]: as far as the shape of [r] shows, every match of [r]
    reads the character [c]. *)
Fixpoint requires (c : char) (r : re) : bool :=
  match r with
  | Chr false [CChar d] => (d =? c)%N
  | Cat a b => requires c a || requires c b
  | Alt a b => requires c a && requires c b
  | Group _ a => requires c a
  | _ => false
  end.

(** ** Answer lines *)

(** A literal text followed by [r]. *)
Definition lits (L : str) (r : re) : re := fold_right (fun c r => Cat (Lit c) r) r L.

(** A colon, whitespace, and a bracketed list: "[：:]\s*\[([^\]]+)\]". *)
Definition list_tail_re : re :=
  Cat (Chr false [CChar 65306%N; CChar 58%N])
      (Cat (Star true (Chr false [CSpace]))
           (Cat (Lit 91%N)
                (Cat (Group 1 (Cat (Chr true [CChar 93%N]) (Star true (Chr true [CChar 93%N]))))
                     (Lit 93%N)))).

(** The four labels the prompts ask an answer line to start with. *)
Definition answer_labels : list str :=
  [utf8 "最终EIF功能点列表"; utf8 "改进后的EIF功能点列表";
   utf8 "该视角识别的EIF功能点"; utf8 "EIF功能点列表"].

(** The characters a name on an answer line must do without: the
    separators, the star, and the first characters of the longer labels. *)
Definition reserved : str := utf8 ",，、;；*最改该".

(** The answer line for a list of names, as the prompts ask for it. *)
Definition render (lbl colon : str) (names : list str) : str :=
  lbl ++ colon ++ utf8 "[" ++ join (utf8 ", ") names ++ utf8 "]".

(** A name an answer line can carry: not empty, left as it is by
    [_clean_eif_name], and without a reserved character. *)
Definition plain_name (U : unicode_tables) (n : str) : Prop :=
  n <> [] /\ clean_eif_name U n = n /\ Forall (fun c => c ∉ reserved) n.

(** The separators of a list of names: "[,，、;；]". *)
Definition separators : list citem :=
  [CChar 44%N; CChar 65292%N; CChar 12289%N; CChar 59%N; CChar 65307%N].

(** ** Vocabulary for the prompts *)

(** A pattern that matches only where it reads one of the characters [ds]. *)
Fixpoint needs (ds : list char) (r : re) : bool :=
  match r with
  | Chr false items =>
      forallb (fun it => match it with
                         | CChar d => bool_decide (d ∈ ds)
                         | _ => false
                         end) items
  | Cat a b => needs ds a || needs ds b
  | Alt a b => needs ds a && needs ds b
  | Group _ a => needs ds a
  | _ => false
  end.

(** The characters [_clean_eif_name] looks for. *)
Definition marks : str := utf8 ".)、-•·[]".

(** A template cut at its replacement fields. *)
Inductive segment :=
| Fixed (s : str)
| Hole (name : str).

#[global] Instance segment_eq_dec : EqDecision segment.
Proof. solve_decision. Defined.

Fixpoint segments_from (lit : str) (field : option str) (tpl : str) : list segment :=
  match tpl with
  | [] => [Fixed lit]
  | c :: t =>
      match field with
      | None =>
          if (c =? 123)%N then Fixed lit :: segments_from [] (Some []) t
          else segments_from (lit ++ [c]) None t
      | Some name =>
          if (c =? 125)%N then Hole name :: segments_from [] None t
          else segments_from [] (Some (name ++ [c])) t
      end
  end.

Definition segments (tpl : str) : list segment := segments_from [] None tpl.

Fixpoint unparse (segs : list segment) : str :=
  match segs with
  | [] => []
  | Fixed s :: segs => s ++ unparse segs
  | Hole name :: segs => 123%N :: name ++ 125%N :: unparse segs
  end.

(** The segments with every field replaced by its value. *)
Fixpoint fill (kw : list (str * entry)) (segs : list segment) : outcome str :=
  match segs with
  | [] => Ok []
  | Fixed s :: segs =>
      match fill kw segs with
      | Ok rest => Ok (s ++ rest)
      | Raise e => Raise e
      end
  | Hole name :: segs =>
      match List.find (fun kv => bool_decide (kv.1 = name)) kw with
      | Some kv =>
          match fill kw segs with
          | Ok rest => Ok (show kv.2 ++ rest)
          | Raise e => Raise e
          end
      | None => Raise (Exception (utf8 "'" ++ name ++ utf8 "'"))
      end
  end.

Definition brace_free (s : str) : bool :=
  forallb (fun c => negb ((c =? 123)%N || (c =? 125)%N)) s.

Definition plain_segment (seg : segment) : bool :=
  match seg with
  | Fixed s => brace_free s
  | Hole name => truthy name && brace_free name
  end.

(** Every field of the segments is one of [keys]. *)
Definition covers (keys : list str) (segs : list segment) : bool :=
  forallb (fun seg => match seg with
                      | Fixed _ => true
                      | Hole name => bool_decide (name ∈ keys)
                      end) segs.

(** The three names of the sample answer line of the prompts. *)
Definition sample_names : list str := [utf8 "功能点1"; utf8 "功能点2"; utf8 "功能点3"].

(** The closing lines of a prompt: the sample answer line, and the line to
    answer when there is no EIF. *)
Definition answer_block (lbl : str) : str :=
  [10%N; 10%N] ++ render lbl (utf8 "：") sample_names
  ++ [10%N; 10%N] ++ utf8 "如果没有EIF功能点，请输出："
  ++ [10%N] ++ lbl ++ utf8 "：无".

Definition templates : list str :=
  [io_prompt; cot_prompt; tot_prompt; got_prompt;
   tot_improve_prompt; perspective_prompt; merge_prompt].

(** The methods [generate_prompt] has a branch for. *)
Definition known_method (method : str) : bool :=
  is_prefix (utf8 "io") method || is_prefix (utf8 "cot") method
  || is_prefix (utf8 "tot") method || is_prefix (utf8 "got") method.

(** A template whose fields are plain names, that has the field
    "requirement_text", and that closes with the answer block of a label. *)
Definition template_ok (tpl : str) : bool :=
  let segs := segments tpl in
  bool_decide (unparse segs = tpl)
  && forallb plain_segment segs
  && bool_decide (Hole (utf8 "requirement_text") ∈ segs)
  && match last segs with
     | Some (Fixed tail) =>
         existsb (fun lbl =>
                    bool_decide (drop (length tail - length (answer_block lbl)) tail
                                 = answer_block lbl))
                 answer_labels
     | _ => false
     end.

(** * Properties *)

(** ** The model on a few inputs *)

Example utf8_label : utf8 "E功：" = [69%N; 21151%N; 65306%N].
Proof. reflexivity. Qed.

(** Every pattern of the source is in the fragment [parse] reads. *)
Example patterns_in_use_parse :
  forallb (fun p => bool_decide (is_Some (parse p.1 (utf8 p.2)))) patterns_in_use = true.
Proof. vm_compute. reflexivity. Qed.

Example split_example : split (utf8 "  a  b c ") = [utf8 "a"; utf8 "b"; utf8 "c"].
Proof. reflexivity. Qed.

Example parse_score_pattern :
  parse false (utf8 "(\d+\.?\d*)") =
  Some {| anchored := false;
          body := Group 1 (Cat (Cat (Chr false [CDigit]) (Star true (Chr false [CDigit])))
                               (Cat (Alt (Lit 46%N) Eps) (Star true (Chr false [CDigit])))) |}.
Proof. reflexivity. Qed.

Example search_score :
  group1 <$> search ascii_tables (compile false "(\d+\.?\d*)") (utf8 "score: 0.95.")
  = Some (utf8 "0.95").
Proof. reflexivity. Qed.

Example sub_parens :
  sub_empty ascii_tables (compile false "\([^)]*\)") (utf8 "a (b) c (d (e) f) g")
  = utf8 "a  c  f) g".
Proof. reflexivity. Qed.

Example split_commas :
  re_split ascii_tables (compile false "[,，、;；]") (utf8 "a, b，c;d")
  = [utf8 "a"; utf8 " b"; utf8 "c"; utf8 "d"].
Proof. reflexivity. Qed.


(** ** The lexical oracle *)

Lemma size_by_list `{Countable A} (X : gset A) (l : list A) :
  NoDup l -> (forall x, x ∈ l <-> x ∈ X) -> size X = length l.
Proof.
  intros Hnd Hl. unfold size, set_size. simpl.
  apply Permutation_length, NoDup_Permutation.
  - apply NoDup_elements.
  - exact Hnd.
  - intros x. rewrite elem_of_elements. symmetry. apply Hl.
Qed.

Lemma of_nat_nonneg (n : nat) : 0 <= of_nat n.
Proof. unfold of_nat, Qle. simpl. lia. Qed.

Lemma of_nat_le (n m : nat) : (n <= m)%nat -> of_nat n <= of_nat m.
Proof. intros H. unfold of_nat, Qle. simpl. lia. Qed.

Lemma of_nat_pos (n : nat) : (0 < n)%nat -> 0 < of_nat n.
Proof. intros H. unfold of_nat, Qlt. simpl. lia. Qed.

Lemma ratio_unit (a b : Q) : 0 <= a -> a <= b -> 0 < b -> 0 <= a / b <= 1.
Proof.
  intros Ha Hab Hb. split.
  - apply Qle_shift_div_l; [assumption | lra].
  - apply Qle_shift_div_r; [assumption | lra].
Qed.

Lemma jaccard_sets (a b : list str) (X Y : gset str) :
  X = list_to_set a -> Y = list_to_set b ->
  (if (0 <? size (X ∪ Y))%nat then of_nat (size (X ∩ Y)) / of_nat (size (X ∪ Y)) else 0)
  = jaccard a b.
Proof.
  intros HX HY. unfold jaccard.
  assert (size (X ∩ Y) = length (remove_dups (List.filter (fun x => mem x b) a))) as ->.
  { apply size_by_list; [apply NoDup_remove_dups|].
    intros x. rewrite elem_of_remove_dups, list_elem_of_In, filter_In, <- list_elem_of_In.
    subst X Y. unfold mem.
    rewrite elem_of_intersection, !elem_of_list_to_set, bool_decide_eq_true.
    reflexivity. }
  assert (size (X ∪ Y) = length (remove_dups (a ++ b))) as ->.
  { apply size_by_list; [apply NoDup_remove_dups|].
    intros x. rewrite elem_of_remove_dups, elem_of_app.
    subst X Y. rewrite elem_of_union, !elem_of_list_to_set. reflexivity. }
  reflexivity.
Qed.

Lemma jaccard_unit (a b : list str) : 0 <= jaccard a b <= 1.
Proof.
  rewrite <- (jaccard_sets a b _ _ eq_refl eq_refl).
  destruct (0 <? _)%nat eqn:Hpos; [|lra].
  apply Nat.ltb_lt in Hpos.
  apply ratio_unit; auto using of_nat_nonneg, of_nat_pos.
  apply of_nat_le, subseteq_size.
  intros x. rewrite elem_of_intersection, elem_of_union. tauto.
Qed.

Lemma list_to_set_empty_nil (l : list str) :
  bool_decide ((list_to_set l : gset str) = ∅) = is_nil l.
Proof.
  destruct l as [|x l]; simpl.
  - apply bool_decide_eq_true. reflexivity.
  - apply bool_decide_eq_false. set_solver.
Qed.

Lemma string_similarity_nonempty (s1 s2 : str) :
  falsy s1 || falsy s2 = false ->
  string_similarity s1 s2 = lexical_oracle_spec s1 s2.
Proof.
  intros Hne. unfold string_similarity, lexical_oracle_spec. rewrite Hne.
  rewrite !list_to_set_empty_nil.
  destruct (is_nil (split s1) || is_nil (split s2)); apply jaccard_sets; reflexivity.
Qed.

Lemma jaccard_nil_l (b : list str) : jaccard [] b == 0.
Proof.
  unfold jaccard. simpl. destruct (0 <? _)%nat; [|reflexivity].
  unfold Qdiv, of_nat. simpl. unfold Qeq. simpl. reflexivity.
Qed.

Lemma jaccard_nil_r (a : list str) : jaccard a [] == 0.
Proof.
  unfold jaccard.
  assert (List.filter (fun x => mem x []) a = []) as ->.
  { induction a as [|x a IH]; simpl; [reflexivity | exact IH]. }
  simpl. destruct (0 <? _)%nat; [|reflexivity].
  unfold Qdiv, of_nat, Qeq. simpl. reflexivity.
Qed.

Lemma string_similarity_spec (s1 s2 : str) :
  string_similarity s1 s2 == lexical_oracle_spec s1 s2.
Proof.
  destruct (falsy s1 || falsy s2) eqn:Hf.
  - unfold string_similarity. rewrite Hf.
    unfold lexical_oracle_spec.
    destruct s1 as [|c1 s1]; [simpl; symmetry; apply jaccard_nil_l|].
    destruct s2 as [|c2 s2]; [|discriminate].
    unfold split at 2. simpl split_from. simpl is_nil. rewrite orb_true_r.
    symmetry. apply jaccard_nil_r.
  - rewrite string_similarity_nonempty by assumption. reflexivity.
Qed.

Lemma string_similarity_unit (s1 s2 : str) :
  0 <= string_similarity s1 s2 <= 1.
Proof.
  rewrite string_similarity_spec. unfold lexical_oracle_spec.
  destruct (is_nil (split s1) || is_nil (split s2)); apply jaccard_unit.
Qed.

(** C8. [_string_similarity] is the token-set Jaccard index of its two
    arguments, the character-set Jaccard index when either has no
    whitespace-delimited token; it is a total function of the two strings
    alone, and its value lies in [0, 1]. *)
Theorem string_similarity_is_jaccard (s1 s2 : str) :
  string_similarity s1 s2 == lexical_oracle_spec s1 s2 /\
  0 <= string_similarity s1 s2 <= 1.
Proof.
  split; [apply string_similarity_spec | apply string_similarity_unit].
Qed.

(** ** The matcher: continuations and repetition *)

Section EngineFacts.
Variable U : unicode_tables.

Lemma star_loop_ext ma ma' greedy (k k' : kont) :
  (forall s cs (h h' : kont), (forall s' cs', h s' cs' = h' s' cs') -> ma s cs h = ma' s cs h') ->
  (forall s cs, k s cs = k' s cs) ->
  forall n s cs, star_loop ma greedy k n s cs = star_loop ma' greedy k' n s cs.
Proof.
  intros Hma Hk n. induction n as [|n IH]; intros s cs; simpl; [apply Hk|].
  rewrite Hk.
  erewrite (Hma s cs); [reflexivity|].
  intros s' cs'. simpl. destruct (_ <? _)%nat; [apply IH | reflexivity].
Qed.

(** Greedy repetition of a one-character class takes the longest run when
    the continuation accepts what follows it. *)
Lemma star_class_greedy neg items (k : kont) n s cs :
  (length s <= n)%nat ->
  is_Some (k (drop_while (chr_ok U neg items) s) cs) ->
  star_loop (rmatch U (Chr neg items)) true k n s cs
  = k (drop_while (chr_ok U neg items) s) cs.
Proof.
  revert s. induction n as [|n IH]; intros s Hlen Hk.
  - destruct s; [reflexivity | simpl in Hlen; lia].
  - destruct s as [|c s]; [reflexivity|].
    cbn [star_loop rmatch drop_while] in *.
    destruct (chr_ok U neg items c) eqn:Hc.
    + replace (length s <? length (c :: s))%nat with true
        by (symmetry; apply Nat.ltb_lt; simpl; lia).
      rewrite IH by (simpl in Hlen; try lia; exact Hk).
      destruct Hk as [x Hx]. rewrite Hx. reflexivity.
    + reflexivity.
Qed.

End EngineFacts.

(** ** Two tables with the same digits *)

Section TablesFacts.
Variables U U' : unicode_tables.
Hypothesis same_digits : forall c, isdecimal U c = isdecimal U' c.

Lemma chr_ok_tables neg items c : chr_ok U neg items c = chr_ok U' neg items c.
Proof.
  unfold chr_ok. f_equal. induction items as [|it items IH]; [reflexivity|].
  cbn [existsb]. rewrite IH. f_equal. destruct it; cbn [citem_mem]; auto.
Qed.

(** The matcher reads the tables through the digits only. *)
Lemma rmatch_tables (r : re) :
  forall s cs (k k' : kont),
    (forall s' cs', k s' cs' = k' s' cs') -> rmatch U r s cs k = rmatch U' r s cs k'.
Proof.
  induction r as [|neg items|a IHa b IHb|a IHa b IHb|g a IHa|i a IHa|p a IHa| |];
    intros s cs k k' Hk; cbn [rmatch].
  - apply Hk.
  - destruct s as [|c s]; [reflexivity|]. rewrite chr_ok_tables.
    destruct (chr_ok U' neg items c); [apply Hk | reflexivity].
  - apply IHa. intros s' cs'. apply IHb, Hk.
  - rewrite (IHa s cs k k' Hk), (IHb s cs k k' Hk). reflexivity.
  - apply star_loop_ext; assumption.
  - apply IHa. intros s' cs'. apply Hk.
  - rewrite (IHa s cs (fun s' cs' => Some (s', cs')) (fun s' cs' => Some (s', cs')))
      by reflexivity.
    destruct (rmatch U' a s cs _) as [[? ?]|]; destruct p; try reflexivity; apply Hk.
  - destruct s as [|c [|d s]]; try reflexivity; [apply Hk|].
    destruct (c =? 10)%N; [apply Hk | reflexivity].
  - destruct s; [apply Hk | reflexivity].
Qed.

Lemma here_tables r s : here U r s = here U' r s.
Proof.
  unfold here, match_here.
  rewrite (rmatch_tables r s [] _ (fun s' cs => Some (s', cs))); reflexivity.
Qed.

Lemma scan_tables r s : scan U r s = scan U' r s.
Proof.
  induction s as [|c s IH]; cbn [scan]; rewrite here_tables; [reflexivity|].
  rewrite IH. reflexivity.
Qed.

Lemma search_tables p s : search U p s = search U' p s.
Proof. unfold search. rewrite here_tables, scan_tables. reflexivity. Qed.

Lemma matches_from_tables fuel p : forall start s,
  matches_from U fuel p start s = matches_from U' fuel p start s.
Proof.
  induction fuel as [|f IH]; intros start s; cbn [matches_from]; [reflexivity|].
  rewrite search_tables.
  destruct (if anchored p && negb start then None else search U' p s) as [m|];
    [|reflexivity].
  destruct (m_text m); [destruct (m_after m)|]; rewrite ?IH; reflexivity.
Qed.

Lemma sub_empty_tables p s : sub_empty U p s = sub_empty U' p s.
Proof. unfold sub_empty, finditer. rewrite matches_from_tables. reflexivity. Qed.

Lemma re_split_tables p s : re_split U p s = re_split U' p s.
Proof. unfold re_split, finditer. rewrite matches_from_tables. reflexivity. Qed.

Lemma findall_tables p s : findall U p s = findall U' p s.
Proof. unfold findall, finditer. rewrite matches_from_tables. reflexivity. Qed.

Lemma clean_eif_name_tables name : clean_eif_name U name = clean_eif_name U' name.
Proof. unfold clean_eif_name. rewrite !sub_empty_tables. reflexivity. Qed.

Lemma map_clean_tables (f : str -> str) (l : list str) :
  map (fun item => clean_eif_name U (f item)) l
  = map (fun item => clean_eif_name U' (f item)) l.
Proof. apply map_ext. intros item. apply clean_eif_name_tables. Qed.

Lemma try_final_pattern_tables text pat :
  try_final_pattern U text pat = try_final_pattern U' text pat.
Proof.
  unfold try_final_pattern. rewrite search_tables.
  destruct (search U' _ text); [|reflexivity].
  rewrite re_split_tables, map_clean_tables. reflexivity.
Qed.

Lemma try_pattern_tables text pat : try_pattern U text pat = try_pattern U' text pat.
Proof.
  unfold try_pattern. rewrite search_tables.
  destruct (search U' _ text); [|reflexivity].
  rewrite re_split_tables, map_clean_tables. reflexivity.
Qed.

Lemma try_numbered_after_title_tables text :
  try_numbered_after_title U text = try_numbered_after_title U' text.
Proof.
  unfold try_numbered_after_title. rewrite search_tables.
  destruct (search U' _ text); [|reflexivity].
  rewrite findall_tables, map_clean_tables. reflexivity.
Qed.

End TablesFacts.

(** ** Reading the similarity score *)

Section ScoreFacts.
Variable U : unicode_tables.

Lemma score_pattern_compiled :
  compile false "(\d+\.?\d*)" = {| anchored := false; body := score_re |}.
Proof. reflexivity. Qed.

Lemma take_drop_while p (s : str) : take_while p s ++ drop_while p s = s.
Proof.
  induction s as [|c s IH]; simpl; [reflexivity|].
  destruct (p c); simpl; [rewrite IH|]; reflexivity.
Qed.

Lemma drop_while_ext p q (s : str) :
  (forall c, p c = q c) -> drop_while p s = drop_while q s.
Proof.
  intros H. induction s as [|c s IH]; simpl; [reflexivity|].
  rewrite H, IH. reflexivity.
Qed.

Lemma digit_class c : chr_ok U false [CDigit] c = isdecimal U c.
Proof. unfold chr_ok. simpl. destruct (isdecimal U c); reflexivity. Qed.

Lemma take_prefix (a b : str) : take (length (a ++ b) - length b) (a ++ b) = a.
Proof.
  rewrite length_app. replace (length a + length b - length b)%nat with (length a) by lia.
  apply take_app_length.
Qed.

(** Greedy digits, with a continuation that always accepts. *)
Lemma star_digits (k : kont) s cs :
  (forall s' cs', is_Some (k s' cs')) ->
  rmatch U (Star true (Chr false [CDigit])) s cs k
  = k (drop_while (isdecimal U) s) cs.
Proof.
  intros Hk.
  change (star_loop (rmatch U (Chr false [CDigit])) true k (length s) s cs
          = k (drop_while (isdecimal U) s) cs).
  rewrite star_class_greedy by (auto; apply Hk).
  f_equal. apply drop_while_ext, digit_class.
Qed.

Lemma orelse_Some {A} (x y : option A) : is_Some x -> orelse x y = x.
Proof. intros [a ->]. reflexivity. Qed.

Lemma fraction_tail (k : kont) s cs :
  (forall s' cs', is_Some (k s' cs')) ->
  rmatch U (Cat (Alt (Lit 46%N) Eps) (Star true (Chr false [CDigit]))) s cs k
  = k (drop_while (isdecimal U) (skip_point s)) cs.
Proof.
  intros Hk.
  change (orelse
            (match s with
             | c :: s' =>
                 if chr_ok U false [CChar 46%N] c
                 then rmatch U (Star true (Chr false [CDigit])) s' cs k else None
             | [] => None
             end)
            (rmatch U (Star true (Chr false [CDigit])) s cs k)
          = k (drop_while (isdecimal U) (skip_point s)) cs).
  destruct s as [|d rest]; [apply star_digits, Hk|].
  assert (chr_ok U false [CChar 46%N] d = (d =? 46)%N) as ->.
  { unfold chr_ok. simpl. destruct (d =? 46)%N; reflexivity. }
  unfold skip_point. destruct (d =? 46)%N.
  - rewrite orelse_Some; rewrite star_digits by exact Hk; [reflexivity | apply Hk].
  - apply star_digits, Hk.
Qed.

Lemma drop_while_head p c (s rest : str) :
  drop_while p s = c :: rest -> p c = false.
Proof.
  induction s as [|x s IH]; simpl; [discriminate|].
  destruct (p x) eqn:Hx; [exact IH|]. intros [= -> _]. exact Hx.
Qed.

Lemma match_here_score (s : str) :
  match_here U score_re s =
  (fun n => (drop (length n) s, [(1%nat, n)])) <$> number_at U s.
Proof.
  unfold match_here, score_re, number_at.
  match goal with |- _ = ?R =>
  change (match s with
          | c :: s' =>
              if chr_ok U false [CDigit] c
              then rmatch U (Star true (Chr false [CDigit])) s' []
                     (fun s1 cs1 =>
                        rmatch U (Cat (Alt (Lit 46%N) Eps) (Star true (Chr false [CDigit])))
                          s1 cs1
                          (fun s2 cs2 =>
                             Some (s2, (1%nat, take (length s - length s2) s) :: cs2)))
              else None
          | [] => None
          end = R) end.
  destruct s as [|c s]; [reflexivity|].
  rewrite digit_class. cbn [take_while drop_while].
  destruct (isdecimal U c) eqn:Hc; [|reflexivity].
  rewrite star_digits by (intros; rewrite fraction_tail; eauto).
  rewrite fraction_tail by eauto.
  pose proof (take_drop_while (isdecimal U) s) as Hsplit.
  destruct (drop_while (isdecimal U) s) as [|d rest] eqn:Hr.
  - cbn [skip_point drop_while fmap option_fmap option_map].
    rewrite app_nil_r in Hsplit. rewrite Hsplit.
    cbn [length]. rewrite Nat.sub_0_r.
    change (S (length s)) with (length (c :: s)).
    rewrite firstn_all, drop_all. reflexivity.
  - cbn [skip_point]. destruct (d =? 46)%N eqn:Hd.
    + pose proof (take_drop_while (isdecimal U) rest) as Hrest.
      cbn [fmap option_fmap option_map]. f_equal.
      assert (c :: s = (c :: take_while (isdecimal U) s ++ d :: take_while (isdecimal U) rest)
                       ++ drop_while (isdecimal U) rest) as Hs.
      { rewrite <- Hsplit at 1. rewrite <- Hrest at 1.
        simpl. rewrite <- app_assoc. reflexivity. }
      set (full := c :: s) in *. rewrite Hs. clearbody full.
      rewrite take_prefix. simpl app at 2. rewrite drop_app_length. reflexivity.
    + assert (drop_while (isdecimal U) (d :: rest) = d :: rest) as ->.
      { simpl. rewrite (drop_while_head _ _ _ _ Hr). reflexivity. }
      cbn [fmap option_fmap option_map]. f_equal.
      assert (c :: s = (c :: take_while (isdecimal U) s) ++ d :: rest) as Hs.
      { rewrite <- Hsplit at 1. reflexivity. }
      set (full := c :: s) in *. rewrite Hs. clearbody full.
      rewrite take_prefix, drop_app_length. reflexivity.
Qed.

Lemma here_score (s : str) :
  here U score_re s =
  (fun n => {| m_before := []; m_text := n; m_groups := [(1%nat, n)];
               m_after := drop (length n) s |}) <$> number_at U s.
Proof.
  unfold here. pose proof (match_here_score s) as H.
  destruct (number_at U s) as [n|] eqn:Hn; simpl in H; rewrite H; simpl; [|reflexivity].
  unfold number_at in Hn.
  pose proof (take_drop_while (isdecimal U) s) as Hs.
  destruct (take_while (isdecimal U) s) as [|c ip] eqn:Hip; [discriminate|].
  assert (exists tl, s = n ++ tl) as [tl ->].
  { destruct (drop_while (isdecimal U) s) as [|d rest] eqn:Hr.
    - injection Hn as <-. exists []. symmetry. exact Hs.
    - pose proof (take_drop_while (isdecimal U) rest) as Hrest.
      destruct (d =? 46)%N; injection Hn as <-.
      + exists (drop_while (isdecimal U) rest).
        rewrite <- Hs, <- Hrest at 1. simpl. rewrite <- app_assoc. reflexivity.
      + exists (d :: rest). symmetry. exact Hs. }
  rewrite drop_app_length.
  replace (length (n ++ tl) - length tl)%nat with (length n) by (rewrite length_app; lia).
  rewrite take_app_length. reflexivity.
Qed.

(** The search for the score pattern finds the first decimal number. *)
Lemma search_score_first_number (s : str) :
  group1 <$> search U (compile false "(\d+\.?\d*)") s = first_number U s.
Proof.
  rewrite score_pattern_compiled. unfold search. cbn [anchored body].
  induction s as [|c s IH]; cbn [scan first_number]; rewrite here_score.
  - destruct (number_at U []); reflexivity.
  - destruct (number_at U (c :: s)); [reflexivity|].
    cbn [fmap option_fmap option_map]. rewrite <- IH.
    destruct (scan U score_re s); reflexivity.
Qed.

End ScoreFacts.

(** ** The semantic oracle *)

Section SemanticOracle.
Variable U : unicode_tables.
Variables World Response : Type.

Lemma Qltb_lt (a b : Q) : Qltb a b = true <-> a < b.
Proof.
  unfold Qltb. rewrite negb_true_iff. split.
  - intros H. apply Qnot_le_lt. intros Hle. apply Qle_bool_iff in Hle. congruence.
  - intros H. destruct (Qle_bool b a) eqn:E; [|reflexivity].
    apply Qle_bool_iff in E. lra.
Qed.

Lemma Qltb_ge (a b : Q) : Qltb a b = false <-> b <= a.
Proof.
  unfold Qltb. rewrite negb_false_iff. apply Qle_bool_iff.
Qed.

Lemma clamp_unit (x : Q) : 0 <= clamp x <= 1.
Proof.
  unfold clamp, py_max, py_min.
  destruct (Qltb x 1) eqn:H1.
  - apply Qltb_lt in H1. destruct (Qltb 0 x) eqn:H0.
    + apply Qltb_lt in H0. lra.
    + lra.
  - destruct (Qltb 0 1) eqn:H0; [lra|]. apply Qltb_ge in H0. lra.
Qed.

Lemma oracle_score_unit name1 name2 answer : 0 <= oracle_score U name1 name2 answer <= 1.
Proof.
  unfold oracle_score.
  destruct answer as [text|]; [destruct (first_number U (strip text))|];
    first [apply clamp_unit | apply string_similarity_unit].
Qed.

End SemanticOracle.

Section SemanticOracleTotal.
Variable U : unicode_tables.
Variables World Response : Type.

(** [check_eif_semantic_similarity] returns a score in
    [0, 1], which is the first decimal number of the model's first response
    text, clamped to [0, 1], and the string similarity of the same two
    names when the query or the extraction of the texts raises, when there
    is no text, or when the text holds no decimal number (also when the
    model is absent or not to be used). *)
Lemma check_eif_semantic_similarity_spec
    (name1 name2 : str) (lm : option (language_model World Response))
    (use_lm : bool) (w : World) :
  exists score w',
    check_eif_semantic_similarity U name1 name2 lm use_lm w = (Ok score, w') /\
    0 <= score <= 1 /\
    (score, w') =
      match lm with
      | Some lm' =>
          if use_lm
          then let '(answer, w1) := model_answer lm' (similarity_prompt name1 name2) w in
               (oracle_score U name1 name2 answer, w1)
          else (string_similarity name1 name2, w)
      | None => (string_similarity name1 name2, w)
      end.
Proof.
  destruct lm as [lm'|]; [destruct use_lm|].
  2,3: eexists _, _; split; [reflexivity|]; split;
         [apply string_similarity_unit | reflexivity].
  unfold check_eif_semantic_similarity, model_answer, bind, try_except, ret.
  cbn [negb].
  destruct (query lm' (similarity_prompt name1 name2) 1%nat w) as [[r|e] w1].
  2:{ eexists _, _. split; [reflexivity|]. split; [|reflexivity].
      apply string_similarity_unit. }
  destruct (get_response_texts lm' r w1) as [[[|text texts]|e] w2].
  1,3: eexists _, _; (split; [reflexivity|]); split;
         [apply string_similarity_unit | reflexivity].
  pose proof (search_score_first_number U (strip text)) as Hfirst.
  unfold oracle_score.
  destruct (search U (compile false "(\d+\.?\d*)") (strip text)) as [m|];
    cbn [fmap option_fmap option_map] in Hfirst; rewrite <- Hfirst.
  - eexists _, _. split; [reflexivity|]. split; [apply clamp_unit | reflexivity].
  - eexists _, _. split; [reflexivity|]. split; [|reflexivity].
    apply string_similarity_unit.
Qed.

(** C6. [check_eif_semantic_similarity] never raises: it returns a score in
    [0, 1], which is the first decimal number of the model's first response
    text, clamped to [0, 1], and the string similarity of the same two
    names when the query or the extraction of the texts raises, when there
    is no text, or when the text holds no decimal number (also when the
    model is absent or not to be used). *)
Theorem check_eif_semantic_similarity_never_raises
    (name1 name2 : str) (lm : option (language_model World Response))
    (use_lm : bool) (w : World) :
  exists score w',
    check_eif_semantic_similarity U name1 name2 lm use_lm w = (Ok score, w') /\
    0 <= score <= 1 /\
    (score, w') =
      match lm with
      | Some lm' =>
          if use_lm
          then let '(answer, w1) := model_answer lm' (similarity_prompt name1 name2) w in
               (oracle_score U name1 name2 answer, w1)
          else (string_similarity name1 name2, w)
      | None => (string_similarity name1 name2, w)
      end.
Proof. apply check_eif_semantic_similarity_spec. Qed.

End SemanticOracleTotal.

(** ** The matching loop *)

Lemma of_nat_S (n : nat) : of_nat (S n) == of_nat n + 1.
Proof. unfold of_nat, Qeq, Qplus. simpl. lia. Qed.

Lemma total_score_snoc ds d : total_score (ds ++ [d]) == total_score ds + md_score d.
Proof. induction ds as [|x ds IH]; simpl; [|rewrite IH]; ring. Qed.

Lemma total_score_bound ds :
  Forall (fun d => 0 <= md_score d <= 1) ds ->
  0 <= total_score ds <= of_nat (length ds).
Proof.
  induction 1 as [|d ds Hd _ IH]; simpl total_score; cbn [length].
  - change (of_nat 0) with 0. lra.
  - rewrite of_nat_S. lra.
Qed.

Section MatcherFacts.
Variable U : unicode_tables.
Variables World Response : Type.
Variable lm : option (language_model World Response).
Variable use_lm_semantic : bool.

Lemma similarity_ok pn po tn to w :
  exists x w',
    (if use_lm_semantic && bool_decide (is_Some lm)
     then check_eif_semantic_similarity U po to lm true
     else ret (string_similarity pn tn)) w = (Ok x, w') /\ 0 <= x <= 1.
Proof.
  destruct (use_lm_semantic && bool_decide (is_Some lm)).
  - destruct (check_eif_semantic_similarity_spec U World Response po to lm true w)
      as (x & w' & Hrun & Hx & _).
    eauto.
  - eexists _, _. split; [reflexivity | apply string_similarity_unit].
Qed.

Lemma scan_truth_ok pn po matched ut0 :
  forall ut b w,
    (forall p, p ∈ ut -> p ∈ ut0) ->
    good_best matched ut0 b ->
    exists b' w',
      scan_truth U lm use_lm_semantic pn po matched ut b w = (Ok b', w') /\
      good_best matched ut0 b'.
Proof.
  induction ut as [|[tn to] ut IH]; intros b w Hin Hb; cbn [scan_truth].
  - eexists _, _. split; [reflexivity | exact Hb].
  - assert (forall p, p ∈ ut -> p ∈ ut0) as Hin' by (intros p Hp; apply Hin; right; exact Hp).
    destruct (bool_decide (to ∈ matched)) eqn:Hm; [apply IH; assumption|].
    apply bool_decide_eq_false in Hm.
    unfold bind.
    destruct (similarity_ok pn po tn to w) as (x & w1 & -> & Hx).
    apply IH; [exact Hin'|].
    destruct (Qltb (max_similarity b) x); [|exact Hb].
    split; [exact Hx|]. cbn. split; [apply Hin; left | exact Hm].
Qed.

Lemma accept_ok ut po b st :
  loop_inv ut st ->
  good_best (ls_matched_truth st) ut b ->
  loop_inv ut (accept po b st) /\
  exists new,
    ls_match_details (accept po b st) = ls_match_details st ++ new /\
    sublist (md_pred <$> new) [po].
Proof.
  intros (Hset & Hnd & Hall & Hsum) ((Hlo & Hhi) & Hbest).
  unfold accept.
  destruct (best_match b) as [tn|], (best_match_orig b) as [to|];
    try (split; [repeat split; assumption | exists []; rewrite app_nil_r; split;
                 [reflexivity | apply sublist_nil_l]]).
  destruct Hbest as [Hin Hfresh].
  destruct (Qltb (7 # 10) (max_similarity b) && negb (falsy tn)) eqn:Hacc.
  2:{ split; [repeat split; assumption|]. exists []. rewrite app_nil_r.
      split; [reflexivity | apply sublist_nil_l]. }
  apply andb_true_iff in Hacc as [Hthr Hne]. apply Qltb_lt in Hthr.
  split.
  - unfold loop_inv. cbn [ls_matched_truth ls_match_details ls_fuzzy_score].
    rewrite fmap_app. cbn [fmap list_fmap md_truth].
    repeat split.
    + rewrite Hset, list_to_set_app_L. cbn [list_to_set].
      rewrite union_empty_r_L. reflexivity.
    + apply NoDup_app. repeat split; [exact Hnd| |apply NoDup_singleton].
      intros x Hx Hx'. apply list_elem_of_singleton in Hx'. subst x.
      apply Hfresh. rewrite Hset. apply elem_of_list_to_set. exact Hx.
    + apply Forall_app. split; [exact Hall|]. constructor; [|constructor].
      cbn. repeat split; [|exact Hthr|exact Hhi].
      exists tn. split; [exact Hin|]. destruct tn; [discriminate|discriminate].
    + rewrite total_score_snoc, Hsum. reflexivity.
  - eexists [_]. split; [reflexivity|]. cbn. reflexivity.
Qed.

Lemma match_loop_ok ut :
  forall up st w,
    loop_inv ut st ->
    exists st' w' new,
      match_loop U lm use_lm_semantic up ut st w = (Ok st', w') /\
      loop_inv ut st' /\
      ls_match_details st' = ls_match_details st ++ new /\
      sublist (md_pred <$> new) (up.*2).
Proof.
  induction up as [|[pn po] up IH]; intros st w Hinv; cbn [match_loop].
  - exists st, w, []. rewrite app_nil_r. repeat split; try assumption; try apply Hinv.
    apply sublist_nil_l.
  - unfold bind.
    destruct (scan_truth_ok pn po (ls_matched_truth st) ut ut
                {| max_similarity := 0; best_match := None; best_match_orig := None |} w)
      as (b & w1 & -> & Hb).
    { auto. }
    { split; [simpl; lra | exact I]. }
    destruct (accept_ok ut po b st Hinv Hb) as (Hinv' & new1 & Hnew1 & Hsub1).
    destruct (IH (accept po b st) w1 Hinv') as (st' & w' & new2 & Hrun & Hinv'' & Hnew2 & Hsub2).
    exists st', w', (new1 ++ new2). repeat split; try apply Hinv''; [exact Hrun| |].
    + rewrite Hnew2, Hnew1, app_assoc. reflexivity.
    + rewrite fmap_app. cbn [fmap list_fmap snd].
      change (po :: up.*2) with ([po] ++ up.*2). apply sublist_app; assumption.
Qed.

End MatcherFacts.

(** ** Counting the matches *)

Section Counting.
Context {A : Type} (f : A -> str).

Lemma left_over_cons x l other :
  left_over f (x :: l) other =
  if decide (f x ∉ other) then (f x, x) :: left_over f l other else left_over f l other.
Proof. unfold left_over. cbn [map zip zip_with]. rewrite filter_cons. reflexivity. Qed.

Lemma left_over_elem l other k x :
  (k, x) ∈ left_over f l other -> k = f x /\ (k ∉ other) /\ (x ∈ l).
Proof.
  induction l as [|y l IH]; [intros H; inversion H|].
  rewrite left_over_cons. destruct (decide (f y ∉ other)) as [Hy|Hy].
  - intros H. apply elem_of_cons in H as [[= -> ->]|H].
    + repeat split; [exact Hy | left].
    + destruct (IH H) as (? & ? & ?). repeat split; [assumption..|right; assumption].
  - intros H. destruct (IH H) as (? & ? & ?). repeat split; [assumption..|right; assumption].
Qed.

Lemma left_over_sublist l other : sublist ((left_over f l other).*2) l.
Proof.
  induction l as [|y l IH]; [constructor|].
  rewrite left_over_cons. destruct (decide (f y ∉ other)).
  - cbn. constructor. exact IH.
  - constructor. exact IH.
Qed.

(** The distinct keys shared with [other] and the items left over do not
    outnumber the items. *)
Lemma shared_and_left_over l other :
  (size ((list_to_set (map f l) : gset str) ∩ other) + length (left_over f l other)
   <= length l)%nat.
Proof.
  induction l as [|y l IH].
  - cbn. rewrite intersection_empty_l_L, size_empty. lia.
  - rewrite left_over_cons. cbn [map list_to_set length].
    destruct (decide (f y ∉ other)) as [Hy|Hy].
    + assert (({[f y]} ∪ list_to_set (map f l)) ∩ other
              = (list_to_set (map f l) : gset str) ∩ other) as ->.
      { apply leibniz_equiv. intros x. rewrite !elem_of_intersection, elem_of_union,
          elem_of_singleton. split; [|tauto]. intros [[->|?] ?]; tauto. }
      cbn [length]. lia.
    + assert (size (({[f y]} ∪ list_to_set (map f l)) ∩ other)
              <= S (size ((list_to_set (map f l) : gset str) ∩ other)))%nat.
      { transitivity (size ({[f y]} ∪ (list_to_set (map f l) : gset str) ∩ other)).
        - apply subseteq_size. intros x.
          rewrite elem_of_union, !elem_of_intersection, elem_of_union. tauto.
        - rewrite size_union_alt, size_singleton.
          pose proof (subseteq_size
                        ((list_to_set (map f l) ∩ other) ∖ {[f y]})
                        ((list_to_set (map f l) : gset str) ∩ other)) as Hle.
          assert (size ((list_to_set (map f l) ∩ other) ∖ {[f y]})
                  <= size ((list_to_set (map f l) : gset str) ∩ other))%nat.
          { apply Hle. intros x. rewrite elem_of_difference. tauto. }
          lia. }
      lia.
Qed.

End Counting.

Lemma nodup_within {A B} (g : A -> B) (ds : list A) (l : list B) :
  NoDup (g <$> ds) -> (forall d, d ∈ ds -> g d ∈ l) -> (length ds <= length l)%nat.
Proof.
  intros Hnd Hin. rewrite <- (length_fmap g ds).
  apply submseteq_length, NoDup_submseteq; [exact Hnd|].
  intros x Hx. apply list_elem_of_fmap in Hx as (d & -> & Hd). apply Hin, Hd.
Qed.

Lemma f1_unit (p r : Q) :
  0 <= p <= 1 -> 0 <= r <= 1 ->
  0 <= (if Qeq_bool (p + r) 0 then 0 else 2 * (p * r) / (p + r)) <= 1.
Proof.
  intros Hp Hr. destruct (Qeq_bool (p + r) 0) eqn:Hz; [lra|].
  apply Qeq_bool_neq in Hz.
  assert (0 < p + r) as Hpos.
  { destruct (Qlt_le_dec 0 (p + r)) as [H|H]; [exact H|].
    exfalso. apply Hz. lra. }
  split.
  - apply Qle_shift_div_l; [exact Hpos|]. nra.
  - apply Qle_shift_div_r; [exact Hpos|]. nra.
Qed.

(** ** The report *)

Section ReportFacts.
Variable U : unicode_tables.
Variables World Response : Type.
Variable lm : option (language_model World Response).
Variable use_lm_semantic : bool.

Abbreviation norm := (normalize_eif_name U).
Abbreviation run := (calculate_eif_similarity U lm use_lm_semantic).

(** What a call on two non-empty lists computes, in terms of the final
    state of the matching loop. *)
Lemma calculate_nonempty predicted ground_truth w :
  predicted <> [] -> ground_truth <> [] ->
  exists st w',
    loop_inv (left_over norm ground_truth (name_set U predicted)) st /\
    sublist (md_pred <$> ls_match_details st)
            ((left_over norm predicted (name_set U ground_truth)).*2) /\
    let total :=
      of_nat (size (name_set U predicted ∩ name_set U ground_truth)) + ls_fuzzy_score st in
    let p := total / of_nat (length predicted) in
    let r := total / of_nat (length ground_truth) in
    run predicted ground_truth w =
    (Ok {| f1_score := if Qeq_bool (p + r) 0 then 0 else 2 * (p * r) / (p + r);
           precision := p; recall := r;
           exact_matches := size (name_set U predicted ∩ name_set U ground_truth);
           fuzzy_score := ls_fuzzy_score st;
           semantic_matches := ls_match_details st |}, w').
Proof.
  intros Hp Ht.
  destruct predicted as [|p0 ps]; [congruence|].
  destruct ground_truth as [|t0 ts]; [congruence|].
  unfold calculate_eif_similarity. cbn [is_nil andb orb]. unfold bind.
  fold (name_set U (p0 :: ps)). fold (name_set U (t0 :: ts)).
  fold (left_over norm (p0 :: ps) (name_set U (t0 :: ts))).
  fold (left_over norm (t0 :: ts) (name_set U (p0 :: ps))).
  destruct (match_loop_ok U World Response lm use_lm_semantic
              (left_over norm (t0 :: ts) (name_set U (p0 :: ps)))
              (left_over norm (p0 :: ps) (name_set U (t0 :: ts)))
              {| ls_fuzzy_score := 0; ls_matched_truth := ∅; ls_match_details := [] |} w)
    as (st & w' & new & Hrun & Hinv & Hnew & Hsub).
  { split; [reflexivity|]. split; [apply NoDup_nil_2|].
    split; [constructor | reflexivity]. }
  cbn [ls_match_details app] in Hnew. subst new.
  exists st, w'. split; [exact Hinv|]. split; [exact Hsub|].
  cbv zeta. rewrite Hrun. reflexivity.
Qed.

(** The bounds the loop invariant gives on the two ratios. *)
Lemma totals_bounded predicted ground_truth st :
  loop_inv (left_over norm ground_truth (name_set U predicted)) st ->
  sublist (md_pred <$> ls_match_details st)
          ((left_over norm predicted (name_set U ground_truth)).*2) ->
  let total :=
    of_nat (size (name_set U predicted ∩ name_set U ground_truth)) + ls_fuzzy_score st in
  0 <= total /\ total <= of_nat (length predicted) /\ total <= of_nat (length ground_truth).
Proof.
  intros (Hset & Hnd & Hall & Hsum) Hsub total.
  assert (Forall (fun d => 0 <= md_score d <= 1) (ls_match_details st)) as Hscores.
  { eapply Forall_impl; [exact Hall|]. cbn. intros d (_ & Hlo & Hhi). lra. }
  apply total_score_bound in Hscores. rewrite <- Hsum in Hscores.
  pose proof (of_nat_nonneg (size (name_set U predicted ∩ name_set U ground_truth))) as Hex.
  assert (length (ls_match_details st)
          <= length (left_over norm predicted (name_set U ground_truth)))%nat as Hlen_p.
  { apply sublist_length in Hsub. rewrite !length_fmap in Hsub. exact Hsub. }
  assert (length (ls_match_details st)
          <= length (left_over norm ground_truth (name_set U predicted)))%nat as Hlen_t.
  { rewrite <- (length_fmap snd (left_over norm ground_truth (name_set U predicted))).
    apply (nodup_within md_truth); [exact Hnd|].
    intros d Hd. rewrite Forall_forall in Hall.
    destruct (Hall d Hd) as ((tn & Hin & _) & _).
    apply list_elem_of_fmap. exists (tn, md_truth d). split; [reflexivity | exact Hin]. }
  pose proof (shared_and_left_over norm predicted (name_set U ground_truth)) as Hcp.
  pose proof (shared_and_left_over norm ground_truth (name_set U predicted)) as Hct.
  fold (name_set U predicted) in Hcp. fold (name_set U ground_truth) in Hct.
  rewrite (intersection_comm_L (name_set U ground_truth)) in Hct.
  set (e := size (name_set U predicted ∩ name_set U ground_truth)) in *.
  set (k := length (ls_match_details st)) in *.
  assert (of_nat e + of_nat k <= of_nat (length predicted)) as Hp.
  { unfold of_nat, Qle, Qplus. simpl. lia. }
  assert (of_nat e + of_nat k <= of_nat (length ground_truth)) as Ht.
  { unfold of_nat, Qle, Qplus. simpl. lia. }
  unfold total. repeat split; lra.
Qed.

End ReportFacts.

Section Report.
Variable U : unicode_tables.
Variables World Response : Type.
Variable lm : option (language_model World Response).
Variable use_lm_semantic : bool.

Abbreviation norm := (normalize_eif_name U).
Abbreviation run := (calculate_eif_similarity U lm use_lm_semantic).

Lemma empty_state_inv ut : loop_inv ut empty_state.
Proof.
  split; [reflexivity|]. split; [apply NoDup_nil_2|]. split; [constructor | reflexivity].
Qed.

(** Every call returns a report, whose counts and matches come from a
    state that satisfies the loop invariant. *)
Lemma calculate_summary predicted ground_truth w :
  exists rep w' st,
    run predicted ground_truth w = (Ok rep, w') /\
    loop_inv (left_over norm ground_truth (name_set U predicted)) st /\
    sublist (md_pred <$> ls_match_details st)
            ((left_over norm predicted (name_set U ground_truth)).*2) /\
    semantic_matches rep = ls_match_details st /\
    fuzzy_score rep = ls_fuzzy_score st /\
    exact_matches rep = size (name_set U predicted ∩ name_set U ground_truth).
Proof.
  assert (name_set U [] = ∅) as Hnil by reflexivity.
  destruct predicted as [|p0 ps].
  { destruct ground_truth as [|t0 ts]; eexists _, w, empty_state;
      (split; [reflexivity|]); (split; [apply empty_state_inv|]);
      (split; [apply sublist_nil_l|]); (split; [reflexivity|]); (split; [reflexivity|]);
      rewrite Hnil, intersection_empty_l_L, size_empty; reflexivity. }
  destruct ground_truth as [|t0 ts].
  { eexists _, w, empty_state.
    split; [reflexivity|]. split; [apply empty_state_inv|].
    split; [apply sublist_nil_l|]. split; [reflexivity|]. split; [reflexivity|].
    rewrite Hnil, intersection_empty_r_L, size_empty. reflexivity. }
  destruct (calculate_nonempty U World Response lm use_lm_semantic
              (p0 :: ps) (t0 :: ts) w) as (st & w' & Hinv & Hsub & Hrun);
    [discriminate..|].
  cbv zeta in Hrun. eexists _, w', st. split; [exact Hrun|].
  split; [exact Hinv|]. split; [exact Hsub|]. repeat split.
Qed.

(** C1. Every report has its precision, recall and F1 in [0, 1]; on two
    non-empty lists, with [total = exact_matches + fuzzy_score], precision
    is [total / len(predicted)], recall is [total / len(ground_truth)], and
    F1 is [2pr / (p + r)] when [p + r > 0] and 0 otherwise. *)
Theorem report_ratios_in_unit_interval (predicted ground_truth : list str) (w : World) :
  exists rep w',
    calculate_eif_similarity U lm use_lm_semantic predicted ground_truth w = (Ok rep, w') /\
    0 <= precision rep <= 1 /\ 0 <= recall rep <= 1 /\ 0 <= f1_score rep <= 1 /\
    (predicted <> [] -> ground_truth <> [] ->
     let total := of_nat (exact_matches rep) + fuzzy_score rep in
     precision rep = total / of_nat (length predicted) /\
     recall rep = total / of_nat (length ground_truth) /\
     (0 < precision rep + recall rep ->
      f1_score rep = 2 * (precision rep * recall rep) / (precision rep + recall rep)) /\
     (~ 0 < precision rep + recall rep -> f1_score rep = 0)).
Proof.
  destruct predicted as [|p0 ps].
  { destruct ground_truth as [|t0 ts]; eexists _, w; (split; [reflexivity|]);
      cbn [precision recall f1_score]; repeat split; try lra; congruence. }
  destruct ground_truth as [|t0 ts].
  { eexists _, w. split; [reflexivity|].
    cbn [precision recall f1_score]. repeat split; try lra; congruence. }
  destruct (calculate_nonempty U World Response lm use_lm_semantic
              (p0 :: ps) (t0 :: ts) w) as (st & w' & Hinv & Hsub & Hrun);
    [discriminate..|].
  destruct (totals_bounded U (p0 :: ps) (t0 :: ts) st Hinv Hsub) as (H0 & Hp & Ht).
  cbv zeta in Hrun, H0, Hp, Ht.
  set (total := of_nat (size (name_set U (p0 :: ps) ∩ name_set U (t0 :: ts)))
                + ls_fuzzy_score st) in *.
  assert (0 <= total / of_nat (length (p0 :: ps)) <= 1) as Hprec.
  { apply ratio_unit; [exact H0 | exact Hp | apply of_nat_pos; simpl; lia]. }
  assert (0 <= total / of_nat (length (t0 :: ts)) <= 1) as Hrec.
  { apply ratio_unit; [exact H0 | exact Ht | apply of_nat_pos; simpl; lia]. }
  eexists _, w'. split; [exact Hrun|].
  cbn [precision recall f1_score exact_matches fuzzy_score].
  split; [exact Hprec|]. split; [exact Hrec|].
  split; [apply f1_unit; assumption|].
  intros _ _. cbv zeta. fold total.
  split; [reflexivity|]. split; [reflexivity|].
  set (p := total / of_nat (length (p0 :: ps))) in *.
  set (r := total / of_nat (length (t0 :: ts))) in *.
  destruct (Qeq_bool (p + r) 0) eqn:Hz.
  - apply Qeq_bool_iff in Hz. split; [intros Hpos; lra | reflexivity].
  - apply Qeq_bool_neq in Hz. split; [reflexivity|].
    intros Hnpos. exfalso. apply Hz.
    destruct (Qlt_le_dec 0 (p + r)); [contradiction | lra].
Qed.

(** C2. On two empty lists the report has precision, recall and F1 equal to
    1, no exact match and a fuzzy score of 0; when exactly one list is empty
    the three ratios are 0. *)
Theorem empty_lists_report (w : World) :
  calculate_eif_similarity U lm use_lm_semantic [] [] w =
    (Ok {| f1_score := 1; precision := 1; recall := 1; exact_matches := 0;
           fuzzy_score := 0; semantic_matches := [] |}, w) /\
  (forall p ps,
     calculate_eif_similarity U lm use_lm_semantic (p :: ps) [] w =
       (Ok {| f1_score := 0; precision := 0; recall := 0; exact_matches := 0;
              fuzzy_score := 0; semantic_matches := [] |}, w)) /\
  (forall t ts,
     calculate_eif_similarity U lm use_lm_semantic [] (t :: ts) w =
       (Ok {| f1_score := 0; precision := 0; recall := 0; exact_matches := 0;
              fuzzy_score := 0; semantic_matches := [] |}, w)).
Proof. repeat split. Qed.

(** C4. In the matches of a report no ground-truth name occurs twice, every
    matched ground-truth name is an item of the ground truth whose
    normalized form no predicted item has (an exact match is never claimed
    again), and the predicted names of the matches form a subsequence of
    the predicted list: each predicted item gives at most one match. *)
Theorem matches_claim_each_item_once (predicted ground_truth : list str) (w : World) :
  exists rep w',
    calculate_eif_similarity U lm use_lm_semantic predicted ground_truth w = (Ok rep, w') /\
    NoDup (md_truth <$> semantic_matches rep) /\
    (forall m, m ∈ semantic_matches rep ->
       md_truth m ∈ ground_truth /\
       normalize_eif_name U (md_truth m) ∉ map (normalize_eif_name U) predicted) /\
    sublist (md_pred <$> semantic_matches rep) predicted.
Proof.
  destruct (calculate_summary predicted ground_truth w)
    as (rep & w' & st & Hrun & (Hset & Hnd & Hall & Hsum) & Hsub & Hm & _ & _).
  exists rep, w'. split; [exact Hrun|]. rewrite Hm.
  split; [exact Hnd|]. split.
  - intros m Hin. rewrite Forall_forall in Hall.
    destruct (Hall m Hin) as ((tn & Htn & _) & _).
    apply left_over_elem in Htn as (-> & Hfresh & Hgt).
    split; [exact Hgt|]. intros Hbad. apply Hfresh.
    unfold name_set. apply elem_of_list_to_set. exact Hbad.
  - etransitivity; [exact Hsub | apply left_over_sublist].
Qed.

(** C9. No match of a report has a ground-truth name whose normalized form
    is empty; the acceptance step leaves the state unchanged when the best
    match is the empty string, whatever its score; and [_string_similarity]
    is 0 as soon as one argument is empty, also for two empty strings. *)
Theorem empty_normal_form_is_never_matched (predicted ground_truth : list str) (w : World) :
  (exists rep w',
     calculate_eif_similarity U lm use_lm_semantic predicted ground_truth w = (Ok rep, w') /\
     forall m, m ∈ semantic_matches rep -> normalize_eif_name U (md_truth m) <> []) /\
  (forall pred_orig b st, best_match b = Some [] -> accept pred_orig b st = st) /\
  (forall s, string_similarity [] s = 0 /\ string_similarity s [] = 0).
Proof.
  split; [|split].
  - destruct (calculate_summary predicted ground_truth w)
      as (rep & w' & st & Hrun & (Hset & Hnd & Hall & Hsum) & Hsub & Hm & _ & _).
    exists rep, w'. split; [exact Hrun|]. rewrite Hm.
    intros m Hin. rewrite Forall_forall in Hall.
    destruct (Hall m Hin) as ((tn & Htn & Hne) & _).
    apply left_over_elem in Htn as (-> & _ & _). exact Hne.
  - intros pred_orig b st Hb. unfold accept. rewrite Hb.
    destruct (best_match_orig b); [|reflexivity].
    cbn [falsy negb]. rewrite andb_false_r. reflexivity.
  - intros s. split; [reflexivity|].
    unfold string_similarity. cbn [falsy]. rewrite orb_true_r. reflexivity.
Qed.

(** C10. The number of exact matches is the number of distinct normalized
    forms the two lists share, and no match of the fuzzy stage involves a
    predicted or ground-truth item whose normalized form occurs among the
    normalized forms of the other list.  Three predicted and two
    ground-truth entries with one normalized form count as one exact
    match. *)
Theorem exact_matches_count_shared_forms (predicted ground_truth : list str) (w : World) :
  (exists rep w',
     calculate_eif_similarity U lm use_lm_semantic predicted ground_truth w = (Ok rep, w') /\
     exact_matches rep = length (shared_forms U predicted ground_truth) /\
     NoDup (shared_forms U predicted ground_truth) /\
     forall m, m ∈ semantic_matches rep ->
       (normalize_eif_name U (md_pred m) ∉ map (normalize_eif_name U) ground_truth) /\
       (normalize_eif_name U (md_truth m) ∉ map (normalize_eif_name U) predicted)) /\
  exact_matches <$> returned
    (calculate_eif_similarity ascii_tables (@None (language_model unit unit)) false
       [utf8 "Customer Master"; utf8 "customer  master"; utf8 "CUSTOMER MASTER (old)"]
       [utf8 "Customer Master"; utf8 "Customer Master"] tt)
  = Some 1%nat.
Proof.
  split; [|vm_compute; reflexivity].
  destruct (calculate_summary predicted ground_truth w)
    as (rep & w' & st & Hrun & (Hset & Hnd & Hall & Hsum) & Hsub & Hm & _ & Hex).
  exists rep, w'. split; [exact Hrun|]. split; [|split].
  - rewrite Hex. apply size_by_list; [apply NoDup_remove_dups|].
    intros x. unfold shared_forms, name_set, mem.
    rewrite elem_of_remove_dups, list_elem_of_In, filter_In, <- list_elem_of_In.
    rewrite elem_of_intersection, !elem_of_list_to_set, bool_decide_eq_true.
    reflexivity.
  - apply NoDup_remove_dups.
  - rewrite Hm. intros m Hin. split.
    + assert (md_pred m ∈ (left_over norm predicted (name_set U ground_truth)).*2) as Hp.
      { eapply elem_of_sublist; [|exact Hsub]. apply list_elem_of_fmap_2, Hin. }
      apply list_elem_of_fmap in Hp as ([pn po] & -> & Hp).
      apply left_over_elem in Hp as (-> & Hfresh & _).
      intros Hbad. apply Hfresh. apply elem_of_list_to_set. exact Hbad.
    + rewrite Forall_forall in Hall.
      destruct (Hall m Hin) as ((tn & Htn & _) & _).
      apply left_over_elem in Htn as (-> & Hfresh & _).
      intros Hbad. apply Hfresh. apply elem_of_list_to_set. exact Hbad.
Qed.

End Report.

(** ** The acceptance threshold *)

Lemma Qeq_bool_neq' (a b : Q) : Qeq_bool a b = false -> ~ a == b.
Proof. intros H Heq. apply Qeq_bool_iff in Heq. congruence. Qed.

Ltac order_facts :=
  repeat match goal with
         | H : Qltb _ _ = true |- _ => apply Qltb_lt in H
         | H : Qltb _ _ = false |- _ => apply Qltb_ge in H
         | H : Qeq_bool _ _ = true |- _ => apply Qeq_bool_iff in H
         | H : Qeq_bool _ _ = false |- _ => apply Qeq_bool_neq' in H
         end.

Lemma greatest_reached {A} (cands : list (A * Q)) :
  greatest cands == 0 \/ exists c, c ∈ cands /\ c.2 == greatest cands.
Proof.
  induction cands as [|x l IH]; [left; reflexivity|].
  change (greatest (x :: l)) with (if Qltb (greatest l) x.2 then x.2 else greatest l).
  destruct (Qltb (greatest l) x.2).
  - right. exists x. split; [left | reflexivity].
  - destruct IH as [IH|(c & Hc & Heq)]; [left; exact IH|].
    right. exists c. split; [right; exact Hc | exact Heq].
Qed.

Lemma Qltb_true (a b : Q) : a < b -> Qltb a b = true.
Proof. apply Qltb_lt. Qed.

Lemma Qltb_false (a b : Q) : b <= a -> Qltb a b = false.
Proof. apply Qltb_ge. Qed.

Lemma Qeq_bool_false (a b : Q) : ~ a == b -> Qeq_bool a b = false.
Proof.
  intros H. destruct (Qeq_bool a b) eqn:E; [|reflexivity].
  apply Qeq_bool_iff in E. contradiction.
Qed.

(** The inner loop keeps the first candidate with the greatest score. *)
Lemma fold_pick (cands : list ((str * str) * Q)) : forall b,
  0 <= max_similarity b ->
  fold_left pick cands b
  = if Qltb (max_similarity b) (greatest cands)
    then chosen b (List.find (fun c => Qeq_bool c.2 (greatest cands)) cands)
    else b.
Proof.
  induction cands as [|c l IH]; intros b Hb.
  - cbn [fold_left greatest fold_right List.find chosen].
    destruct (Qltb (max_similarity b) 0); reflexivity.
  - cbn [fold_left].
    rewrite IH by (unfold pick; destruct (Qltb (max_similarity b) c.2) eqn:E;
                   cbn [max_similarity]; order_facts; lra).
    clear IH. pose proof (greatest_reached l) as Hreach.
    change (greatest (c :: l)) with (if Qltb (greatest l) c.2 then c.2 else greatest l).
    cbn [List.find]. unfold pick.
    destruct (Qltb (max_similarity b) c.2) eqn:E1; cbn [max_similarity];
      destruct (Qltb (greatest l) c.2) eqn:E2; order_facts.
    + rewrite (Qltb_true _ _ E1), (Qltb_false c.2 (greatest l)) by lra.
      rewrite (proj2 (Qeq_bool_iff c.2 c.2)) by reflexivity. reflexivity.
    + rewrite (Qltb_true (max_similarity b) (greatest l)) by lra.
      destruct (Qltb c.2 (greatest l)) eqn:E3; order_facts.
      * rewrite (Qeq_bool_false c.2 (greatest l)) by lra.
        destruct (List.find _ l) as [x|] eqn:Hf; [reflexivity|]. exfalso.
        destruct Hreach as [H0|(x & Hx & Heq)]; [lra|].
        pose proof (find_none _ _ Hf x (proj1 (list_elem_of_In _ _) Hx)) as Hno.
        cbv beta in Hno. order_facts. exact (Hno Heq).
      * rewrite (proj2 (Qeq_bool_iff c.2 (greatest l))) by lra. reflexivity.
    + rewrite (Qltb_false _ _ E1), (Qltb_false (max_similarity b) (greatest l)) by lra.
      reflexivity.
    + destruct (Qltb (max_similarity b) (greatest l)) eqn:E4; [|reflexivity]. order_facts.
      rewrite (Qeq_bool_false c.2 (greatest l)) by lra. reflexivity.
Qed.

Lemma first_best_chosen (cands : list ((str * str) * Q)) :
  fold_left pick cands
    {| max_similarity := 0; best_match := None; best_match_orig := None |}
  = chosen {| max_similarity := 0; best_match := None; best_match_orig := None |}
      (first_best cands).
Proof.
  rewrite fold_pick by (cbn; lra). cbn [max_similarity]. unfold first_best.
  destruct (Qltb 0 (greatest cands)); reflexivity.
Qed.

Lemma greatest_bounds {A} (cands : list (A * Q)) :
  0 <= greatest cands /\ Forall (fun c => c.2 <= greatest cands) cands.
Proof.
  induction cands as [|c l [IH0 IH]]; [split; [cbn; lra | constructor]|].
  change (greatest (c :: l)) with (if Qltb (greatest l) c.2 then c.2 else greatest l).
  destruct (Qltb (greatest l) c.2) eqn:E; order_facts.
  - split; [lra|]. constructor; [lra|].
    eapply Forall_impl; [exact IH|]. intros x Hx. cbv beta in *. lra.
  - split; [exact IH0|]. constructor; [exact E | exact IH].
Qed.

Lemma find_first {A} (f : A -> bool) (l : list A) c :
  List.find f l = Some c ->
  exists i, l !! i = Some c /\ f c = true
            /\ forall j c', (j < i)%nat -> l !! j = Some c' -> f c' = false.
Proof.
  induction l as [|x l IH]; [discriminate|]. cbn [List.find].
  destruct (f x) eqn:Ex.
  - intros [= ->]. exists 0%nat. split; [reflexivity|]. split; [exact Ex|]. intros j c' Hj. lia.
  - intros Hfind. destruct (IH Hfind) as (i & Hi & Hc & Hbefore).
    exists (S i). split; [exact Hi|]. split; [exact Hc|].
    intros [|j] c' Hj Hc'; [injection Hc' as <-; exact Ex|].
    apply (Hbefore j c'); [lia | exact Hc'].
Qed.

(** The best candidate is a candidate with a positive score that no
    candidate exceeds and no earlier candidate reaches; there is none when
    no score is positive. *)
Lemma first_best_spec {A} (cands : list (A * Q)) :
  match first_best cands with
  | Some c =>
      exists i, cands !! i = Some c /\ 0 < c.2
                /\ Forall (fun c' => c'.2 <= c.2) cands
                /\ forall j c', (j < i)%nat -> cands !! j = Some c' -> c'.2 < c.2
  | None => Forall (fun c => c.2 <= 0) cands
  end.
Proof.
  unfold first_best. destruct (greatest_bounds cands) as [_ Hall].
  pose proof (greatest_reached cands) as Hwit.
  destruct (Qltb 0 (greatest cands)) eqn:Hpos; order_facts.
  2:{ eapply Forall_impl; [exact Hall|]. intros c Hc. cbv beta in *. lra. }
  destruct (List.find (fun c => Qeq_bool c.2 (greatest cands)) cands) as [c|] eqn:Hfind.
  - apply find_first in Hfind as (i & Hi & Hc & Hbefore). cbv beta in Hc. order_facts.
    exists i. split; [exact Hi|]. split; [lra|]. split.
    + eapply Forall_impl; [exact Hall|]. intros x Hx. cbv beta in *. lra.
    + intros j c' Hj Hc'. pose proof (Hbefore j c' Hj Hc') as Hne. cbv beta in Hne.
      order_facts. rewrite Forall_forall in Hall.
      pose proof (Hall c' (list_elem_of_lookup_2 _ _ _ Hc')) as Hle. cbv beta in Hle.
      destruct (Qlt_le_dec c'.2 (greatest cands)) as [Hlt|Hge]; [lra|].
      exfalso. apply Hne. lra.
  - exfalso. destruct Hwit as [H0|(c & Hc & Heq)]; [lra|].
    pose proof (find_none _ _ Hfind c (proj1 (list_elem_of_In _ _) Hc)) as Hno.
    cbv beta in Hno. order_facts. exact (Hno Heq).
Qed.

Section ScanFacts.
Variable U : unicode_tables.
Variables World Response : Type.
Variable lm : option (language_model World Response).
Variable use_lm_semantic : bool.
Variables pn po : str.
Variable matched : gset str.

(** The inner loop computes the similarities of the remaining truth items
    from left to right, and looks at each in turn. *)
Lemma scan_truth_fold : forall ut b w,
  exists ss w',
    similarities U lm use_lm_semantic pn po (remaining matched ut) w = (Ok ss, w') /\
    length ss = length (remaining matched ut) /\
    scan_truth U lm use_lm_semantic pn po matched ut b w
    = (Ok (fold_left pick (zip (remaining matched ut) ss) b), w').
Proof.
  induction ut as [|[tn to] ut IH]; intros b w.
  - exists [], w. repeat split.
  - cbn [scan_truth remaining List.filter snd].
    destruct (bool_decide (to ∈ matched)); cbn [negb]; [apply IH|].
    cbn [similarities]. unfold bind at 1 3. unfold similarity at 1. cbn [fst snd].
    destruct (similarity_ok U World Response lm use_lm_semantic pn po tn to w)
      as (x & w1 & -> & _).
    destruct (IH (pick b ((tn, to), x)) w1) as (ss & w' & Hss & Hlen & Hscan).
    exists (x :: ss), w'. unfold bind. fold (remaining matched ut). rewrite Hss.
    split; [reflexivity|]. split; [cbn [length]; rewrite Hlen; reflexivity|].
    cbn [zip zip_with fold_left]. exact Hscan.
Qed.

(** One turn of the outer loop. *)
Lemma match_loop_turn rest ut st w :
  matched = ls_matched_truth st ->
  exists ss w',
    similarities U lm use_lm_semantic pn po (remaining matched ut) w = (Ok ss, w') /\
    length ss = length (remaining matched ut) /\
    match_loop U lm use_lm_semantic ((pn, po) :: rest) ut st w
    = match_loop U lm use_lm_semantic rest ut
        (accepted po (first_best (zip (remaining matched ut) ss)) st) w'.
Proof.
  intros Hm. cbn [match_loop]. unfold bind. rewrite <- Hm.
  destruct (scan_truth_fold ut
              {| max_similarity := 0; best_match := None; best_match_orig := None |} w)
    as (ss & w' & Hss & Hlen & ->).
  exists ss, w'. split; [exact Hss|]. split; [exact Hlen|].
  rewrite first_best_chosen. f_equal.
  destruct (first_best (zip (remaining matched ut) ss)) as [[[tn to] s]|]; reflexivity.
Qed.

End ScanFacts.

(** *** The threshold among the binary64 numbers *)

Section Binary64.
Local Open Scope Z_scope.

(** [a / b] is below [2 ^ (log2_floor a b + 1)]. *)
Lemma log2_floor_above a b :
  0 < a -> 0 < b ->
  let e := log2_floor a b + 1 in
  a * 2 ^ Z.max 0 (- e) < b * 2 ^ Z.max 0 e.
Proof.
  intros Ha Hb. unfold log2_floor.
  destruct (Z.log2_spec a Ha) as [_ Ha'].
  destruct (Z.log2_spec b Hb) as [Hb' _].
  pose proof (Z.log2_nonneg a) as Hla. pose proof (Z.log2_nonneg b) as Hlb.
  set (la := Z.log2 a) in *. set (lb := Z.log2 b) in *.
  destruct (Z.ltb_spec (a * 2 ^ Z.max 0 (- (la - lb))) (b * 2 ^ Z.max 0 (la - lb))) as [T | T]; cbn zeta.
  - replace (la - lb - 1 + 1) with (la - lb) by lia. exact T.
  - clear T. destruct (Z.le_gt_cases 0 (la - lb + 1)) as [S | S].
    + rewrite (Z.max_l 0 (- (la - lb + 1))), (Z.max_r 0 (la - lb + 1)) by lia.
      change (2 ^ 0) with 1. rewrite Z.mul_1_r.
      apply Z.lt_le_trans with (2 ^ Z.succ la); [exact Ha' |].
      replace (Z.succ la) with (lb + (la - lb + 1)) by lia.
      rewrite Z.pow_add_r by lia.
      apply Z.mul_le_mono_nonneg_r; [apply Z.pow_nonneg; lia | exact Hb'].
    + rewrite (Z.max_r 0 (- (la - lb + 1))), (Z.max_l 0 (la - lb + 1)) by lia.
      change (2 ^ 0) with 1. rewrite Z.mul_1_r.
      apply Z.lt_le_trans with (2 ^ lb); [| exact Hb'].
      replace lb with (Z.succ la + - (la - lb + 1)) at 2 by lia.
      rewrite Z.pow_add_r by lia.
      apply Z.mul_lt_mono_pos_r; [apply Z.pow_pos_nonneg; lia | exact Ha'].
Qed.

Lemma round_half_even_le n m : round_half_even n m <= n / m + 1.
Proof.
  unfold round_half_even. destruct (2 * (n mod m) ?= m); [destruct (Z.even _) | |]; lia.
Qed.

(** The units of the last place are at most 2^53. *)
Lemma units_bounded a b :
  0 < a -> 0 < b ->
  let p := Z.max (log2_floor a b) (-1022) - 52 in
  round_half_even (a * 2 ^ 1074) (b * 2 ^ (p + 1074)) <= 2 ^ 53.
Proof.
  intros Ha Hb p.
  pose proof (log2_floor_above a b Ha Hb) as H. cbn zeta in H.
  set (e := log2_floor a b) in *.
  assert (Hlt : a * 2 ^ 1074 < b * 2 ^ (p + 1074) * 2 ^ 53).
  { rewrite <- Z.mul_assoc, <- Z.pow_add_r by lia.
    destruct (Z.le_gt_cases 0 (e + 1)) as [S | S].
    - rewrite (Z.max_l 0 (- (e + 1))), (Z.max_r 0 (e + 1)) in H by lia.
      change (2 ^ 0) with 1 in H. rewrite Z.mul_1_r in H.
      apply Z.lt_le_trans with (b * 2 ^ (e + 1) * 2 ^ 1074).
      + apply Z.mul_lt_mono_pos_r; [apply Z.pow_pos_nonneg; lia | exact H].
      + rewrite <- Z.mul_assoc, <- Z.pow_add_r by lia.
        apply Z.mul_le_mono_nonneg_l; [lia |].
        apply Z.pow_le_mono_r; lia.
    - rewrite (Z.max_r 0 (- (e + 1))), (Z.max_l 0 (e + 1)) in H by lia.
      change (2 ^ 0) with 1 in H. rewrite Z.mul_1_r in H.
      apply Z.le_lt_trans with (a * 2 ^ (- (e + 1)) * 2 ^ (p + 1074 + 53)).
      + rewrite <- Z.mul_assoc, <- Z.pow_add_r by lia.
        apply Z.mul_le_mono_nonneg_l; [lia |].
        apply Z.pow_le_mono_r; lia.
      + apply Z.mul_lt_mono_pos_r; [apply Z.pow_pos_nonneg; lia | exact H]. }
  pose proof (round_half_even_le (a * 2 ^ 1074) (b * 2 ^ (p + 1074))) as Hr.
  assert (Hm : 0 < b * 2 ^ (p + 1074)).
  { apply Z.mul_pos_pos; [exact Hb | apply Z.pow_pos_nonneg; lia]. }
  assert (a * 2 ^ 1074 / (b * 2 ^ (p + 1074)) < 2 ^ 53).
  { apply Z.div_lt_upper_bound; [exact Hm |]. exact Hlt. }
  lia.
Qed.


(** No binary64 number lies between the binary64 number nearest to 0.7 and
    7/10 itself: what [round64] returns is above the one exactly when it
    is above the other. *)
Lemma round64_threshold a b :
  0 < b -> (Qltb (7 # 10) (round64 a b) = Qltb (round64 7 10) (round64 a b)).
Proof.
  intros Hb.
  assert (Hd : round64 7 10 = (3152519739159347 # 4503599627370496)%Q) by (vm_compute; reflexivity).
  rewrite Hd. clear Hd.
  assert (Hiff : forall v : Q,
    ((7 # 10 < v)%Q <-> (3152519739159347 # 4503599627370496 < v)%Q) ->
    Qltb (7 # 10) v = Qltb (3152519739159347 # 4503599627370496) v).
  { intros v Hv. unfold Qltb.
    destruct (Qle_bool v (7 # 10)) eqn:E1, (Qle_bool v (3152519739159347 # 4503599627370496)) eqn:E2;
      try reflexivity; exfalso.
    - apply Qle_bool_iff in E1.
      assert (~ (v <= 3152519739159347 # 4503599627370496)%Q) as E2'
        by (intros H; apply Qle_bool_iff in H; congruence).
      apply Qnot_le_lt in E2'. apply Hv in E2'. apply (Qlt_not_le _ _ E2' E1).
    - apply Qle_bool_iff in E2.
      assert (~ (v <= 7 # 10)%Q) as E1'
        by (intros H; apply Qle_bool_iff in H; congruence).
      apply Qnot_le_lt in E1'. apply Hv in E1'. apply (Qlt_not_le _ _ E1' E2). }
  apply Hiff. clear Hiff. split.
  { intros H. apply Qlt_trans with (7 # 10)%Q; [reflexivity | exact H]. }
  unfold round64. destruct (Z.leb_spec a 0) as [Ha | Ha]; [intros H; discriminate H |].
  cbn zeta.
  pose proof (units_bounded a b Ha Hb) as Hk. cbn zeta in Hk.
  set (p := Z.max (log2_floor a b) (-1022) - 52) in *.
  set (k := round_half_even (a * 2 ^ 1074) (b * 2 ^ (p + 1074))) in *.
  destruct ((1024 <? p) || (2 ^ (1024 - p) <=? k)); [intros _; reflexivity |].
  unfold scaled. destruct (Z.leb_spec 0 p) as [Hp | Hp].
  - unfold Qlt. cbn [Qnum Qden inject_Z]. intros H. lia.
  - assert (HX : 0 < 2 ^ (- p)) by (apply Z.pow_pos_nonneg; lia).
    intros H. rewrite Qred_correct in H. rewrite Qred_correct.
    unfold Qlt in *. cbn [Qnum Qden] in *. rewrite Z2Pos.id in * by exact HX.
    set (X := 2 ^ (- p)) in *.
    destruct (Z.le_gt_cases (-53) p) as [Hq | Hq].
    + assert (HY : 0 < 2 ^ (53 + p)) by (apply Z.pow_pos_nonneg; lia).
      assert (HXY : X * 2 ^ (53 + p) = 9007199254740992).
      { unfold X. rewrite <- Z.pow_add_r by lia. replace (- p + (53 + p)) with 53 by lia. reflexivity. }
      set (Y := 2 ^ (53 + p)) in *. nia.
    + assert (HX' : 2 ^ 54 <= X) by (apply Z.pow_le_mono_r; lia).
      change (2 ^ 54) with 18014398509481984 in HX'.
      change (2 ^ 53) with 9007199254740992 in Hk. nia.
Qed.

End Binary64.

(** Whatever [float] reads is above 7/10 exactly when it is above what
    [float] reads from "0.7", and so is the score made of it. *)
Lemma py_float_threshold U t :
  Qltb (7 # 10) (py_float U t) = Qltb (py_float ascii_tables (utf8 "0.7")) (py_float U t).
Proof.
  assert (H : py_float ascii_tables (utf8 "0.7") = round64 7 10) by (vm_compute; reflexivity).
  rewrite H. unfold py_float. apply round64_threshold.
  apply Z.pow_pos_nonneg; lia.
Qed.

Lemma Qle_bool_false a b : Qle_bool a b = false -> b < a.
Proof.
  intros H. apply Qnot_le_lt. intros Hle. apply Qle_bool_iff in Hle. congruence.
Qed.

Lemma clamped_threshold x v :
  0 <= x -> x < 1 -> Qltb x (py_max 0 (py_min 1 v)) = Qltb x v.
Proof.
  intros H0 H1. unfold py_max, py_min, Qltb.
  destruct (Qle_bool 1 v) eqn:E1;
    [apply Qle_bool_iff in E1 | apply Qle_bool_false in E1]; cbn [negb].
  - change (Qle_bool 1 0) with false. cbn [negb].
    destruct (Qle_bool 1 x) eqn:E2, (Qle_bool v x) eqn:E3; try reflexivity; exfalso;
      [apply Qle_bool_iff in E2 | apply Qle_bool_iff in E3]; lra.
  - destruct (Qle_bool v 0) eqn:E2;
      [apply Qle_bool_iff in E2 | reflexivity]; cbn [negb].
    destruct (Qle_bool 0 x) eqn:E3, (Qle_bool v x) eqn:E4; try reflexivity; exfalso;
      [apply Qle_bool_false in E4 | apply Qle_bool_false in E3]; lra.
Qed.



(** ** Name normalization *)

Lemma split_from_snoc_space tok s w :
  isspace w = true -> split_from tok (s ++ [w]) = split_from tok s.
Proof.
  intros Hw. revert tok. induction s as [|c s IH]; intros tok; cbn [app split_from].
  - rewrite Hw. destruct tok; reflexivity.
  - destruct (isspace c); [destruct tok; rewrite IH; reflexivity | apply IH].
Qed.

Lemma split_from_app_spaces tok s ws :
  Forall (fun w => isspace w = true) ws -> split_from tok (s ++ ws) = split_from tok s.
Proof.
  intros Hws. revert s. induction Hws as [|w ws Hw _ IH]; intros s.
  - rewrite app_nil_r. reflexivity.
  - rewrite (cons_middle w s ws), app_assoc, IH. apply split_from_snoc_space, Hw.
Qed.

Lemma split_from_middle_space tok s1 w s2 :
  isspace w = true ->
  split_from tok (s1 ++ w :: s2) = split_from tok s1 ++ split_from [] s2.
Proof.
  intros Hw. revert tok. induction s1 as [|c s1 IH]; intros tok; cbn [app split_from].
  - rewrite Hw. destruct tok; reflexivity.
  - destruct (isspace c); [destruct tok; rewrite IH; reflexivity | apply IH].
Qed.

Lemma lstrip_spaces s :
  exists ws, Forall (fun w => isspace w = true) ws /\ s = ws ++ lstrip s.
Proof.
  induction s as [|c s (ws & Hws & Hs)]; [exists []; split; [constructor | reflexivity]|].
  cbn [lstrip]. destruct (isspace c) eqn:Hc.
  - exists (c :: ws). split; [constructor; assumption|]. cbn. rewrite <- Hs. reflexivity.
  - exists []. split; [constructor | reflexivity].
Qed.

Lemma split_lstrip s : split (lstrip s) = split s.
Proof.
  unfold split. induction s as [|c s IH]; [reflexivity|].
  cbn [lstrip split_from].
  destruct (isspace c) eqn:Hc; [exact IH | cbn [split_from]; rewrite Hc; reflexivity].
Qed.

Lemma split_rstrip s : split (rstrip s) = split s.
Proof.
  unfold rstrip. destruct (lstrip_spaces (rev s)) as (ws & Hws & Hs).
  apply (f_equal (@rev char)) in Hs. rewrite rev_involutive, rev_app_distr in Hs.
  rewrite Hs at 2. unfold split. symmetry. apply split_from_app_spaces.
  apply Forall_rev. exact Hws.
Qed.

Lemma split_strip s : split (strip s) = split s.
Proof. unfold strip. rewrite split_rstrip. apply split_lstrip. Qed.

Lemma ws_edit_split x y : ws_edit x y -> split x = split y.
Proof.
  unfold split. intros [w s Hw|w s Hw|s1 w w' s2 Hw Hw'|s1 w w' s2 Hw Hw'].
  - cbn [split_from]. rewrite Hw. reflexivity.
  - apply split_from_snoc_space, Hw.
  - rewrite !split_from_middle_space by assumption.
    cbn [split_from]. rewrite Hw'. reflexivity.
  - rewrite !split_from_middle_space by assumption. reflexivity.
Qed.

Lemma rtsc_ws_edit_split x y : rtsc ws_edit x y -> split x = split y.
Proof.
  induction 1 as [x|x y z [Hxy|Hyx] _ IH]; [reflexivity| |].
  - rewrite (ws_edit_split _ _ Hxy). exact IH.
  - rewrite <- (ws_edit_split _ _ Hyx). exact IH.
Qed.

(** ** Searching past a prefix *)

Lemma is_prefix_head_ne x L c t : x <> c -> is_prefix (x :: L) (c :: t) = false.
Proof. intros H. cbn. apply N.eqb_neq in H. rewrite H. reflexivity. Qed.

Section SearchFacts.
Variable U : unicode_tables.

Lemma chr_ok_literal c d : chr_ok U false [CChar c] d = (d =? c)%N.
Proof. unfold chr_ok. simpl. destruct (d =? c)%N; reflexivity. Qed.

Lemma required_prefix_sound (r : re) :
  forall avoid t cs k,
    head_avoids avoid t ->
    is_prefix (required_prefix avoid r) t = false ->
    rmatch U r t cs k = None.
Proof.
  induction r as [|neg items|a IHa b IHb|a IHa b IHb|g a IHa|i a IHa|p a IHa| |];
    intros avoid t cs k Havoid Hpre; try discriminate Hpre.
  - (* one character *)
    destruct neg; [discriminate Hpre|].
    destruct items as [|[c| | |] [|? ?]]; try discriminate Hpre.
    cbn [required_prefix is_prefix] in Hpre. cbn [rmatch].
    destruct t as [|d t]; [reflexivity|].
    rewrite chr_ok_literal. rewrite andb_true_r in Hpre.
    rewrite N.eqb_sym, Hpre. reflexivity.
  - (* concatenation *)
    assert (is_prefix (required_prefix avoid a) t = false -> rmatch U (Cat a b) t cs k = None)
      as Hgen by (intros H; cbn [rmatch]; eapply IHa; eassumption).
    destruct a as [|neg items|a1 a2|a1 a2|g a1|i a1|p a1| |];
      try (apply Hgen; exact Hpre).
    + (* a literal, then [b] *)
      destruct neg; [apply Hgen; exact Hpre|].
      destruct items as [|[c| | |] [|? ?]]; try (apply Hgen; exact Hpre).
      cbn [required_prefix is_prefix] in Hpre. cbn [rmatch].
      destruct t as [|d t]; [reflexivity|].
      rewrite chr_ok_literal. rewrite N.eqb_sym.
      destruct (c =? d)%N; [|reflexivity].
      cbn [andb] in Hpre. eapply IHb; [|exact Hpre].
      destruct t; [exact I | apply not_elem_of_nil].
    + (* an optional literal the text cannot start with, then [b] *)
      destruct a1 as [|neg items| | | | | | |]; try (apply Hgen; exact Hpre).
      destruct neg; [apply Hgen; exact Hpre|].
      destruct items as [|[x| | |] [|? ?]]; try (apply Hgen; exact Hpre).
      destruct a2; try (apply Hgen; exact Hpre).
      cbn [required_prefix] in Hpre.
      destruct (bool_decide (x ∈ avoid)) eqn:Hx; [|discriminate Hpre].
      apply bool_decide_eq_true in Hx.
      cbn [rmatch]. destruct t as [|d t].
      * cbn [orelse]. eapply IHb; eassumption.
      * rewrite chr_ok_literal.
        assert ((d =? x)%N = false) as ->.
        { apply N.eqb_neq. intros ->. apply Havoid, Hx. }
        cbn [orelse]. eapply IHb; eassumption.
  - (* group *)
    cbn [rmatch]. eapply IHa; eassumption.
Qed.

Lemma here_required_prefix r avoid t :
  head_avoids avoid t ->
  is_prefix (required_prefix avoid r) t = false ->
  here U r t = None.
Proof.
  intros Havoid Hpre. unfold here, match_here.
  rewrite (required_prefix_sound r avoid t _ _ Havoid Hpre). reflexivity.
Qed.

End SearchFacts.

(** ** Stripping the parentheses *)

Section ParenFacts.
Variable U : unicode_tables.

Lemma scan_without_opener p o s :
  opens_with p o -> o ∉ s -> scan U (body p) s = None.
Proof.
  intros [_ Hreq] Hs. induction s as [|c s IH]; cbn [scan].
  - rewrite (here_required_prefix U (body p) [] []); [reflexivity | exact I|].
    rewrite Hreq. reflexivity.
  - rewrite (here_required_prefix U (body p) [] (c :: s)).
    + rewrite IH; [reflexivity|]. intros Hin. apply Hs. right. exact Hin.
    + apply not_elem_of_nil.
    + rewrite Hreq. apply is_prefix_head_ne. intros ->. apply Hs. left.
Qed.

(** Where the opener does not occur there is nothing to remove. *)
Lemma sub_empty_without_opener p o s :
  opens_with p o -> o ∉ s -> sub_empty U p s = s.
Proof.
  intros Hp Hs. unfold sub_empty, finditer. cbn [matches_from].
  unfold search. rewrite (proj1 Hp). cbn [andb].
  rewrite (scan_without_opener p o s Hp Hs). reflexivity.
Qed.

Lemma paren_pattern_compiled :
  compile false "\([^)]*\)" = {| anchored := false; body := paren_re |}.
Proof. reflexivity. Qed.

Lemma paren_pattern_opens : opens_with (compile false "\([^)]*\)") 40%N.
Proof. split; reflexivity. Qed.

Lemma cjk_paren_pattern_opens : opens_with (compile false "（[^）]*）") 65288%N.
Proof. split; reflexivity. Qed.

Lemma drop_while_until p (q rest : str) c :
  Forall (fun d => p d = true) q -> p c = false ->
  drop_while p (q ++ c :: rest) = c :: rest.
Proof.
  intros Hq Hc. induction Hq as [|d q Hd _ IH]; cbn [app drop_while].
  - rewrite Hc. reflexivity.
  - rewrite Hd. exact IH.
Qed.

(** A bracketed piece without a closing parenthesis inside is one match. *)
Lemma here_paren (q rest : str) :
  41%N ∉ q ->
  here U paren_re (40%N :: q ++ 41%N :: rest) =
  Some {| m_before := [];
          m_text := take (length (40%N :: q ++ 41%N :: rest) - length rest)
                         (40%N :: q ++ 41%N :: rest);
          m_groups := []; m_after := rest |}.
Proof.
  intros Hq. unfold here, match_here, paren_re, Lit.
  set (s := 40%N :: q ++ 41%N :: rest).
  change (rmatch U (Cat (Chr false [CChar 40%N])
                        (Cat (Star true (Chr true [CChar 41%N])) (Chr false [CChar 41%N])))
                 s [] (fun s' cs => Some (s', cs)))
    with (if chr_ok U false [CChar 40%N] 40%N
          then star_loop (rmatch U (Chr true [CChar 41%N])) true
                 (fun s' cs' => rmatch U (Chr false [CChar 41%N]) s' cs'
                                  (fun s'' cs => Some (s'', cs)))
                 (length (q ++ 41%N :: rest)) (q ++ 41%N :: rest) []
          else None).
  rewrite chr_ok_literal. cbn [N.eqb Pos.eqb].
  assert (drop_while (chr_ok U true [CChar 41%N]) (q ++ 41%N :: rest) = 41%N :: rest) as Hdrop.
  { apply drop_while_until.
    - apply Forall_forall. intros d Hd. unfold chr_ok. cbn.
      destruct (d =? 41)%N eqn:E; [|reflexivity].
      apply N.eqb_eq in E. subst d. contradiction.
    - reflexivity. }
  rewrite star_class_greedy; rewrite ?Hdrop; [reflexivity | lia |].
  cbn [rmatch]. rewrite chr_ok_literal. cbn [N.eqb Pos.eqb]. eauto.
Qed.

Lemma scan_paren (a q rest : str) :
  40%N ∉ a -> 41%N ∉ q ->
  scan U paren_re (a ++ 40%N :: q ++ 41%N :: rest) =
  Some (prepend a
          {| m_before := [];
             m_text := take (length (40%N :: q ++ 41%N :: rest) - length rest)
                            (40%N :: q ++ 41%N :: rest);
             m_groups := []; m_after := rest |}).
Proof.
  intros Ha Hq. induction a as [|c a IH]; cbn [app scan].
  - rewrite here_paren by exact Hq. reflexivity.
  - rewrite (here_required_prefix U paren_re [] (c :: a ++ 40%N :: q ++ 41%N :: rest)).
    + rewrite IH; [reflexivity|]. intros Hin. apply Ha. right. exact Hin.
    + apply not_elem_of_nil.
    + apply is_prefix_head_ne. intros <-. apply Ha. left.
Qed.

(** A bracketed piece at the end of a text is removed, and nothing else. *)
Lemma sub_empty_trailing_paren (a q : str) :
  40%N ∉ a -> 41%N ∉ q ->
  sub_empty U (compile false "\([^)]*\)") (a ++ 40%N :: q ++ [41%N]) = a.
Proof.
  intros Ha Hq. rewrite paren_pattern_compiled.
  unfold sub_empty, finditer. cbn [matches_from anchored body andb negb search].
  match goal with |- context [scan U paren_re ?t] => set (found := scan U paren_re t) end.
  assert (found = Some (prepend a
            {| m_before := [];
               m_text := take (length (40%N :: q ++ [41%N]) - length (@nil char))
                              (40%N :: q ++ [41%N]);
               m_groups := []; m_after := [] |})) as ->
    by (apply scan_paren; assumption).
  cbn [prepend m_text m_after m_before length take].
  rewrite Nat.sub_0_r. cbn [take remove_matches m_before m_after].
  assert (forall n, matches_from U n {| anchored := false; body := paren_re |} false []
                    = []) as ->.
  { intros [|n]; [reflexivity|]. cbn [matches_from anchored body andb negb search scan].
    rewrite (here_required_prefix U paren_re [] []); [reflexivity | exact I | reflexivity]. }
  unfold prepend. cbn [remove_matches m_before m_after]. rewrite !app_nil_r. reflexivity.
Qed.

End ParenFacts.

(** *** A qualifier in parentheses at the end of a name *)

Lemma split_from_no_space tok y :
  Forall (fun c => isspace c = false) y -> tok ++ y <> [] ->
  split_from tok y = [tok ++ y].
Proof.
  intros Hy. revert tok. induction Hy as [|c y Hc _ IH]; intros tok Hne; cbn [split_from].
  - rewrite app_nil_r in *. destruct tok; [congruence | reflexivity].
  - rewrite Hc, IH, <- app_assoc; [reflexivity|].
    destruct tok; discriminate.
Qed.

Lemma join_snoc sep (l : list str) y :
  l <> [] -> join sep (l ++ [y]) = join sep l ++ sep ++ y.
Proof.
  induction l as [|x l IH]; [congruence|]. intros _.
  destruct l as [|x' l]; [reflexivity|].
  change (join sep ((x :: x' :: l) ++ [y])) with (x ++ sep ++ join sep ((x' :: l) ++ [y])).
  rewrite IH by discriminate.
  change (join sep (x :: x' :: l)) with (x ++ sep ++ join sep (x' :: l)).
  rewrite <- !app_assoc. reflexivity.
Qed.

Lemma split_from_chars s : forall tok t c,
  t ∈ split_from tok s -> c ∈ t -> c ∈ tok \/ c ∈ s.
Proof.
  induction s as [|d s IH]; intros tok t c Ht Hc; cbn [split_from] in Ht.
  - destruct tok; [inversion Ht|]. apply list_elem_of_singleton in Ht. subst t. left. exact Hc.
  - destruct (isspace d).
    + destruct tok as [|x tok].
      * destruct (IH [] t c Ht Hc) as [H|H]; [inversion H | right; right; exact H].
      * apply elem_of_cons in Ht as [->|Ht]; [left; exact Hc|].
        destruct (IH [] t c Ht Hc) as [H|H]; [inversion H | right; right; exact H].
    + destruct (IH (tok ++ [d]) t c Ht Hc) as [H|H]; [|right; right; exact H].
      apply elem_of_app in H as [H|H]; [left; exact H|].
      apply list_elem_of_singleton in H. subst c. right. left.
Qed.

Lemma join_chars sep (l : list str) c :
  c ∈ join sep l -> c ∈ sep \/ exists t, t ∈ l /\ c ∈ t.
Proof.
  induction l as [|x l IH]; [intros H; inversion H|].
  destruct l as [|x' l].
  - intros H. right. exists x. split; [left | exact H].
  - change (join sep (x :: x' :: l)) with (x ++ sep ++ join sep (x' :: l)).
    intros H. apply elem_of_app in H as [H|H]; [right; exists x; split; [left | exact H]|].
    apply elem_of_app in H as [H|H]; [left; exact H|].
    destruct (IH H) as [H'|(t & Ht & Hct)]; [left; exact H'|].
    right. exists t. split; [right; exact Ht | exact Hct].
Qed.

(** Collapsing the whitespace brings in no new character but the space. *)
Lemma collapse_chars s c :
  c ∈ join (utf8 " ") (split s) -> c ∈ s \/ c = 32%N.
Proof.
  intros H. apply join_chars in H as [H|(t & Ht & Hc)].
  - right. apply list_elem_of_singleton in H. exact H.
  - destruct (split_from_chars s [] t c Ht Hc) as [H|H]; [inversion H | left; exact H].
Qed.

Lemma rstrip_snoc_space s w : isspace w = true -> rstrip (s ++ [w]) = rstrip s.
Proof.
  intros Hw. unfold rstrip. rewrite rev_app_distr. cbn [rev app lstrip]. rewrite Hw.
  reflexivity.
Qed.

Lemma strip_snoc_space s w : isspace w = true -> strip (s ++ [w]) = strip s.
Proof.
  intros Hw. unfold strip.
  destruct (lstrip_spaces s) as (ws & Hws & Hs).
  destruct (lstrip s) as [|c s'] eqn:Hl.
  - (* [s] is blank *)
    rewrite app_nil_r in Hs. subst s.
    assert (forall l, Forall (fun w => isspace w = true) l -> lstrip l = []) as Hblank.
    { induction 1 as [|x l Hx _ IH]; [reflexivity|]. cbn [lstrip]. rewrite Hx. exact IH. }
    rewrite Hblank; [reflexivity|]. apply Forall_app. split; [exact Hws|].
    constructor; [exact Hw | constructor].
  - assert (lstrip (s ++ [w]) = (c :: s') ++ [w]) as ->.
    { rewrite <- Hl. clear -Hl. revert Hl. induction s as [|x s IH]; [discriminate|].
      cbn [app lstrip]. destruct (isspace x); [exact IH | reflexivity]. }
    apply rstrip_snoc_space, Hw.
Qed.


(** C5, counterexample. A parenthesized qualifier in the middle of a name
    leaves two spaces behind: the name does not normalize like the name
    without the qualifier, and the specified order of steps gives another
    string than the code. *)
Lemma inner_parenthetical_leaves_two_spaces :
  normalize_eif_name ascii_tables (utf8 "Client (legacy) Info") = utf8 "client  info" /\
  normalize_eif_name ascii_tables (utf8 "Client  Info") = utf8 "client info" /\
  normalize_as_specified ascii_tables (utf8 "Client (legacy) Info") = utf8 "client info".
Proof. repeat split; vm_compute; reflexivity. Qed.



Lemma prepend_nil m : prepend [] m = m.
Proof. destruct m. reflexivity. Qed.

Lemma shift_prepend c pre m : shift c (prepend pre m) = prepend (c :: pre) m.
Proof. reflexivity. Qed.

(** ** What a pattern needs in order to match *)

Lemma is_prefix_app w h s : is_prefix (w ++ h) (w ++ s) = is_prefix h s.
Proof.
  induction w as [|x w IH]; [reflexivity|]. cbn [app is_prefix].
  rewrite N.eqb_refl. exact IH.
Qed.

Lemma is_prefix_trans w : forall h s,
  is_prefix w h = true -> is_prefix h s = true -> is_prefix w s = true.
Proof.
  induction w as [|x w IH]; intros h s Hwh Hhs; [reflexivity|].
  destruct h as [|y h]; [discriminate Hwh|].
  destruct s as [|z s]; [discriminate Hhs|].
  cbn [is_prefix] in *. apply andb_true_iff in Hwh as [Hxy Hwh].
  apply andb_true_iff in Hhs as [Hyz Hhs].
  apply N.eqb_eq in Hxy, Hyz. subst. rewrite N.eqb_refl. exact (IH h s Hwh Hhs).
Qed.

Lemma suffix_cons_cases {A} (s' s : list A) x :
  s' `suffix_of` x :: s -> s' = x :: s \/ s' `suffix_of` s.
Proof.
  intros [[|y k] Hk]; [left; symmetry; exact Hk|].
  right. injection Hk as _ ->. exists k. reflexivity.
Qed.

Lemma tails_suffix (s' s : str) : s' `suffix_of` s -> s' ∈ tails s.
Proof.
  induction s as [|x s IH]; intros Hs.
  - apply suffix_nil_inv in Hs as ->. left.
  - apply suffix_cons_cases in Hs as [->|Hs]; [left | right; apply IH, Hs].
Qed.

Section TriggerFacts.
Variable U : unicode_tables.

Lemma item_chars_sound items : forall ds x,
  item_chars items = Some ds -> chr_ok U false items x = true -> x ∈ ds.
Proof.
  unfold chr_ok. cbn [xorb].
  induction items as [|it items IH]; intros ds x Hds Hx; [discriminate Hx|].
  destruct it as [d| | |]; try discriminate Hds. cbn [item_chars] in Hds.
  destruct (item_chars items) as [ds'|]; [|discriminate Hds]. injection Hds as <-.
  cbn [existsb citem_mem] in Hx. apply orb_true_iff in Hx as [Hx|Hx].
  - apply N.eqb_eq in Hx. subst. left.
  - right. exact (IH ds' x eq_refl Hx).
Qed.

(** A pattern with finitely many words reads one of them. *)
Lemma exact_words_sound (r : re) : forall ws s cs (k : kont) res,
  exact_words r = Some ws -> rmatch U r s cs k = Some res ->
  exists w s', w ∈ ws /\ s = w ++ s' /\ k s' cs = Some res.
Proof.
  induction r as [|neg items|a IHa b IHb|a IHa b IHb|g a IHa|i a IHa|p a IHa| |];
    intros ws s cs k res Hw Hm; cbn [exact_words] in Hw; try discriminate Hw.
  - injection Hw as <-. exists [], s. split; [left|]. split; [reflexivity | exact Hm].
  - destruct neg; [discriminate Hw|].
    destruct (item_chars items) as [ds|] eqn:E; [|discriminate Hw]. injection Hw as <-.
    cbn [rmatch] in Hm. destruct s as [|x t]; [discriminate Hm|].
    destruct (chr_ok U false items x) eqn:Hx; [|discriminate Hm].
    exists [x], t. split; [|split; [reflexivity | exact Hm]].
    apply list_elem_of_In, (in_map (fun d => [d])), list_elem_of_In.
    exact (item_chars_sound items ds x E Hx).
  - destruct (exact_words a) as [wa|]; [|discriminate Hw].
    destruct (exact_words b) as [wb|]; [|discriminate Hw]. injection Hw as <-.
    cbn [rmatch] in Hm.
    destruct (IHa wa s cs _ res eq_refl Hm) as (w1 & s1 & Hw1 & -> & Hb).
    destruct (IHb wb s1 cs k res eq_refl Hb) as (w2 & s2 & Hw2 & -> & Hk).
    exists (w1 ++ w2), s2. split; [|split; [apply app_assoc | exact Hk]].
    apply list_elem_of_In, in_flat_map. exists w1. split; [apply list_elem_of_In, Hw1|].
    apply (in_map (app w1)), list_elem_of_In, Hw2.
  - destruct (exact_words a) as [wa|]; [|discriminate Hw].
    destruct (exact_words b) as [wb|]; [|discriminate Hw]. injection Hw as <-.
    cbn [rmatch] in Hm. unfold orelse in Hm.
    destruct (rmatch U a s cs k) as [res'|] eqn:Ea.
    + injection Hm as ->. destruct (IHa wa s cs k res eq_refl Ea) as (w & s' & Hin & Hs & Hk).
      exists w, s'. split; [apply elem_of_app; left; exact Hin | split; assumption].
    + destruct (IHb wb s cs k res eq_refl Hm) as (w & s' & Hin & Hs & Hk).
      exists w, s'. split; [apply elem_of_app; right; exact Hin | split; assumption].
Qed.

(** Every match starts with one of the heads of the pattern. *)
Lemma heads_sound (r : re) : forall s cs (k : kont) res,
  rmatch U r s cs k = Some res -> exists h, h ∈ heads r /\ is_prefix h s = true.
Proof.
  assert (forall r : re, (forall s cs (k : kont) res,
            rmatch U r s cs k = Some res ->
            exists h, h ∈ default [[]] (exact_words r) /\ is_prefix h s = true)) as Hplain.
  { intros r0 s cs k res Hm.
    destruct (exact_words r0) as [ws|] eqn:E; cbn [default from_option].
    - destruct (exact_words_sound r0 ws s cs k res E Hm) as (w & s' & Hin & -> & _).
      exists w. split; [exact Hin|]. rewrite <- (app_nil_r w) at 1.
      rewrite is_prefix_app. reflexivity.
    - exists []. split; [left | reflexivity]. }
  induction r as [|neg items|a IHa b IHb|a IHa b IHb|g a IHa|i a IHa|p a IHa| |];
    intros s cs k res Hm;
    try exact (Hplain _ s cs k res Hm).
  - cbn [heads]. destruct (exact_words a) as [wa|] eqn:E.
    + cbn [rmatch] in Hm.
      destruct (exact_words_sound a wa s cs _ res E Hm) as (w1 & s1 & Hw1 & -> & Hb).
      destruct (IHb s1 cs k res Hb) as (h & Hh & Hpre).
      exists (w1 ++ h). split; [|rewrite is_prefix_app; exact Hpre].
      apply list_elem_of_In, in_flat_map. exists w1. split; [apply list_elem_of_In, Hw1|].
      apply (in_map (app w1)), list_elem_of_In, Hh.
    + cbn [rmatch] in Hm. exact (IHa s cs _ res Hm).
  - cbn [heads]. cbn [rmatch] in Hm. unfold orelse in Hm.
    destruct (rmatch U a s cs k) as [res'|] eqn:Ea.
    + destruct (IHa s cs k res' Ea) as (h & Hh & Hpre).
      exists h. split; [apply elem_of_app; left; exact Hh | exact Hpre].
    + destruct (IHb s cs k res Hm) as (h & Hh & Hpre).
      exists h. split; [apply elem_of_app; right; exact Hh | exact Hpre].
  - cbn [heads]. cbn [rmatch] in Hm. exact (IHa s cs _ res Hm).
Qed.

Lemma star_loop_capture_free ma greedy (k : kont) :
  (forall s cs (h : kont) res,
     ma s cs h = Some res -> exists s', s' `suffix_of` s /\ h s' cs = Some res) ->
  forall n s cs res,
    star_loop ma greedy k n s cs = Some res ->
    exists s', s' `suffix_of` s /\ k s' cs = Some res.
Proof.
  intros Hma. induction n as [|n IH]; intros s cs res H; cbn [star_loop] in H.
  - exists s. split; [reflexivity | exact H].
  - cbv zeta in H.
    assert (forall res',
              ma s cs (fun s' cs' =>
                         if (length s' <? length s)%nat
                         then star_loop ma greedy k n s' cs' else None) = Some res' ->
              exists s', s' `suffix_of` s /\ k s' cs = Some res') as Hagain.
    { intros res' Ha. apply Hma in Ha as (s1 & Hs1 & Hk).
      destruct (length s1 <? length s)%nat; [|discriminate Hk].
      apply IH in Hk as (s' & Hs' & Hk). exists s'.
      split; [etransitivity; eassumption | exact Hk]. }
    unfold orelse in H. destruct greedy.
    + destruct (ma s cs _) as [res'|] eqn:Ea.
      * injection H as ->. exact (Hagain res eq_refl).
      * exists s. split; [reflexivity | exact H].
    + destruct (k s cs) as [res'|] eqn:Ek.
      * injection H as ->. exists s. split; [reflexivity | exact Ek].
      * exact (Hagain res H).
Qed.

(** A pattern without capturing group hands the captures on as they are,
    with what is left of the text. *)
Lemma capture_free_sound (r : re) : forall s cs (k : kont) res,
  capture_free r = true -> rmatch U r s cs k = Some res ->
  exists s', s' `suffix_of` s /\ k s' cs = Some res.
Proof.
  induction r as [|neg items|a IHa b IHb|a IHa b IHb|g a IHa|i a IHa|p a IHa| |];
    intros s cs k res Hf Hm; cbn [capture_free] in Hf; cbn [rmatch] in Hm.
  - exists s. split; [reflexivity | exact Hm].
  - destruct s as [|x t]; [discriminate Hm|].
    destruct (chr_ok U neg items x); [|discriminate Hm].
    exists t. split; [apply suffix_cons_r; reflexivity | exact Hm].
  - apply andb_true_iff in Hf as [Hfa Hfb].
    destruct (IHa s cs _ res Hfa Hm) as (s1 & Hs1 & Hb).
    destruct (IHb s1 cs k res Hfb Hb) as (s' & Hs' & Hk).
    exists s'. split; [etransitivity; eassumption | exact Hk].
  - apply andb_true_iff in Hf as [Hfa Hfb]. unfold orelse in Hm.
    destruct (rmatch U a s cs k) as [res'|] eqn:Ea.
    + injection Hm as ->. exact (IHa s cs k res Hfa Ea).
    + exact (IHb s cs k res Hfb Hm).
  - apply (star_loop_capture_free (rmatch U a) g k) with (n := length s); [|exact Hm].
    intros s1 cs1 h res1. apply IHa, Hf.
  - discriminate Hf.
  - destruct (rmatch U a s cs _) as [[s1 cs1]|] eqn:Ea.
    + destruct p; [|discriminate Hm].
      destruct (IHa s cs _ _ Hf Ea) as (s2 & _ & [= _ <-]).
      exists s. split; [reflexivity | exact Hm].
    + destruct p; [discriminate Hm|]. exists s. split; [reflexivity | exact Hm].
  - exists s. split; [reflexivity|].
    destruct s as [|x [|y t]]; [exact Hm | | discriminate Hm].
    destruct (x =? 10)%N; [exact Hm | discriminate Hm].
  - exists s. split; [reflexivity|]. destruct s; [exact Hm | discriminate Hm].
Qed.

(** A match of the pattern holds a match of its part from the trigger on,
    at a place where the text starts with a trigger. *)
Lemma trigger_cut_sound (r : re) : forall K s cs (k : kont) res,
  trigger_cut r = Some K -> rmatch U r s cs k = Some res ->
  exists s', s' `suffix_of` s /\ triggered s' = true /\ rmatch U K s' cs k = Some res.
Proof.
  assert (forall (r : re) s cs (k : kont) res,
            forallb triggered (heads r) = true -> rmatch U r s cs k = Some res ->
            triggered s = true) as Hroot.
  { intros r0 s cs k res Hall Hm.
    destruct (heads_sound r0 s cs k res Hm) as (h & Hh & Hpre).
    rewrite forallb_forall in Hall. specialize (Hall h (proj1 (list_elem_of_In _ _) Hh)).
    unfold triggered in *. apply existsb_exists in Hall as (w & Hw & Hwh).
    apply existsb_exists. exists w. split; [exact Hw|].
    exact (is_prefix_trans w h s Hwh Hpre). }
  induction r as [|neg items|a IHa b IHb|a IHa b IHb|g a IHa|i a IHa|p a IHa| |];
    intros K s cs k res Hcut Hm; cbn [trigger_cut] in Hcut;
    match type of Hcut with
    | (if forallb triggered ?hs then _ else _) = _ => destruct (forallb triggered hs) eqn:Hall
    end;
    try discriminate Hcut;
    try (injection Hcut as <-; exists s; split; [reflexivity|];
         split; [exact (Hroot _ s cs k res Hall Hm) | exact Hm]).
  destruct (capture_free a) eqn:Hfa; [|discriminate Hcut]. cbn [rmatch] in Hm.
  destruct (capture_free_sound a s cs _ res Hfa Hm) as (s1 & Hs1 & Hb).
  destruct (IHb K s1 cs k res Hcut Hb) as (s' & Hs' & Ht & HK).
  exists s'. split; [etransitivity; eassumption|]. split; assumption.
Qed.

Lemma quiet_cons c pre rest :
  quiet (c :: pre) rest = true ->
  triggered (c :: pre ++ rest) = false /\ quiet pre rest = true.
Proof.
  cbn [quiet]. intros [Ht Hq]%andb_true_iff. apply negb_true_iff in Ht. split; assumption.
Qed.

(** After a quiet part, a trigger starts in the rest. *)
Lemma quiet_suffix pre rest s :
  quiet pre rest = true -> s `suffix_of` (pre ++ rest) -> triggered s = true ->
  s `suffix_of` rest.
Proof.
  induction pre as [|c pre IH]; intros Hq Hs Ht; [exact Hs|].
  apply quiet_cons in Hq as [Hc Hq]. cbn [app] in Hs.
  apply suffix_cons_cases in Hs as [->|Hs]; [congruence | exact (IH Hq Hs Ht)].
Qed.

Lemma quiet_lstrip pre rest : quiet pre rest = true -> quiet (lstrip pre) rest = true.
Proof.
  induction pre as [|c pre IH]; [trivial|].
  intros Hq. cbn [lstrip]. destruct (isspace c); [|exact Hq].
  apply IH. apply quiet_cons in Hq. apply Hq.
Qed.

Lemma scan_found r s m :
  scan U r s = Some m ->
  exists t m0, t `suffix_of` s /\ here U r t = Some m0 /\ m_groups m = m_groups m0.
Proof.
  revert m. induction s as [|c s IH]; intros m; cbn [scan].
  - destruct (here U r []) as [m0|] eqn:E; [|discriminate].
    intros [= <-]. exists [], m0. split; [reflexivity|]. split; [exact E | reflexivity].
  - destruct (here U r (c :: s)) as [m0|] eqn:E.
    + intros [= <-]. exists (c :: s), m0. split; [reflexivity|]. split; [exact E | reflexivity].
    + destruct (scan U r s) as [m1|]; [|discriminate]. intros [= <-].
      destruct (IH m1 eq_refl) as (t & m0 & Ht & Hh & Hg).
      exists t, m0. split; [apply suffix_cons_r, Ht|]. split; [exact Hh | exact Hg].
Qed.

Lemma scan_reaches r pre rest :
  is_Some (scan U r rest) -> is_Some (scan U r (pre ++ rest)).
Proof.
  intros Hrest. induction pre as [|c pre IH]; [exact Hrest|]. cbn [app scan].
  destruct (here U r (c :: pre ++ rest)); [eauto|].
  destruct IH as [m ->]. eexists. reflexivity.
Qed.

(** The first group of what a pattern finds after a quiet part. *)
Lemma search_outcome p K pre line m :
  trigger_cut (body p) = Some K -> quiet pre line = true ->
  search U p (pre ++ line) = Some m -> group1 m ∈ outcomes U K line.
Proof.
  intros Hcut Hq Hsearch.
  assert (exists t m0, t `suffix_of` (pre ++ line) /\ here U (body p) t = Some m0
                       /\ m_groups m = m_groups m0) as (t & m0 & Ht & Hhere & Hg).
  { unfold search in Hsearch. destruct (anchored p); [|exact (scan_found _ _ _ Hsearch)].
    exists (pre ++ line), m. split; [reflexivity|]. split; [exact Hsearch | reflexivity]. }
  unfold group1. rewrite Hg. unfold here in Hhere.
  destruct (match_here U (body p) t) as [[rest cs]|] eqn:E; [|discriminate Hhere].
  injection Hhere as <-. cbn [m_groups]. unfold match_here in E.
  destruct (trigger_cut_sound (body p) K t [] _ _ Hcut E) as (s' & Hs' & Htrig & HK).
  assert (s' `suffix_of` line) as Hline.
  { apply (quiet_suffix pre line s' Hq); [etransitivity; eassumption | exact Htrig]. }
  unfold outcomes. apply list_elem_of_omap. exists s'. split; [apply tails_suffix, Hline|].
  unfold match_here. rewrite HK. reflexivity.
Qed.

Section Stage.
Variable read : str -> option (list str).
Variable dotall : bool.
Variables (line : str) (result : list str).

Let stage (text : str) (pat : string) : option (list str) :=
  match search U (compile dotall pat) text with
  | Some m => read (group1 m)
  | None => None
  end.

Lemma stage_settled pre pat :
  settles U read dotall line result pat = true -> quiet pre line = true ->
  stage (pre ++ line) pat = None \/ stage (pre ++ line) pat = Some result.
Proof.
  unfold settles, stage. intros Hs Hq.
  destruct (trigger_cut (body (compile dotall pat))) as [K|] eqn:Hcut; [|discriminate Hs].
  destruct (search U (compile dotall pat) (pre ++ line)) as [m|] eqn:E; [|left; reflexivity].
  pose proof (search_outcome _ K pre line m Hcut Hq E) as Hin.
  rewrite forallb_forall in Hs. specialize (Hs _ (proj1 (list_elem_of_In _ _) Hin)).
  destruct (read (group1 m)) as [l|]; [|left; reflexivity].
  apply bool_decide_eq_true in Hs. subst l. right. reflexivity.
Qed.

Lemma stage_decided pre pat :
  decides U read dotall line result pat = true -> quiet pre line = true ->
  stage (pre ++ line) pat = Some result.
Proof.
  unfold decides, stage. intros Hd Hq.
  apply andb_true_iff in Hd as [Hd Hall]. apply andb_true_iff in Hd as [Hanch Hhere].
  apply negb_true_iff in Hanch. apply bool_decide_eq_true in Hhere.
  destruct (trigger_cut (body (compile dotall pat))) as [K|] eqn:Hcut; [|discriminate Hall].
  assert (is_Some (search U (compile dotall pat) (pre ++ line))) as [m E].
  { unfold search. rewrite Hanch. apply scan_reaches.
    destruct line as [|c l]; cbn [scan]; destruct Hhere as [m0 ->]; eauto. }
  rewrite E. pose proof (search_outcome _ K pre line m Hcut Hq E) as Hin.
  rewrite forallb_forall in Hall. specialize (Hall _ (proj1 (list_elem_of_In _ _) Hin)).
  apply bool_decide_eq_true in Hall. exact Hall.
Qed.

Lemma stage_silent pre pat :
  silent U dotall line pat = true -> quiet pre line = true ->
  search U (compile dotall pat) (pre ++ line) = None.
Proof.
  unfold silent. intros Hs Hq.
  destruct (trigger_cut (body (compile dotall pat))) as [K|] eqn:Hcut; [|discriminate Hs].
  destruct (search U (compile dotall pat) (pre ++ line)) as [m|] eqn:E; [|reflexivity].
  pose proof (search_outcome _ K pre line m Hcut Hq E) as Hin.
  destruct (outcomes U K line); [inversion Hin | discriminate Hs].
Qed.

Lemma stages_decided pre (ps : list string) (n : nat) :
  stage_decides U read dotall line result ps n = true -> quiet pre line = true ->
  first_return (stage (pre ++ line)) ps = Some result.
Proof.
  unfold stage_decides. intros [Hbefore Hn]%andb_true_iff Hq.
  destruct (ps !! n) as [pat|] eqn:En; [|discriminate Hn].
  rewrite <- (take_drop_middle ps n pat En).
  pose proof (stage_decided pre pat Hn Hq) as Hdec.
  rewrite forallb_forall in Hbefore.
  assert (forall q, q ∈ take n ps ->
                    stage (pre ++ line) q = None \/ stage (pre ++ line) q = Some result) as Hs.
  { intros q Hin. apply stage_settled; [|exact Hq]. apply Hbefore, list_elem_of_In, Hin. }
  clear Hbefore. induction (take n ps) as [|q l IH]; cbn [app first_return].
  - rewrite Hdec. reflexivity.
  - destruct (Hs q ltac:(left)) as [-> | ->]; [|reflexivity].
    apply IH. intros q' Hq'. apply Hs. right. exact Hq'.
Qed.

End Stage.

Lemma patterns_decided pre line result n :
  stage_decides U (read_pattern U) false line result patterns n = true ->
  quiet pre line = true ->
  first_return (try_pattern U (pre ++ line)) patterns = Some result.
Proof. exact (stages_decided (read_pattern U) false line result pre patterns n). Qed.

Lemma final_patterns_decided pre line result n :
  stage_decides U (read_final U) true line result final_patterns n = true ->
  quiet pre line = true ->
  first_return (try_final_pattern U (pre ++ line)) final_patterns = Some result.
Proof. exact (stages_decided (read_final U) true line result pre final_patterns n). Qed.

Lemma numbered_after_title_silent pre line :
  silent U true line
    "EIF功能点列表[：:]\s*\*?\*?\s*\n((?:\d+\.\s*\*\*[^\*]+\*\*[^\n]*\n?)+)" = true ->
  quiet pre line = true ->
  try_numbered_after_title U (pre ++ line) = None.
Proof.
  intros Hs Hq. unfold try_numbered_after_title.
  rewrite (stage_silent true line pre _ Hs Hq). reflexivity.
Qed.

End TriggerFacts.


(** ** Extraction of a labelled answer *)

Section ExtractFacts.
Variable U : unicode_tables.

Lemma first_return_app {A B} (f : A -> option B) l1 l2 :
  first_return f (l1 ++ l2) = orelse (first_return f l1) (first_return f l2).
Proof.
  induction l1 as [|a l1 IH]; [reflexivity|].
  cbn [app first_return]. destruct (f a); [reflexivity | exact IH].
Qed.

Lemma first_return_ext {A B} (f g : A -> option B) l :
  Forall (fun a => f a = g a) l -> first_return f l = first_return g l.
Proof.
  induction 1 as [|a l Ha _ IH]; [reflexivity|].
  cbn [first_return]. rewrite Ha, IH. reflexivity.
Qed.

Lemma length_lstrip s : (length (lstrip s) <= length s)%nat.
Proof.
  induction s as [|c s IH]; [reflexivity|].
  cbn [lstrip]. destruct (isspace c); cbn [length]; lia.
Qed.

Lemma lstrip_fixed s : lstrip s = s -> s <> [] -> exists c s', s = c :: s' /\ isspace c = false.
Proof.
  destruct s as [|c s]; [congruence|]. intros H _. exists c, s. split; [reflexivity|].
  cbn [lstrip] in H. destruct (isspace c); [|reflexivity].
  pose proof (length_lstrip s) as Hlen. rewrite H in Hlen. cbn in Hlen. lia.
Qed.

Lemma lstrip_app pre s : lstrip s = s -> lstrip (pre ++ s) = lstrip pre ++ s.
Proof.
  intros Hs. induction pre as [|c pre IH]; [exact Hs|].
  cbn [app lstrip]. destruct (isspace c); [exact IH | reflexivity].
Qed.

(** Trimming a text that ends in an already trimmed, non-empty piece trims
    its front only. *)
Lemma strip_app pre s :
  lstrip s = s -> rstrip s = s -> s <> [] -> strip (pre ++ s) = lstrip pre ++ s.
Proof.
  intros Hl Hr Hne. unfold strip. rewrite (lstrip_app pre s Hl).
  unfold rstrip in *. rewrite rev_app_distr.
  assert (lstrip (rev s) = rev s) as Hrev.
  { rewrite <- Hr at 2. rewrite rev_involutive. reflexivity. }
  destruct (lstrip_fixed (rev s) Hrev) as (c & s' & Hs & Hc).
  { intros Hnil. apply Hne. rewrite <- (rev_involutive s), Hnil. reflexivity. }
  rewrite Hs. cbn [app lstrip]. rewrite Hc.
  change (c :: s' ++ rev (lstrip pre)) with ((c :: s') ++ rev (lstrip pre)).
  rewrite <- Hs, rev_app_distr, !rev_involutive. reflexivity.
Qed.

Lemma falsy_app (pre s : str) : falsy s = false -> falsy (pre ++ s) = false.
Proof. destruct pre; [trivial | reflexivity]. Qed.

End ExtractFacts.


Section AnswerLine.
Variable U : unicode_tables.

(** What the extractor returns on a text that ends in [line], when the
    part before it is quiet: what its labelled stages return. *)
Lemma extract_answer_after_quiet_prefix (pre line : str) (result : list str) :
  lstrip line = line -> rstrip line = line -> line <> [] ->
  (forall pre', quiet pre' line = true ->
     first_return (try_final_pattern U (pre' ++ line)) final_patterns = Some result) ->
  (forall pre', quiet pre' line = true ->
     try_numbered_after_title U (pre' ++ line) = None) ->
  (forall pre', quiet pre' line = true ->
     first_return (try_pattern U (pre' ++ line)) patterns = Some result) ->
  quiet pre line = true ->
  extract_answer U (pre ++ line) = result.
Proof.
  intros Hl Hr Hne Hlong Htitle Hshort Hq.
  apply (quiet_lstrip pre) in Hq. unfold extract_answer.
  rewrite falsy_app by (destruct line; [congruence | reflexivity]).
  rewrite (strip_app pre line Hl Hr Hne).
  destruct (500 <? length _)%nat.
  - rewrite (Hlong _ Hq). reflexivity.
  - rewrite (Htitle _ Hq), (Hshort _ Hq). reflexivity.
Qed.

End AnswerLine.

Section KnownCharacters.
Variable U : unicode_tables.
Variable known : str.
Hypothesis known_no_digit : no_digit U known.

Lemma without_digits_same c : isdecimal U c = isdecimal (without_digits U known) c.
Proof.
  cbn [without_digits isdecimal].
  destruct (existsb (N.eqb c) known) eqn:E; [|reflexivity].
  apply existsb_exists in E as (d & Hin & Heq). apply N.eqb_eq in Heq. subst d.
  unfold no_digit in known_no_digit. rewrite Forall_forall in known_no_digit.
  apply known_no_digit, list_elem_of_In, Hin.
Qed.

Lemma final_stage_without_digits line ps :
  first_return (try_final_pattern U line) ps
  = first_return (try_final_pattern (without_digits U known) line) ps.
Proof.
  apply first_return_ext, Forall_forall. intros pat _.
  apply try_final_pattern_tables, without_digits_same.
Qed.

Lemma pattern_stage_without_digits line ps :
  first_return (try_pattern U line) ps
  = first_return (try_pattern (without_digits U known) line) ps.
Proof.
  apply first_return_ext, Forall_forall. intros pat _.
  apply try_pattern_tables, without_digits_same.
Qed.

Lemma title_stage_without_digits line :
  try_numbered_after_title U line
  = try_numbered_after_title (without_digits U known) line.
Proof. apply try_numbered_after_title_tables, without_digits_same. Qed.

End KnownCharacters.

(** The labelled stages are checked on the line alone, with a table of
    digits that is known on the characters of the line. *)
Lemma answer_line_read (U : unicode_tables) (known pre line : str) (result : list str)
    (n_final n_short : nat) :
  no_digit U known ->
  lstrip line = line -> rstrip line = line -> line <> [] ->
  stage_decides (without_digits U known) (read_final (without_digits U known)) true
    line result final_patterns n_final = true ->
  silent (without_digits U known) true line
    "EIF功能点列表[：:]\s*\*?\*?\s*\n((?:\d+\.\s*\*\*[^\*]+\*\*[^\n]*\n?)+)" = true ->
  stage_decides (without_digits U known) (read_pattern (without_digits U known)) false
    line result patterns n_short = true ->
  quiet pre line = true ->
  extract_answer U (pre ++ line) = result.
Proof.
  intros Hd Hl Hr Hne Hfinal Htitle Hshort Hq.
  apply extract_answer_after_quiet_prefix; try assumption.
  - intros pre' Hq'. rewrite (final_stage_without_digits U known Hd).
    exact (final_patterns_decided _ pre' line result n_final Hfinal Hq').
  - intros pre' Hq'. rewrite (title_stage_without_digits U known Hd).
    exact (numbered_after_title_silent _ pre' line Htitle Hq').
  - intros pre' Hq'. rewrite (pattern_stage_without_digits U known Hd).
    exact (patterns_decided _ pre' line result n_short Hshort Hq').
Qed.

Lemma extract_two_names (U : unicode_tables) (pre colon : str) :
  colon ∈ colons ->
  no_digit U answer_alphabet ->
  quiet pre (answer_line colon (utf8 "[Job Info, Employee Info]")) = true ->
  extract_answer U (pre ++ answer_line colon (utf8 "[Job Info, Employee Info]"))
  = [utf8 "Job Info"; utf8 "Employee Info"].
Proof.
  intros Hcolon Hd Hq. unfold colons in Hcolon.
  repeat (apply elem_of_cons in Hcolon as [->|Hcolon]); [| | | | inversion Hcolon];
    (apply (answer_line_read U answer_alphabet pre _ _ 5 6 Hd);
     first [ exact Hq | vm_compute; first [reflexivity | congruence] ]).
Qed.

Lemma extract_no_name (U : unicode_tables) (pre colon : str) :
  colon ∈ colons ->
  no_digit U answer_alphabet ->
  quiet pre (answer_line colon (utf8 "none")) = true ->
  extract_answer U (pre ++ answer_line colon (utf8 "none")) = [].
Proof.
  intros Hcolon Hd Hq. unfold colons in Hcolon.
  repeat (apply elem_of_cons in Hcolon as [->|Hcolon]); [| | | | inversion Hcolon];
    (apply (answer_line_read U answer_alphabet pre _ _ 6 8 Hd);
     first [ exact Hq | vm_compute; first [reflexivity | congruence] ]).
Qed.



(** * Further properties of the parser and of the scorer *)

(** ** Trimming and splitting *)

Lemma lstrip_idem s : lstrip (lstrip s) = lstrip s.
Proof.
  induction s as [|c s IH]; [reflexivity|]. cbn [lstrip].
  destruct (isspace c) eqn:Hc; [exact IH | cbn [lstrip]; rewrite Hc; reflexivity].
Qed.

Lemma lstrip_snoc_solid s c : isspace c = false -> lstrip (s ++ [c]) = lstrip s ++ [c].
Proof.
  intros Hc. induction s as [|d s IH]; cbn [app lstrip]; [rewrite Hc; reflexivity|].
  destruct (isspace d); [exact IH | reflexivity].
Qed.

Lemma rstrip_cons_solid c s : isspace c = false -> rstrip (c :: s) = c :: rstrip s.
Proof.
  intros Hc. unfold rstrip. cbn [rev]. rewrite lstrip_snoc_solid by exact Hc.
  rewrite rev_app_distr. reflexivity.
Qed.

Lemma rstrip_snoc_solid y c : isspace c = false -> rstrip (y ++ [c]) = y ++ [c].
Proof.
  intros Hc. unfold rstrip. rewrite rev_app_distr. cbn [rev app lstrip]. rewrite Hc.
  cbn [rev]. rewrite rev_involutive. reflexivity.
Qed.

Lemma lstrip_rstrip s : lstrip s = s -> lstrip (rstrip s) = rstrip s.
Proof.
  destruct s as [|c s]; [reflexivity|]. cbn [lstrip]. destruct (isspace c) eqn:Hc.
  - intros H. pose proof (length_lstrip s) as Hlen. rewrite H in Hlen. cbn in Hlen. lia.
  - intros _. rewrite rstrip_cons_solid by exact Hc. cbn [lstrip]. rewrite Hc. reflexivity.
Qed.

Lemma rstrip_idem s : rstrip (rstrip s) = rstrip s.
Proof. unfold rstrip. rewrite rev_involutive, lstrip_idem. reflexivity. Qed.

Lemma strip_idem s : strip (strip s) = strip s.
Proof.
  unfold strip. rewrite (lstrip_rstrip (lstrip s)) by apply lstrip_idem. apply rstrip_idem.
Qed.

Lemma lstrip_blank s : forallb isspace s = true -> lstrip s = [].
Proof.
  induction s as [|c s IH]; [reflexivity|]. cbn [forallb lstrip].
  intros [Hc Hs]%andb_true_iff. rewrite Hc. exact (IH Hs).
Qed.

Lemma strip_blank s : forallb isspace s = true -> strip s = [].
Proof. intros H. unfold strip. rewrite (lstrip_blank s H). reflexivity. Qed.

Lemma split_from_solid s : forall tok,
  Forall (fun c => isspace c = false) tok -> Forall solid (split_from tok s).
Proof.
  induction s as [|c s IH]; intros tok Htok; cbn [split_from].
  - destruct tok; [constructor|].
    constructor; [split; [discriminate | exact Htok] | constructor].
  - destruct (isspace c) eqn:Hc.
    + destruct tok; [apply IH; constructor|].
      constructor; [split; [discriminate | exact Htok] | apply IH; constructor].
    + apply IH. apply Forall_app. split; [exact Htok|]. repeat constructor. exact Hc.
Qed.

(** The words of [str.split] are not empty and hold no whitespace. *)
Lemma split_solid s : Forall solid (split s).
Proof. apply split_from_solid. constructor. Qed.

Lemma split_from_app_solid w :
  Forall (fun c => isspace c = false) w ->
  forall tok s, split_from tok (w ++ s) = split_from (tok ++ w) s.
Proof.
  induction 1 as [|c w Hc _ IH]; intros tok s; [rewrite app_nil_r; reflexivity|].
  cbn [app split_from]. rewrite Hc, IH, <- app_assoc. reflexivity.
Qed.

(** Splitting what was joined with single spaces gives the words back. *)
Lemma split_join ws : Forall solid ws -> split (join (utf8 " ") ws) = ws.
Proof.
  induction 1 as [|w ws [Hne Hw] _ IH]; [reflexivity|]. destruct ws as [|w2 ws].
  - cbn [join]. unfold split. rewrite <- (app_nil_r w) at 1.
    rewrite split_from_app_solid by exact Hw. cbn [app split_from].
    destruct w; [congruence | reflexivity].
  - change (join (utf8 " ") (w :: w2 :: ws))
      with (w ++ 32%N :: join (utf8 " ") (w2 :: ws)).
    unfold split. rewrite split_from_app_solid by exact Hw.
    cbn [app split_from]. change (isspace 32%N) with true. cbv iota.
    destruct w; [congruence|]. f_equal. exact IH.
Qed.

Lemma collapse_idem s :
  join (utf8 " ") (split (join (utf8 " ") (split s))) = join (utf8 " ") (split s).
Proof. rewrite split_join by apply split_solid. reflexivity. Qed.

Lemma solid_last w : solid w -> exists y c, w = y ++ [c] /\ isspace c = false.
Proof.
  intros [Hne Hw]. destruct (rev w) as [|c y] eqn:Hr.
  - apply (f_equal (@rev char)) in Hr. rewrite rev_involutive in Hr. contradiction.
  - apply (f_equal (@rev char)) in Hr. rewrite rev_involutive in Hr. cbn [rev] in Hr.
    exists (rev y), c. split; [exact Hr|].
    rewrite Forall_forall in Hw. apply Hw. rewrite Hr.
    apply elem_of_app. right. left.
Qed.

Lemma join_solid_last ws :
  Forall solid ws -> ws <> [] ->
  exists y c, join (utf8 " ") ws = y ++ [c] /\ isspace c = false.
Proof.
  induction 1 as [|w ws Hw Hws IH]; [congruence|]. intros _. destruct ws as [|w2 ws].
  - cbn [join]. apply solid_last, Hw.
  - destruct IH as (y & c & Hy & Hc); [discriminate|].
    exists (w ++ utf8 " " ++ y), c. split; [|exact Hc].
    change (join (utf8 " ") (w :: w2 :: ws))
      with (w ++ utf8 " " ++ join (utf8 " ") (w2 :: ws)).
    rewrite Hy, <- !app_assoc. reflexivity.
Qed.

(** Words joined with single spaces have no whitespace at either end. *)
Lemma strip_join_solid ws :
  Forall solid ws -> strip (join (utf8 " ") ws) = join (utf8 " ") ws.
Proof.
  intros Hws. destruct ws as [|w ws]; [reflexivity|].
  destruct (join_solid_last (w :: ws) Hws) as (y & c & Hy & Hc); [discriminate|].
  unfold strip.
  assert (lstrip (join (utf8 " ") (w :: ws)) = join (utf8 " ") (w :: ws)) as ->.
  { apply Forall_cons in Hws as [[Hne Hw] _]. destruct w as [|d w]; [congruence|].
    apply Forall_cons in Hw as [Hd _].
    destruct ws; cbn [join app lstrip]; rewrite Hd; reflexivity. }
  rewrite Hy. apply rstrip_snoc_solid, Hc.
Qed.

Lemma split_from_all P s : forall tok,
  Forall P tok -> Forall P s -> Forall (Forall P) (split_from tok s).
Proof.
  induction s as [|c s IH]; intros tok Htok Hs; cbn [split_from].
  - destruct tok; [constructor | constructor; [exact Htok | constructor]].
  - apply Forall_cons in Hs as [Hc Hs]. destruct (isspace c).
    + destruct tok; [apply IH; [constructor | exact Hs]|].
      constructor; [exact Htok | apply IH; [constructor | exact Hs]].
    + apply IH; [|exact Hs]. apply Forall_app. split; [exact Htok | repeat constructor; exact Hc].
Qed.

Lemma join_all P sep (l : list str) :
  Forall P sep -> Forall (Forall P) l -> Forall P (join sep l).
Proof.
  intros Hsep. induction 1 as [|x l Hx Hl IH]; [constructor|].
  destruct l as [|x' l]; [exact Hx|].
  change (join sep (x :: x' :: l)) with (x ++ sep ++ join sep (x' :: l)).
  rewrite !Forall_app. auto.
Qed.

(** Collapsing the whitespace keeps what holds of every character and of
    the space. *)
Lemma collapse_all (P : char -> Prop) s :
  P 32%N -> Forall P s -> Forall P (join (utf8 " ") (split s)).
Proof.
  intros Hsp Hs. apply join_all; [repeat constructor; exact Hsp|].
  apply split_from_all; [constructor | exact Hs].
Qed.

(** ** Patterns that read one character of a class *)

Lemma filter_take_drop (p : char -> bool) (s : str) :
  List.filter p s = take_while p s ++ List.filter p (drop_while p s).
Proof.
  induction s as [|c s IH]; [reflexivity|]. cbn [take_while drop_while List.filter].
  destruct (p c) eqn:Hc; [rewrite IH; reflexivity|].
  cbn [List.filter app]. rewrite Hc. reflexivity.
Qed.

Lemma length_drop_while (p : char -> bool) (s : str) :
  (length (drop_while p s) <= length s)%nat.
Proof.
  induction s as [|c s IH]; [reflexivity|]. cbn [drop_while].
  destruct (p c); cbn [length]; lia.
Qed.

Lemma pieces_from_step (sep : char -> bool) (s : str) : forall piece,
  pieces_from sep piece s =
  match drop_while (fun c => negb (sep c)) s with
  | [] => [piece ++ s]
  | _ :: rest => (piece ++ take_while (fun c => negb (sep c)) s) :: pieces sep rest
  end.
Proof.
  induction s as [|c s IH]; intros piece; cbn [pieces_from drop_while take_while].
  - rewrite app_nil_r. reflexivity.
  - destruct (sep c); cbn [negb]; [rewrite app_nil_r; reflexivity|].
    rewrite IH. destruct (drop_while _ s); rewrite <- app_assoc; reflexivity.
Qed.

Section ClassFacts.
Variable U : unicode_tables.
Variables (neg : bool) (items : list citem).

Lemma here_class c s :
  here U (Chr neg items) (c :: s) =
  if chr_ok U neg items c
  then Some {| m_before := []; m_text := [c]; m_groups := []; m_after := s |}
  else None.
Proof.
  unfold here, match_here. cbn [rmatch]. destruct (chr_ok U neg items c); [|reflexivity].
  replace (length (c :: s) - length s)%nat with 1%nat by (cbn [length]; lia).
  reflexivity.
Qed.

(** The leftmost match is the first character of the class. *)
Lemma scan_class s :
  scan U (Chr neg items) s =
  match drop_while (fun c => negb (chr_ok U neg items c)) s with
  | [] => None
  | c :: rest =>
      Some {| m_before := take_while (fun c => negb (chr_ok U neg items c)) s;
              m_text := [c]; m_groups := []; m_after := rest |}
  end.
Proof.
  induction s as [|c s IH]; [reflexivity|].
  cbn [scan]. rewrite here_class. cbn [drop_while take_while].
  destruct (chr_ok U neg items c); cbn [negb]; [reflexivity|].
  rewrite IH. destruct (drop_while _ s); reflexivity.
Qed.

Lemma matches_from_class fuel : forall start s,
  (length s < fuel)%nat ->
  remove_matches (matches_from U fuel (class_pattern neg items) start s) s
  = List.filter (fun c => negb (chr_ok U neg items c)) s /\
  split_at (matches_from U fuel (class_pattern neg items) start s) s
  = pieces (chr_ok U neg items) s.
Proof.
  induction fuel as [|f IH]; intros start s Hlen; [lia|].
  cbn [matches_from]. unfold search.
  change (anchored (class_pattern neg items)) with false.
  change (body (class_pattern neg items)) with (Chr neg items).
  cbn [andb]. rewrite scan_class.
  unfold pieces. rewrite pieces_from_step, filter_take_drop.
  pose proof (length_drop_while (fun c => negb (chr_ok U neg items c)) s) as Hd.
  pose proof (take_drop_while (fun c => negb (chr_ok U neg items c)) s) as Hs.
  destruct (drop_while _ s) as [|c rest] eqn:E.
  - rewrite app_nil_r in *. cbn [remove_matches split_at List.filter]. rewrite Hs.
    split; reflexivity.
  - cbn [m_text m_after remove_matches split_at m_before].
    destruct (IH false rest) as [Hr Hp]; [cbn [length] in Hd; lia|].
    rewrite Hr, Hp.
    apply drop_while_head in E. cbn [List.filter]. rewrite E. split; reflexivity.
Qed.

(** Removing every character of a class is a filter. *)
Lemma sub_empty_class s :
  sub_empty U (class_pattern neg items) s
  = List.filter (fun c => negb (chr_ok U neg items c)) s.
Proof. apply matches_from_class. cbn [length]. lia. Qed.

(** Splitting at every character of a class. *)
Lemma re_split_class s :
  re_split U (class_pattern neg items) s = pieces (chr_ok U neg items) s.
Proof. apply matches_from_class. cbn [length]. lia. Qed.

End ClassFacts.

Lemma pieces_from_clear (sep : char -> bool) (s : str) : forall piece,
  Forall (fun c => sep c = false) piece ->
  Forall (Forall (fun c => sep c = false)) (pieces_from sep piece s).
Proof.
  induction s as [|c s IH]; intros piece Hp; cbn [pieces_from].
  - repeat constructor. exact Hp.
  - destruct (sep c) eqn:Hc.
    + constructor; [exact Hp | apply IH; constructor].
    + apply IH. apply Forall_app. split; [exact Hp | repeat constructor; exact Hc].
Qed.

(** No piece holds a separator. *)
Lemma pieces_clear (sep : char -> bool) (s : str) :
  Forall (Forall (fun c => sep c = false)) (pieces sep s).
Proof. apply pieces_from_clear. constructor. Qed.

(** ** What [_clean_eif_name] returns *)

Lemma bracket_pattern_compiled :
  compile false "[\[\]]" = class_pattern false [CChar 91%N; CChar 93%N].
Proof. vm_compute. reflexivity. Qed.

Lemma clean_eif_name_shape U name :
  exists y, clean_eif_name U name = join (utf8 " ") (split y) /\ bracket_free y.
Proof.
  unfold clean_eif_name. eexists. split; [reflexivity|].
  rewrite bracket_pattern_compiled, sub_empty_class.
  apply Forall_forall. intros c Hc%list_elem_of_In%filter_In. destruct Hc as [_ Hc].
  unfold chr_ok in Hc. cbn [existsb citem_mem xorb orb] in Hc.
  split; intros ->; cbn in Hc; discriminate.
Qed.

Lemma clean_eif_name_tidy (U : unicode_tables) (name : str) :
  tidy (clean_eif_name U name).
Proof.
  destruct (clean_eif_name_shape U name) as (y & -> & Hy). split; [|split].
  - apply strip_join_solid, split_solid.
  - apply collapse_idem.
  - apply collapse_all; [split; discriminate | exact Hy].
Qed.

(** X1. Whatever the name, [_clean_eif_name] returns a text without
    whitespace at either end, with single spaces between its words, and
    without square brackets. *)
Theorem clean_eif_name_is_tidy (U : unicode_tables) (name : str) :
  strip (clean_eif_name U name) = clean_eif_name U name /\
  join (utf8 " ") (split (clean_eif_name U name)) = clean_eif_name U name /\
  bracket_free (clean_eif_name U name).
Proof. exact (clean_eif_name_tidy U name). Qed.

(** ** What [extract_answer] returns *)

Lemma filter_clean U (q : str -> bool) (g : str -> str) (L : list str) :
  (forall x, q x = true -> truthy x = true) ->
  Forall (produced U) (List.filter q (map (fun item => clean_eif_name U (g item)) L)).
Proof.
  intros Hq. apply Forall_forall. intros x Hx%list_elem_of_In%filter_In.
  destruct Hx as [Hin Hx]. apply in_map_iff in Hin as (y & <- & _).
  split; [|eexists; reflexivity].
  apply Hq in Hx. destruct (clean_eif_name U (g y)); [discriminate Hx | discriminate].
Qed.

Lemma first_return_Some {A B} (f : A -> option B) l b :
  first_return f l = Some b -> exists a, f a = Some b.
Proof.
  induction l as [|a l IH]; [discriminate|]. cbn [first_return].
  destruct (f a) eqn:E; [intros [= <-]; exists a; exact E | exact IH].
Qed.

Lemma orelse_inv {A} (x y : option A) v :
  orelse x y = Some v -> x = Some v \/ y = Some v.
Proof. destruct x; cbn [orelse]; auto. Qed.

(** Every stage that returns a list returns names that went through
    [_clean_eif_name] and the test for emptiness. *)
Ltac produced_stage H :=
  cbv zeta in H;
  repeat match type of H with
         | match ?x with _ => _ end = Some _ => destruct x; try discriminate H
         end;
  injection H as <-;
  first [ apply filter_clean; intros x Hx; rewrite ?andb_true_iff in Hx; tauto
        | constructor ].

Section StageFacts.
Variable U : unicode_tables.

Lemma try_final_pattern_produced text pat l :
  try_final_pattern U text pat = Some l -> Forall (produced U) l.
Proof. unfold try_final_pattern. intros H. produced_stage H. Qed.

Lemma try_text_tail_produced text l :
  try_text_tail U text = Some l -> Forall (produced U) l.
Proof. unfold try_text_tail. intros H. produced_stage H. Qed.

Lemma try_numbered_after_title_produced text l :
  try_numbered_after_title U text = Some l -> Forall (produced U) l.
Proof. unfold try_numbered_after_title. intros H. produced_stage H. Qed.

Lemma try_pattern_produced text pat l :
  try_pattern U text pat = Some l -> Forall (produced U) l.
Proof. unfold try_pattern. intros H. produced_stage H. Qed.

Lemma try_simple_produced text l :
  try_simple U text = Some l -> Forall (produced U) l.
Proof. unfold try_simple. intros H. produced_stage H. Qed.

Lemma try_single_produced text l :
  try_single U text = Some l -> Forall (produced U) l.
Proof.
  unfold try_single. destruct (_ && _); [|discriminate]. cbv zeta.
  destruct (truthy (clean_eif_name U text)) eqn:E; [|discriminate].
  intros [= <-]. repeat constructor; [|eexists; reflexivity].
  intros Hnil. rewrite Hnil in E. discriminate.
Qed.

Lemma try_bold_list_produced text l :
  try_bold_list U text = Some l -> Forall (produced U) l.
Proof. unfold try_bold_list. intros H. produced_stage H. Qed.

Lemma try_plain_list_produced text l :
  try_plain_list U text = Some l -> Forall (produced U) l.
Proof. unfold try_plain_list. intros H. produced_stage H. Qed.

Lemma extract_unlabelled_produced text :
  Forall (produced U) (extract_unlabelled U text).
Proof.
  unfold extract_unlabelled. cbv zeta.
  destruct (mem _ _); [constructor|].
  match goal with |- Forall _ (default [] ?o) => destruct o as [l|] eqn:E end;
    [|constructor].
  cbn [default].
  apply orelse_inv in E as [E|E]; [exact (try_simple_produced _ _ E)|].
  apply orelse_inv in E as [E|E]; [exact (try_single_produced _ _ E)|].
  apply orelse_inv in E as [E|E]; [exact (try_bold_list_produced _ _ E)|].
  exact (try_plain_list_produced _ _ E).
Qed.

Lemma extract_answer_produced text : Forall (produced U) (extract_answer U text).
Proof.
  unfold extract_answer. destruct (falsy text); [constructor|]. cbv zeta.
  match goal with |- Forall _ (match ?o with _ => _ end) => destruct o as [l|] eqn:E end;
    [|apply extract_unlabelled_produced].
  apply orelse_inv in E as [E|E].
  - destruct (_ <? _)%nat; [|discriminate].
    apply orelse_inv in E as [E|E]; [|exact (try_text_tail_produced _ _ E)].
    apply first_return_Some in E as (pat & E). exact (try_final_pattern_produced _ _ _ E).
  - apply orelse_inv in E as [E|E]; [exact (try_numbered_after_title_produced _ _ E)|].
    apply first_return_Some in E as (pat & E). exact (try_pattern_produced _ _ _ E).
Qed.

End StageFacts.

(** X2. Whatever the text, every name [extract_answer] returns is not
    empty, has no whitespace at either end, has single spaces between its
    words, and has no square bracket. *)
Theorem extract_answer_returns_tidy_names (U : unicode_tables) (text : str) :
  Forall (fun x => x <> [] /\ tidy x) (extract_answer U text).
Proof.
  eapply Forall_impl; [apply extract_answer_produced|].
  intros x [Hne (y & ->)]. split; [exact Hne | apply clean_eif_name_tidy].
Qed.

(** ** Blank texts and surrounding whitespace *)

Section BlankFacts.
Variable U : unicode_tables.

(** Nothing is read from a text that is empty once trimmed. *)
Lemma extract_answer_space : extract_answer U [32%N] = [].
Proof.
  unfold extract_answer. cbn [falsy]. change (strip [32%N]) with (@nil char). cbv zeta.
  assert (first_return (try_pattern U []) patterns = None) as -> by (vm_compute; reflexivity).
  assert (try_numbered_after_title U [] = None) as -> by (vm_compute; reflexivity).
  cbn [length Nat.ltb Nat.leb orelse].
  unfold extract_unlabelled. cbv zeta.
  assert (sub_empty U (compile false "根据.*?如下[：:]?\s*") [] = []) as ->
    by (vm_compute; reflexivity).
  assert (sub_empty U (compile false "识别出.*?如下[：:]?\s*") [] = []) as ->
    by (vm_compute; reflexivity).
  change (strip []) with (@nil char).
  destruct (mem _ _); [reflexivity|].
  vm_compute. reflexivity.
Qed.

Lemma extract_answer_strip text : extract_answer U (strip text) = extract_answer U text.
Proof.
  destruct text as [|c t]; [reflexivity|].
  destruct (strip (c :: t)) as [|d r] eqn:E.
  - transitivity (extract_answer U [32%N]); [symmetry; apply extract_answer_space|].
    unfold extract_answer. cbn [falsy]. rewrite E. reflexivity.
  - assert (strip (d :: r) = d :: r) as E' by (rewrite <- E; apply strip_idem).
    unfold extract_answer. cbn [falsy]. rewrite E, E'. reflexivity.
Qed.

End BlankFacts.

(** X3. [extract_answer] returns the empty list for the empty text and for
    every text that holds whitespace only. *)
Theorem extract_answer_of_blank_text (U : unicode_tables) (text : str) :
  forallb isspace text = true -> extract_answer U text = [].
Proof.
  intros H. rewrite <- extract_answer_strip, (strip_blank text H). reflexivity.
Qed.

Lemma extract_answer_of_blank_text_witness :
  forallb isspace (utf8 " 
  ") = true /\ extract_answer ascii_tables (utf8 " 
  ") = [].
Proof.
  assert (forallb isspace (utf8 " 
  ") = true) as H by reflexivity.
  split; [exact H | exact (extract_answer_of_blank_text ascii_tables _ H)].
Defined.

Lemma lstrip_pad pre s : forallb isspace pre = true -> lstrip (pre ++ s) = lstrip s.
Proof.
  induction pre as [|c pre IH]; [reflexivity|]. cbn [forallb app lstrip].
  intros [Hc Hpre]%andb_true_iff. rewrite Hc. exact (IH Hpre).
Qed.

Lemma strip_pad pre s post :
  forallb isspace pre = true -> forallb isspace post = true ->
  strip (pre ++ s ++ post) = strip s.
Proof.
  intros Hpre Hpost. transitivity (strip (s ++ post)).
  { unfold strip. rewrite (lstrip_pad pre _ Hpre). reflexivity. }
  clear Hpre. induction post as [|w post IH] using rev_ind; [rewrite app_nil_r; reflexivity|].
  rewrite forallb_app in Hpost. apply andb_true_iff in Hpost as [Hpost Hw].
  cbn [forallb] in Hw. rewrite andb_true_r in Hw.
  rewrite app_assoc, strip_snoc_space by exact Hw. exact (IH Hpost).
Qed.

(** X4. Whitespace around the text changes nothing: [extract_answer]
    returns for a text with whitespace added before and after it what it
    returns for the text itself. *)
Theorem extract_answer_ignores_outer_whitespace (U : unicode_tables) (pre text post : str) :
  forallb isspace pre = true -> forallb isspace post = true ->
  extract_answer U (pre ++ text ++ post) = extract_answer U text.
Proof.
  intros Hpre Hpost.
  rewrite <- (extract_answer_strip U (pre ++ text ++ post)), (strip_pad _ _ _ Hpre Hpost).
  apply extract_answer_strip.
Qed.

Lemma extract_answer_ignores_outer_whitespace_witness :
  forallb isspace (utf8 "  ") = true /\
  forallb isspace (utf8 " 
") = true /\
  extract_answer ascii_tables (utf8 "  " ++ utf8 "EIF功能点列表：[Job Info]" ++ utf8 " 
")
  = extract_answer ascii_tables (utf8 "EIF功能点列表：[Job Info]").
Proof.
  assert (forallb isspace (utf8 "  ") = true) as H1 by reflexivity.
  assert (forallb isspace (utf8 " 
") = true) as H2 by reflexivity.
  split; [exact H1|]. split; [exact H2|].
  exact (extract_answer_ignores_outer_whitespace ascii_tables _ _ _ H1 H2).
Defined.

(** ** The lexical oracle as a relation between names *)

Lemma ratio_one (a b : nat) : (0 < b)%nat -> (of_nat a / of_nat b == 1 <-> a = b).
Proof.
  intros Hb. apply of_nat_pos in Hb.
  assert (~ of_nat b == 0) as Hnz by (intros H; rewrite H in Hb; lra).
  split.
  - intros H. assert (of_nat a == of_nat a / of_nat b * of_nat b) as Ha by (field; exact Hnz).
    rewrite H, Qmult_1_l in Ha. unfold of_nat, Qeq in Ha. cbn in Ha. lia.
  - intros ->. field. exact Hnz.
Qed.

Lemma ratio_zero (a b : nat) : (0 < b)%nat -> (of_nat a / of_nat b == 0 <-> a = 0%nat).
Proof.
  intros Hb. apply of_nat_pos in Hb.
  assert (~ of_nat b == 0) as Hnz by (intros H; rewrite H in Hb; lra).
  split.
  - intros H. assert (of_nat a == of_nat a / of_nat b * of_nat b) as Ha by (field; exact Hnz).
    rewrite H, Qmult_0_l in Ha. unfold of_nat, Qeq in Ha. cbn in Ha. lia.
  - intros ->. change (of_nat 0) with 0. field. exact Hnz.
Qed.

(** The similarity of two strings that both hold a word, by the sets of
    their words. *)
Lemma string_similarity_words (s1 s2 : str) :
  split s1 <> [] -> split s2 <> [] ->
  let A : gset str := list_to_set (split s1) in
  let B : gset str := list_to_set (split s2) in
  (0 < size (A ∪ B))%nat /\
  string_similarity s1 s2 = of_nat (size (A ∩ B)) / of_nat (size (A ∪ B)).
Proof.
  intros H1 H2 A B.
  assert (0 < size (A ∪ B))%nat as Hpos.
  { assert (exists w, w ∈ split s1) as [w Hw1].
    { destruct (split s1) as [|w ws]; [congruence | exists w; left]. }
    assert (w ∈ A ∪ B) as Hw by (apply elem_of_union; left; apply elem_of_list_to_set, Hw1).
    destruct (size (A ∪ B)) eqn:Es; [|lia].
    apply size_empty_inv in Es. rewrite (Es w) in Hw. apply elem_of_empty in Hw. contradiction. }
  split; [exact Hpos|].
  unfold string_similarity.
  destruct s1 as [|c1 s1]; [contradiction H1; reflexivity|].
  destruct s2 as [|c2 s2]; [contradiction H2; reflexivity|].
  cbn [falsy orb]. rewrite !list_to_set_empty_nil.
  destruct (split (c1 :: s1)); [congruence|]. destruct (split (c2 :: s2)); [congruence|].
  cbn [is_nil orb]. fold A B.
  apply Nat.ltb_lt in Hpos. rewrite Hpos. reflexivity.
Qed.

Lemma ratio_comm (A B : gset str) :
  (if (0 <? size (A ∪ B))%nat then of_nat (size (A ∩ B)) / of_nat (size (A ∪ B)) else 0)
  = (if (0 <? size (B ∪ A))%nat then of_nat (size (B ∩ A)) / of_nat (size (B ∪ A)) else 0).
Proof.
  replace (B ∪ A) with (A ∪ B) by (apply set_eq; intros x; rewrite !elem_of_union; tauto).
  replace (B ∩ A) with (A ∩ B)
    by (apply set_eq; intros x; rewrite !elem_of_intersection; tauto).
  reflexivity.
Qed.

Lemma string_similarity_comm (s1 s2 : str) :
  string_similarity s1 s2 = string_similarity s2 s1.
Proof.
  unfold string_similarity. rewrite (orb_comm (falsy s2)).
  destruct (falsy s1 || falsy s2); [reflexivity|].
  rewrite (orb_comm (bool_decide (list_to_set (split s2) = (∅ : gset str)))).
  destruct (_ || _); cbv beta iota zeta; apply ratio_comm.
Qed.

Lemma self_ratio (X : gset str) :
  X <> ∅ ->
  (if (0 <? size (X ∪ X))%nat then of_nat (size (X ∩ X)) / of_nat (size (X ∪ X)) else 0) == 1.
Proof.
  intros HX.
  replace (X ∪ X) with X by (apply set_eq; intros x; rewrite elem_of_union; tauto).
  replace (X ∩ X) with X by (apply set_eq; intros x; rewrite elem_of_intersection; tauto).
  assert (0 < size X)%nat as Hpos.
  { destruct (size X) eqn:E; [|lia]. apply size_empty_inv in E.
    contradiction HX. apply leibniz_equiv, E. }
  pose proof Hpos as Hb. apply Nat.ltb_lt in Hb. rewrite Hb.
  apply ratio_one; [exact Hpos | reflexivity].
Qed.

Lemma string_similarity_refl (s : str) : s <> [] -> string_similarity s s == 1.
Proof.
  intros Hs. destruct s as [|c s]; [congruence|]. unfold string_similarity.
  cbn [falsy orb].
  destruct (bool_decide (list_to_set (split (c :: s)) = (∅ : gset str))) eqn:E;
    cbn [orb]; cbv beta iota zeta.
  - apply self_ratio. intros H.
    assert ([c] ∈ (list_to_set (chars (c :: s)) : gset str)) as Hc
      by (apply elem_of_list_to_set; left).
    rewrite H in Hc. apply elem_of_empty in Hc. exact Hc.
  - apply self_ratio. apply bool_decide_eq_false in E. exact E.
Qed.

(** X5. [_string_similarity] is symmetric, and a non-empty string is at
    similarity 1 from itself. *)
Theorem string_similarity_symmetric_reflexive (s1 s2 : str) :
  string_similarity s1 s2 = string_similarity s2 s1 /\
  (s1 <> [] -> string_similarity s1 s1 == 1).
Proof. split; [apply string_similarity_comm | apply string_similarity_refl]. Qed.

Lemma string_similarity_symmetric_reflexive_witness :
  utf8 "job info" <> [] /\ string_similarity (utf8 "job info") (utf8 "job info") == 1.
Proof.
  assert (utf8 "job info" <> []) as H by discriminate.
  split; [exact H|].
  exact (proj2 (string_similarity_symmetric_reflexive (utf8 "job info") (utf8 "job info")) H).
Defined.

(** X6. For two strings that both hold a word, the similarity is 1 exactly
    when they hold the same words, whatever the order, the repetitions and
    the whitespace between them, and it is 0 exactly when they share no
    word. *)
Theorem string_similarity_extremes (s1 s2 : str) :
  split s1 <> [] -> split s2 <> [] ->
  (string_similarity s1 s2 == 1 <-> forall w, w ∈ split s1 <-> w ∈ split s2) /\
  (string_similarity s1 s2 == 0 <-> forall w, w ∈ split s1 -> w ∉ split s2).
Proof.
  intros H1 H2. destruct (string_similarity_words s1 s2 H1 H2) as [Hpos ->].
  set (A := list_to_set (split s1) : gset str) in *.
  set (B := list_to_set (split s2) : gset str) in *.
  assert (forall w, w ∈ A <-> w ∈ split s1) as HA by (intros w; apply elem_of_list_to_set).
  assert (forall w, w ∈ B <-> w ∈ split s2) as HB by (intros w; apply elem_of_list_to_set).
  rewrite (ratio_one _ _ Hpos), (ratio_zero _ _ Hpos). split.
  - split.
    + intros Hsize.
      assert (A ∩ B = A ∪ B) as Heq.
      { apply set_subseteq_size_eq; [|lia].
        intros x. rewrite elem_of_intersection, elem_of_union. tauto. }
      intros w. rewrite <- HA, <- HB.
      assert (w ∈ A ∩ B <-> w ∈ A ∪ B) as Hw by (rewrite Heq; reflexivity).
      rewrite elem_of_intersection, elem_of_union in Hw. tauto.
    + intros Hsame.
      assert (A ∩ B = A ∪ B) as ->; [|reflexivity].
      apply set_eq. intros w. rewrite elem_of_intersection, elem_of_union, !HA, !HB.
      specialize (Hsame w). tauto.
  - split.
    + intros Hsize%size_empty_inv w Hw1 Hw2.
      apply (not_elem_of_empty (C := gset str) w). rewrite <- (Hsize w).
      apply elem_of_intersection. rewrite HA, HB. tauto.
    + intros Hdisj. apply size_empty_iff. intros w.
      rewrite elem_of_intersection, HA, HB. split; [|intros []%elem_of_empty].
      intros [Hw1 Hw2]. destruct (Hdisj w Hw1 Hw2).
Qed.

Lemma string_similarity_extremes_witness :
  split (utf8 "info  job job") <> [] /\ split (utf8 "job info") <> [] /\
  string_similarity (utf8 "info  job job") (utf8 "job info") == 1.
Proof.
  assert (split (utf8 "info  job job") <> []) as H1 by discriminate.
  assert (split (utf8 "job info") <> []) as H3 by discriminate.
  split; [exact H1|]. split; [exact H3|].
  apply (proj1 (string_similarity_extremes _ _ H1 H3)). intros w.
  change (split (utf8 "info  job job")) with [utf8 "info"; utf8 "job"; utf8 "job"].
  change (split (utf8 "job info")) with [utf8 "job"; utf8 "info"].
  rewrite !elem_of_cons, !elem_of_nil. tauto.
Defined.

(** ** Scoring without a model *)

Section NoModel.
Variable U : unicode_tables.
Variables World Response : Type.
Variable lm : option (language_model World Response).
Variable use_lm_semantic : bool.
Hypothesis no_model : use_lm_semantic && bool_decide (is_Some lm) = false.

Lemma scan_truth_no_model pn po matched ut : forall b w,
  scan_truth U lm use_lm_semantic pn po matched ut b w
  = (Ok (best_lexical pn matched ut b), w).
Proof.
  induction ut as [|[tn to] ut IH]; intros b w; cbn [scan_truth best_lexical];
    [reflexivity|].
  destruct (bool_decide (to ∈ matched)); [apply IH|].
  rewrite no_model. unfold bind, ret. apply IH.
Qed.

Lemma match_loop_no_model ut up : forall st w,
  match_loop U lm use_lm_semantic up ut st w = (Ok (match_lexical up ut st), w).
Proof.
  induction up as [|[pn po] up IH]; intros st w; cbn [match_loop match_lexical];
    [reflexivity|].
  unfold bind. rewrite scan_truth_no_model. apply IH.
Qed.

End NoModel.

Lemma calculate_no_model U predicted ground_truth :
  exists rep, forall World Response (lm : option (language_model World Response))
                     use_lm_semantic (w : World),
    use_lm_semantic && bool_decide (is_Some lm) = false ->
    calculate_eif_similarity U lm use_lm_semantic predicted ground_truth w = (Ok rep, w).
Proof.
  unfold calculate_eif_similarity.
  destruct (is_nil ground_truth && is_nil predicted);
    [eexists; intros; reflexivity|].
  destruct (is_nil ground_truth || is_nil predicted);
    [eexists; intros; reflexivity|].
  cbv zeta. eexists. intros World Response lm use_lm_semantic w H.
  unfold bind. rewrite (match_loop_no_model U World Response lm use_lm_semantic H).
  reflexivity.
Qed.

(** X7. Without a model the scorer is a function of its two lists: when
    [use_lm_semantic] is false, or when no model is given, the call returns
    one and the same report whatever the world, the model and the flag, and
    leaves the world as it was. *)
Theorem scoring_without_model_is_pure (U : unicode_tables) (predicted ground_truth : list str) :
  exists rep,
    (forall World Response (lm : option (language_model World Response)) (w : World),
       calculate_eif_similarity U lm false predicted ground_truth w = (Ok rep, w)) /\
    (forall World Response use_lm_semantic (w : World),
       calculate_eif_similarity U (@None (language_model World Response)) use_lm_semantic
         predicted ground_truth w = (Ok rep, w)).
Proof.
  destruct (calculate_no_model U predicted ground_truth) as [rep H]. exists rep. split.
  - intros World Response lm w. apply H. reflexivity.
  - intros World Response use_lm_semantic w. apply H. apply andb_false_r.
Qed.

(** ** Predictions that match exactly *)

Lemma left_over_nil {A} (f : A -> str) (l : list A) (other : gset str) :
  (forall x, x ∈ l -> f x ∈ other) -> left_over f l other = [].
Proof.
  induction l as [|y l IH]; intros H; [reflexivity|].
  rewrite left_over_cons. destruct (decide (f y ∉ other)) as [Hy|_].
  - contradiction Hy. apply H. left.
  - apply IH. intros x Hx. apply H. right. exact Hx.
Qed.

Lemma size_name_set U (l : list str) :
  size (name_set U l) = length (remove_dups (map (normalize_eif_name U) l)).
Proof.
  apply size_by_list; [apply NoDup_remove_dups|].
  intros x. unfold name_set. rewrite elem_of_remove_dups, elem_of_list_to_set. reflexivity.
Qed.

Section ExactOnly.
Variable U : unicode_tables.
Variables World Response : Type.
Variable lm : option (language_model World Response).
Variable use_lm_semantic : bool.

(** No predicted name is left for the fuzzy stage. *)
Lemma calculate_exact_only predicted ground_truth w :
  predicted <> [] -> ground_truth <> [] ->
  (forall x, x ∈ predicted -> normalize_eif_name U x ∈ name_set U ground_truth) ->
  let e := size (name_set U predicted) in
  let p := (of_nat e + 0) / of_nat (length predicted) in
  let r := (of_nat e + 0) / of_nat (length ground_truth) in
  calculate_eif_similarity U lm use_lm_semantic predicted ground_truth w =
  (Ok {| f1_score := if Qeq_bool (p + r) 0 then 0 else 2 * (p * r) / (p + r);
         precision := p; recall := r; exact_matches := e;
         fuzzy_score := 0; semantic_matches := [] |}, w).
Proof.
  intros Hp Ht Hall.
  assert (name_set U predicted ∩ name_set U ground_truth = name_set U predicted) as Hsub.
  { apply set_eq. intros x. rewrite elem_of_intersection. split; [tauto|].
    intros Hx. split; [exact Hx|]. unfold name_set in Hx.
    apply elem_of_list_to_set, list_elem_of_fmap in Hx as (y & -> & Hy).
    apply Hall, Hy. }
  destruct predicted as [|p0 ps]; [congruence|].
  destruct ground_truth as [|t0 ts]; [congruence|].
  unfold calculate_eif_similarity. cbn [is_nil andb orb]. unfold bind.
  fold (name_set U (p0 :: ps)). fold (name_set U (t0 :: ts)).
  fold (left_over (normalize_eif_name U) (p0 :: ps) (name_set U (t0 :: ts))).
  rewrite (left_over_nil _ _ _ Hall), Hsub. reflexivity.
Qed.

End ExactOnly.

(** X8. When every predicted name has the normalized form of some
    ground-truth name, nothing is left for the fuzzy stage: the model is not
    consulted and the world is as it was, no fuzzy match is recorded,
    [exact_matches] is the number of distinct predicted forms, and precision
    and recall are that number over the two lengths, so that a repeated
    name lowers the precision. *)
Theorem exact_predictions_skip_the_fuzzy_stage
    (U : unicode_tables) (World Response : Type)
    (lm : option (language_model World Response)) (use_lm_semantic : bool)
    (predicted ground_truth : list str) (w : World) :
  predicted <> [] ->
  Forall (fun x => normalize_eif_name U x ∈ map (normalize_eif_name U) ground_truth)
         predicted ->
  exists rep,
    calculate_eif_similarity U lm use_lm_semantic predicted ground_truth w = (Ok rep, w) /\
    fuzzy_score rep = 0 /\ semantic_matches rep = [] /\
    exact_matches rep = length (remove_dups (map (normalize_eif_name U) predicted)) /\
    precision rep == of_nat (exact_matches rep) / of_nat (length predicted) /\
    recall rep == of_nat (exact_matches rep) / of_nat (length ground_truth).
Proof.
  intros Hp Hall. rewrite Forall_forall in Hall.
  assert (ground_truth <> []) as Ht.
  { destruct predicted as [|x l]; [congruence|]. intros ->.
    specialize (Hall x ltac:(left)). inversion Hall. }
  eexists. split.
  - apply calculate_exact_only; [exact Hp | exact Ht|].
    intros x Hx. apply elem_of_list_to_set, Hall, Hx.
  - cbn [fuzzy_score semantic_matches exact_matches precision recall].
    rewrite size_name_set, Qplus_0_r. repeat split; reflexivity.
Qed.

Lemma exact_predictions_skip_the_fuzzy_stage_witness :
  exists rep,
    calculate_eif_similarity ascii_tables (Some (answering (utf8 "0.9"))) true
      [utf8 "Job Info"; utf8 "JOB  INFO"] [utf8 "job info"; utf8 "Employee Info"] tt
    = (Ok rep, tt) /\
    exact_matches rep = 1%nat /\ precision rep == 1 # 2 /\ recall rep == 1 # 2.
Proof.
  destruct (exact_predictions_skip_the_fuzzy_stage ascii_tables unit unit
              (Some (answering (utf8 "0.9"))) true
              [utf8 "Job Info"; utf8 "JOB  INFO"] [utf8 "job info"; utf8 "Employee Info"] tt)
    as (rep & Hrun & _ & _ & He & Hpr & Hre).
  - discriminate.
  - apply (bool_decide_unpack _). vm_compute. exact I.
  - exists rep. split; [exact Hrun|].
    assert (exact_matches rep = 1%nat) as He' by (rewrite He; vm_compute; reflexivity).
    rewrite He' in Hpr, Hre. split; [exact He'|]. split; [rewrite Hpr | rewrite Hre]; reflexivity.
Defined.

Lemma calculate_perfect
    (U : unicode_tables) (World Response : Type)
    (lm : option (language_model World Response)) (use_lm_semantic : bool)
    (predicted ground_truth : list str) (w : World) :
  predicted <> [] ->
  NoDup (map (normalize_eif_name U) predicted) ->
  map (normalize_eif_name U) predicted ≡ₚ map (normalize_eif_name U) ground_truth ->
  exists rep,
    calculate_eif_similarity U lm use_lm_semantic predicted ground_truth w = (Ok rep, w) /\
    precision rep == 1 /\ recall rep == 1 /\ f1_score rep == 1 /\
    exact_matches rep = length predicted /\
    fuzzy_score rep = 0 /\ semantic_matches rep = [].
Proof.
  intros Hp Hnd Hperm.
  assert (length ground_truth = length predicted) as Hlen.
  { apply Permutation_length in Hperm. rewrite !length_map in Hperm. symmetry. exact Hperm. }
  assert (ground_truth <> []) as Ht.
  { destruct ground_truth; [|discriminate]. destruct predicted; [congruence | discriminate]. }
  assert (size (name_set U predicted) = length predicted) as He.
  { rewrite <- (length_map (normalize_eif_name U)). apply size_by_list; [exact Hnd|].
    intros x. unfold name_set. rewrite elem_of_list_to_set. reflexivity. }
  eexists. split.
  - apply calculate_exact_only; [exact Hp | exact Ht|].
    intros x Hx. apply elem_of_list_to_set. rewrite <- Hperm.
    apply list_elem_of_fmap_2, Hx.
  - cbn [fuzzy_score semantic_matches exact_matches precision recall f1_score].
    rewrite He, Hlen.
    assert (0 < of_nat (length predicted)) as Hpos.
    { apply of_nat_pos. destruct predicted; [congruence | cbn [length]; lia]. }
    assert ((of_nat (length predicted) + 0) / of_nat (length predicted) == 1) as Hone
      by (field; lra).
    split; [exact Hone|]. split; [exact Hone|]. split; [|repeat split].
    destruct (Qeq_bool _ 0) eqn:E.
    + apply Qeq_bool_eq in E. rewrite !Hone in E. lra.
    + rewrite !Hone. reflexivity.
Qed.

(** X9. A prediction that holds the ground-truth names, in any order and up
    to normalization, each once, scores precision, recall and F1 of 1, with
    as many exact matches as names and no fuzzy match; the world is as it
    was. *)
Theorem perfect_prediction_scores_one
    (U : unicode_tables) (World Response : Type)
    (lm : option (language_model World Response)) (use_lm_semantic : bool)
    (predicted ground_truth : list str) (w : World) :
  predicted <> [] ->
  NoDup (map (normalize_eif_name U) predicted) ->
  map (normalize_eif_name U) predicted ≡ₚ map (normalize_eif_name U) ground_truth ->
  exists rep,
    calculate_eif_similarity U lm use_lm_semantic predicted ground_truth w = (Ok rep, w) /\
    precision rep == 1 /\ recall rep == 1 /\ f1_score rep == 1 /\
    exact_matches rep = length predicted /\
    fuzzy_score rep = 0 /\ semantic_matches rep = [].
Proof. apply calculate_perfect. Qed.

Lemma perfect_prediction_scores_one_witness :
  exists rep,
    calculate_eif_similarity ascii_tables (Some (answering (utf8 "0.1"))) true
      [utf8 "Job Info"; utf8 "Employee Info (legacy)"]
      [utf8 "employee info"; utf8 "JOB  INFO"] tt = (Ok rep, tt) /\
    f1_score rep == 1.
Proof.
  destruct (perfect_prediction_scores_one ascii_tables unit unit
              (Some (answering (utf8 "0.1"))) true
              [utf8 "Job Info"; utf8 "Employee Info (legacy)"]
              [utf8 "employee info"; utf8 "JOB  INFO"] tt)
    as (rep & Hrun & _ & _ & Hf & _).
  - discriminate.
  - apply (bool_decide_unpack _). vm_compute. exact I.
  - assert (map (normalize_eif_name ascii_tables)
              [utf8 "Job Info"; utf8 "Employee Info (legacy)"]
            = [utf8 "job info"; utf8 "employee info"]) as -> by (vm_compute; reflexivity).
    assert (map (normalize_eif_name ascii_tables) [utf8 "employee info"; utf8 "JOB  INFO"]
            = [utf8 "employee info"; utf8 "job info"]) as -> by (vm_compute; reflexivity).
    apply perm_swap.
  - exists rep. split; [exact Hrun | exact Hf].
Defined.

(** ** What the scorer asks the model *)

Section ModelUse.
Variable U : unicode_tables.
Variables World Response : Type.
Variables lm1 lm2 : language_model World Response.
Variable use_lm_semantic : bool.
(** The prompts on which the two models are known to agree. *)
Variable asked : str -> Prop.
Hypothesis same_query :
  forall prompt, asked prompt -> forall w, query lm1 prompt 1%nat w = query lm2 prompt 1%nat w.
Hypothesis same_texts :
  forall r w, get_response_texts lm1 r w = get_response_texts lm2 r w.

Lemma check_same_model name1 name2 use_lm w :
  asked (similarity_prompt name1 name2) ->
  check_eif_semantic_similarity U name1 name2 (Some lm1) use_lm w
  = check_eif_semantic_similarity U name1 name2 (Some lm2) use_lm w.
Proof.
  intros Hasked. unfold check_eif_semantic_similarity.
  destruct (negb use_lm); [reflexivity|].
  unfold bind, try_except. rewrite (same_query _ Hasked).
  destruct (query lm2 _ 1%nat w) as [[r|e] w1]; [|reflexivity].
  rewrite same_texts. reflexivity.
Qed.

Lemma scan_truth_same_model pn po matched ut :
  (forall tn to, (tn, to) ∈ ut -> asked (similarity_prompt po to)) ->
  forall b w,
    scan_truth U (Some lm1) use_lm_semantic pn po matched ut b w
    = scan_truth U (Some lm2) use_lm_semantic pn po matched ut b w.
Proof.
  induction ut as [|[tn to] ut IH]; intros Hut b w; cbn [scan_truth]; [reflexivity|].
  assert (forall tn' to', (tn', to') ∈ ut -> asked (similarity_prompt po to')) as Hut'
    by (intros tn' to' H; apply (Hut tn' to'); right; exact H).
  destruct (bool_decide (to ∈ matched)); [apply IH, Hut'|].
  unfold bind.
  assert ((if use_lm_semantic && bool_decide (is_Some (Some lm1))
           then check_eif_semantic_similarity U po to (Some lm1) true
           else ret (string_similarity pn tn)) w
          = (if use_lm_semantic && bool_decide (is_Some (Some lm2))
             then check_eif_semantic_similarity U po to (Some lm2) true
             else ret (string_similarity pn tn)) w) as ->.
  { destruct use_lm_semantic; [|reflexivity]. cbn [andb].
    assert (forall l : language_model World Response, bool_decide (is_Some (Some l)) = true)
      as Hsome by (intros l; apply bool_decide_eq_true; eexists; reflexivity).
    rewrite !Hsome. apply check_same_model. apply (Hut tn to). left. }
  match goal with |- match ?m with _ => _ end = _ => destruct m as [[x|e] w1] end;
    [|reflexivity].
  apply IH, Hut'.
Qed.

Lemma match_loop_same_model ut up :
  (forall pn po tn to, (pn, po) ∈ up -> (tn, to) ∈ ut -> asked (similarity_prompt po to)) ->
  forall st w,
    match_loop U (Some lm1) use_lm_semantic up ut st w
    = match_loop U (Some lm2) use_lm_semantic up ut st w.
Proof.
  induction up as [|[pn po] up IH]; intros Hup st w; cbn [match_loop]; [reflexivity|].
  unfold bind. rewrite scan_truth_same_model
    by (intros tn to H; apply (Hup pn po tn to); [left | exact H]).
  destruct (scan_truth U (Some lm2) _ _ _ _ _ _ w) as [[b|e] w1]; [|reflexivity].
  apply IH. intros pn' po' tn to H1 H2. apply (Hup pn' po' tn to); [right; exact H1 | exact H2].
Qed.

End ModelUse.

(** X10. The report and the final world depend on the model only through
    its answers, for one response, to the prompts that compare a predicted
    name without an exact match with a ground-truth name without an exact
    match: two models that agree on these prompts, and on the texts they
    read from a response, give the same result.  The scorer thus never
    consults the model about a name that has an exact match. *)
Theorem model_is_asked_about_unmatched_pairs_only
    (U : unicode_tables) (World Response : Type)
    (lm1 lm2 : language_model World Response) (use_lm_semantic : bool)
    (predicted ground_truth : list str) :
  (forall p t,
     p ∈ predicted -> t ∈ ground_truth ->
     normalize_eif_name U p ∉ map (normalize_eif_name U) ground_truth ->
     normalize_eif_name U t ∉ map (normalize_eif_name U) predicted ->
     forall w, query lm1 (similarity_prompt p t) 1%nat w
               = query lm2 (similarity_prompt p t) 1%nat w) ->
  (forall r w, get_response_texts lm1 r w = get_response_texts lm2 r w) ->
  forall w,
    calculate_eif_similarity U (Some lm1) use_lm_semantic predicted ground_truth w
    = calculate_eif_similarity U (Some lm2) use_lm_semantic predicted ground_truth w.
Proof.
  intros Hq Ht w. unfold calculate_eif_similarity.
  destruct (is_nil ground_truth && is_nil predicted); [reflexivity|].
  destruct (is_nil ground_truth || is_nil predicted); [reflexivity|].
  cbv zeta. unfold bind.
  fold (name_set U predicted). fold (name_set U ground_truth).
  fold (left_over (normalize_eif_name U) predicted (name_set U ground_truth)).
  fold (left_over (normalize_eif_name U) ground_truth (name_set U predicted)).
  rewrite (match_loop_same_model U World Response lm1 lm2 use_lm_semantic
             (fun prompt => exists p t,
                p ∈ predicted /\ t ∈ ground_truth /\
                (normalize_eif_name U p ∉ map (normalize_eif_name U) ground_truth) /\
                (normalize_eif_name U t ∉ map (normalize_eif_name U) predicted) /\
                prompt = similarity_prompt p t)).
  - reflexivity.
  - intros prompt (p & t & Hp & Hin & Hpn & Htn & ->). apply Hq; assumption.
  - exact Ht.
  - intros pn po tn to Hpo Hto.
    apply left_over_elem in Hpo as (-> & Hpn & Hp).
    apply left_over_elem in Hto as (-> & Htn & Hin).
    exists po, to. unfold name_set in Hpn, Htn. rewrite elem_of_list_to_set in Hpn, Htn.
    repeat split; assumption.
Qed.

Lemma model_is_asked_about_unmatched_pairs_only_witness :
  calculate_eif_similarity ascii_tables (Some (answering (utf8 "0.9"))) true
    [utf8 "Job Info"; utf8 "Staff"] [utf8 "job info"; utf8 "Employee"] tt
  = calculate_eif_similarity ascii_tables (Some (answering_once (utf8 "0.9"))) true
      [utf8 "Job Info"; utf8 "Staff"] [utf8 "job info"; utf8 "Employee"] tt.
Proof.
  apply (model_is_asked_about_unmatched_pairs_only ascii_tables unit unit
           (answering (utf8 "0.9")) (answering_once (utf8 "0.9")) true).
  - intros p t _ _ _ _ w. reflexivity.
  - intros r w. reflexivity.
Defined.

(** ** Scoring a thought state *)

Section AssessmentFacts.
Variable U : unicode_tables.
Variables World Response : Type.
Variable g : globals World Response.

(** Every call of the scorer returns a report with an F1 in [0, 1]. *)
Lemma calculate_f1_unit (lm : option (language_model World Response)) use_lm_semantic
    predicted ground_truth (w : World) :
  exists rep w',
    calculate_eif_similarity U lm use_lm_semantic predicted ground_truth w = (Ok rep, w') /\
    0 <= f1_score rep <= 1.
Proof.
  destruct predicted as [|p0 ps].
  { destruct ground_truth; eexists _, w; (split; [reflexivity|]); cbn [f1_score]; lra. }
  destruct ground_truth as [|t0 ts].
  { eexists _, w. split; [reflexivity|]. cbn [f1_score]. lra. }
  destruct (calculate_nonempty U World Response lm use_lm_semantic
              (p0 :: ps) (t0 :: ts) w) as (st & w' & Hinv & Hsub & Hrun);
    [discriminate..|].
  destruct (totals_bounded U (p0 :: ps) (t0 :: ts) st Hinv Hsub) as (H0 & Hp & Ht).
  cbv zeta in Hrun, H0, Hp, Ht.
  eexists _, w'. split; [exact Hrun|]. cbn [f1_score].
  apply f1_unit; (apply ratio_unit; [assumption.. | apply of_nat_pos; cbn [length]; lia]).
Qed.

(** What [score_assessment] does, by the presence of the ground truth. *)
Lemma score_assessment_run st w :
  match st_ground_truth st with
  | None => score_assessment U g st w = (Ok (0, st), w)
  | Some t =>
      exists rep w',
        calculate_eif_similarity U (GLOBAL_LM_FOR_SCORING g) (USE_LLM_SEMANTIC g)
          (default [] (st_final_answer st)) t w = (Ok rep, w') /\
        0 <= f1_score rep <= 1 /\
        score_assessment U g st w
        = (Ok (f1_score rep, set_evaluation_metrics rep st), w')
  end.
Proof.
  unfold score_assessment, get_ground_truth, try_except, bind.
  destruct (st_ground_truth st) as [t|]; [|reflexivity].
  destruct (calculate_f1_unit (GLOBAL_LM_FOR_SCORING g) (USE_LLM_SEMANTIC g)
              (default [] (st_final_answer st)) t w) as (rep & w' & Hrun & Hf1).
  exists rep, w'. split; [exact Hrun|]. split; [exact Hf1|].
  unfold from_option, id in Hrun. unfold ret. cbv beta iota. rewrite Hrun. reflexivity.
Qed.

Lemma test_eif_assessment_run st w :
  match st_ground_truth st with
  | None => test_eif_assessment U g st w = (Ok (false, st), w)
  | Some t =>
      exists rep w',
        calculate_eif_similarity U (GLOBAL_LM_FOR_SCORING g) (USE_LLM_SEMANTIC g)
          (default [] (st_final_answer st)) t w = (Ok rep, w') /\
        test_eif_assessment U g st w
        = (Ok (Qle_bool (8 # 10) (f1_score rep), set_evaluation_metrics rep st), w')
  end.
Proof.
  unfold test_eif_assessment, get_ground_truth, try_except, bind.
  destruct (st_ground_truth st) as [t|]; [|reflexivity].
  destruct (calculate_f1_unit (GLOBAL_LM_FOR_SCORING g) (USE_LLM_SEMANTIC g)
              (default [] (st_final_answer st)) t w) as (rep & w' & Hrun & _).
  exists rep, w'. split; [exact Hrun|].
  unfold from_option, id in Hrun. unfold ret. cbv beta iota. rewrite Hrun. reflexivity.
Qed.

End AssessmentFacts.

(** X11. [score_assessment] never raises and returns a score in [0, 1].
    It changes nothing of the state but the evaluation metrics.  On a state
    without ground truth the [KeyError] is absorbed: the score is 0, and the
    state and the world are as they were.  Otherwise the state receives the
    report, and the score is the F1 of that report. *)
Theorem score_assessment_never_raises
    (U : unicode_tables) (World Response : Type) (g : globals World Response)
    (st : thought_state) (w : World) :
  exists score st' w',
    score_assessment U g st w = (Ok (score, st'), w') /\
    0 <= score <= 1 /\
    st_final_answer st' = st_final_answer st /\
    st_ground_truth st' = st_ground_truth st /\
    st_entries st' = st_entries st /\
    (st_ground_truth st = None -> score = 0 /\ st' = st /\ w' = w) /\
    (st_ground_truth st <> None ->
     exists rep, st_evaluation_metrics st' = Some rep /\ score = f1_score rep).
Proof.
  pose proof (score_assessment_run U World Response g st w) as H.
  destruct (st_ground_truth st) as [t|] eqn:Ht.
  - destruct H as (rep & w' & _ & Hf1 & ->).
    exists (f1_score rep), (set_evaluation_metrics rep st), w'.
    split; [reflexivity|]. split; [exact Hf1|]. cbn [set_evaluation_metrics
      st_final_answer st_ground_truth st_entries st_evaluation_metrics].
    repeat split; try assumption; try discriminate.
    intros _. exists rep. split; reflexivity.
  - exists 0, st, w. rewrite H, Ht. repeat split; try lra. congruence.
Qed.

(** X12. [test_eif_assessment] answers True exactly when the score that
    [score_assessment] returns for the same state in the same world is at
    least 0.8, and the two leave the same state and the same world behind;
    without ground truth the answer is False. *)
Theorem test_agrees_with_score
    (U : unicode_tables) (World Response : Type) (g : globals World Response)
    (st : thought_state) (w : World) :
  exists score st' w',
    score_assessment U g st w = (Ok (score, st'), w') /\
    test_eif_assessment U g st w = (Ok (Qle_bool (8 # 10) score, st'), w').
Proof.
  pose proof (score_assessment_run U World Response g st w) as Hs.
  pose proof (test_eif_assessment_run U World Response g st w) as Ht.
  destruct (st_ground_truth st) as [t|].
  - destruct Hs as (rep & w' & Hrun & _ & ->). destruct Ht as (rep' & w'' & Hrun' & ->).
    rewrite Hrun in Hrun'. injection Hrun' as <- <-.
    eexists _, _, _. split; reflexivity.
  - rewrite Hs, Ht. eexists _, _, _. split; reflexivity.
Qed.

(** X13. A state without a final answer is scored as an empty prediction,
    like a state whose final answer is the empty list: the score is 1 when
    the ground truth is empty and 0 otherwise, and the model is not
    consulted. *)
Theorem missing_answer_scores_as_empty
    (U : unicode_tables) (World Response : Type) (g : globals World Response)
    (st : thought_state) (t : list str) (w : World) :
  st_final_answer st = None \/ st_final_answer st = Some [] ->
  st_ground_truth st = Some t ->
  exists st',
    score_assessment U g st w = (Ok (if is_nil t then 1 else 0, st'), w) /\
    test_eif_assessment U g st w = (Ok (is_nil t, st'), w).
Proof.
  intros Hfa Ht.
  unfold score_assessment, test_eif_assessment, get_ground_truth, try_except, bind.
  rewrite Ht.
  assert (match st_final_answer st with Some fa => fa | None => [] end = []) as ->
    by (destruct Hfa as [-> | ->]; reflexivity).
  destruct t as [|t0 ts]; eexists; split; reflexivity.
Qed.

Lemma missing_answer_scores_as_empty_witness :
  exists st',
    score_assessment ascii_tables
      {| GLOBAL_LM_FOR_SCORING := Some (answering (utf8 "1.0")); USE_LLM_SEMANTIC := true |}
      {| st_final_answer := None; st_ground_truth := Some [utf8 "Job Info"];
         st_evaluation_metrics := None; st_entries := ∅ |} tt
    = (Ok (0, st'), tt).
Proof.
  destruct (missing_answer_scores_as_empty ascii_tables unit unit
              {| GLOBAL_LM_FOR_SCORING := Some (answering (utf8 "1.0"));
                 USE_LLM_SEMANTIC := true |}
              {| st_final_answer := None; st_ground_truth := Some [utf8 "Job Info"];
                 st_evaluation_metrics := None; st_entries := ∅ |}
              [utf8 "Job Info"] tt) as (st' & Hs & _).
  - left. reflexivity.
  - reflexivity.
  - exists st'. exact Hs.
Defined.

(** X14. As long as [set_scoring_lm] has not installed a model with
    [use_semantic] true, scoring is a function of the state alone: with the
    globals as the module sets them, and after [set_scoring_lm(lm, False)]
    for any model, [score_assessment] returns the same score and the same
    state, and leaves the world as it was. *)
Theorem scoring_is_lexical_by_default
    (U : unicode_tables) (World Response : Type)
    (lm : option (language_model World Response)) (g0 : globals World Response)
    (st : thought_state) :
  exists score st',
    forall w,
      score_assessment U (initial_globals World Response) st w = (Ok (score, st'), w) /\
      score_assessment U (set_scoring_lm lm false g0) st w = (Ok (score, st'), w).
Proof.
  unfold score_assessment, get_ground_truth, try_except, bind.
  destruct (st_ground_truth st) as [t|]; [|eexists _, _; intros w; split; reflexivity].
  destruct (calculate_no_model U
              match st_final_answer st with Some fa => fa | None => [] end t) as [rep H].
  exists (f1_score rep), (set_evaluation_metrics rep st). intros w.
  unfold ret. cbv beta iota.
  cbn [initial_globals set_scoring_lm GLOBAL_LM_FOR_SCORING USE_LLM_SEMANTIC].
  rewrite !H by reflexivity. split; reflexivity.
Qed.

(** ** Parsing the responses *)

Section ParseFacts.
Variable U : unicode_tables.

Lemma parse_text_ok state text :
  exists s',
    parse_text U state text = Ok s' /\
    st_final_answer s' = Some (extract_answer U text) /\
    st_ground_truth s' = st_ground_truth state /\
    st_evaluation_metrics s' = st_evaluation_metrics state /\
    st_entries s' !! utf8 "current" = Some (Text text) /\
    (forall key, key ∉ written_keys state -> st_entries s' !! key = st_entries state !! key) /\
    (forall key, st_entries s' !! key = st_entries state !! key \/
                 st_entries s' !! key = Some (Text text)).
Proof.
  unfold parse_text, written_keys. cbv zeta.
  destruct (st_entries state !! utf8 "perspective") as [p|];
    [repeat case_bool_decide | destruct (st_entries state !! utf8 "merge_perspectives")];
    (eexists; split; [reflexivity|]);
    cbn [set_entry set_final_answer st_final_answer st_ground_truth
           st_evaluation_metrics st_entries];
    (split; [reflexivity|]); (split; [reflexivity|]); (split; [reflexivity|]);
    (split; [|split]).
  all: try (repeat (rewrite lookup_insert; destruct (decide _); [reflexivity|]);
            congruence).
  all: try (intros key Hkey; cbn [app] in Hkey; rewrite !not_elem_of_cons in Hkey;
            destruct_and!; rewrite !lookup_insert_ne by congruence; reflexivity).
  all: intros key; repeat (rewrite lookup_insert; destruct (decide _); [right; reflexivity|]);
       left; reflexivity.
Qed.

Lemma parse_generate_answer_lookup state texts i text :
  texts !! i = Some text ->
  exists s',
    parse_generate_answer U state texts !! i = Some s' /\
    parse_text U state text = Ok s'.
Proof.
  intros Hi. destruct (parse_text_ok state text) as (s' & Hs' & _).
  exists s'. split; [|exact Hs'].
  unfold parse_generate_answer. change (@map str thought_state) with (@fmap list _ str thought_state).
  rewrite list_lookup_fmap, Hi. cbn [fmap option_fmap option_map]. rewrite Hs'. reflexivity.
Qed.

End ParseFacts.

(** X15. [parse_generate_answer] returns one state per response, in the
    order of the responses.  The state for a response holds the names
    [extract_answer] reads from it as its final answer and the response
    itself under "current"; its ground truth and evaluation metrics are
    those of the state given; an entry is either as it was or the response,
    and it is as it was for every key other than "current", the three
    perspective keys, "merged_analysis" and the key made of the perspective
    and "_analysis". *)
Theorem parse_generate_answer_states (U : unicode_tables) (state : thought_state)
    (texts : list str) :
  length (parse_generate_answer U state texts) = length texts /\
  forall i text,
    texts !! i = Some text ->
    exists s',
      parse_generate_answer U state texts !! i = Some s' /\
      st_final_answer s' = Some (extract_answer U text) /\
      st_ground_truth s' = st_ground_truth state /\
      st_evaluation_metrics s' = st_evaluation_metrics state /\
      st_entries s' !! utf8 "current" = Some (Text text) /\
      (forall key, key ∉ written_keys state ->
                   st_entries s' !! key = st_entries state !! key) /\
      (forall key, st_entries s' !! key = st_entries state !! key \/
                   st_entries s' !! key = Some (Text text)).
Proof.
  split; [apply length_map|]. intros i text Hi.
  destruct (parse_generate_answer_lookup U state texts i text Hi) as (s' & Hlook & Hs').
  destruct (parse_text_ok U state text) as (s'' & Hs'' & Hrest).
  rewrite Hs' in Hs''. injection Hs'' as <-.
  exists s'. split; [exact Hlook | exact Hrest].
Qed.

(** ** From the response to the verdict *)

(** X16. Parsing, scoring and testing compose: for a response that ends in
    the answer line with the two names, after a text in which no "列表" is
    followed by a colon (directly or after one or two stars) and no
    "该视角识别的EIF功能点" is followed by a colon, parsed into a state
    whose ground truth holds these two names in any order and up to
    normalization, [parse_generate_answer] returns one state,
    [score_assessment] scores it 1 and [test_eif_assessment] answers True,
    without a change of the world. *)
Theorem true_names_on_the_answer_line_pass
    (U : unicode_tables) (World Response : Type) (g : globals World Response)
    (state : thought_state) (pre colon : str) (t : list str) (w : World) :
  colon ∈ colons ->
  no_digit U answer_alphabet ->
  quiet pre (answer_line colon (utf8 "[Job Info, Employee Info]")) = true ->
  st_ground_truth state = Some t ->
  NoDup (map (normalize_eif_name U) [utf8 "Job Info"; utf8 "Employee Info"]) ->
  map (normalize_eif_name U) [utf8 "Job Info"; utf8 "Employee Info"]
    ≡ₚ map (normalize_eif_name U) t ->
  exists s' st' score,
    parse_generate_answer U state
      [pre ++ answer_line colon (utf8 "[Job Info, Employee Info]")] = [s'] /\
    score_assessment U g s' w = (Ok (score, st'), w) /\ score == 1 /\
    test_eif_assessment U g s' w = (Ok (true, st'), w).
Proof.
  intros Hcolon Hd Hq Ht Hnd Hperm.
  destruct (parse_text_ok U state
              (pre ++ answer_line colon (utf8 "[Job Info, Employee Info]")))
    as (s' & Hparse & Hfa & Hgt & _).
  rewrite (extract_two_names U pre colon Hcolon Hd Hq) in Hfa. rewrite Ht in Hgt.
  destruct (calculate_perfect U World Response
              (GLOBAL_LM_FOR_SCORING g) (USE_LLM_SEMANTIC g)
              [utf8 "Job Info"; utf8 "Employee Info"] t w ltac:(discriminate) Hnd Hperm)
    as (rep & Hrun & _ & _ & Hf1 & _).
  exists s', (set_evaluation_metrics rep s'), (f1_score rep).
  split; [|split; [|split; [exact Hf1|]]].
  - unfold parse_generate_answer. cbn [map]. rewrite Hparse. reflexivity.
  - unfold score_assessment, get_ground_truth, try_except, bind.
    rewrite Hgt, Hfa. unfold ret. cbv beta iota. rewrite Hrun. reflexivity.
  - unfold test_eif_assessment, get_ground_truth, try_except, bind.
    rewrite Hgt, Hfa. unfold ret. cbv beta iota. rewrite Hrun.
    assert (Qle_bool (8 # 10) (f1_score rep) = true) as ->; [|reflexivity].
    apply Qle_bool_iff. rewrite Hf1. lra.
Qed.

Lemma true_names_on_the_answer_line_pass_witness :
  exists s' st' score,
    parse_generate_answer ascii_tables
      {| st_final_answer := None;
         st_ground_truth := Some [utf8 "employee info"; utf8 "JOB  INFO"];
         st_evaluation_metrics := None; st_entries := ∅ |}
      [utf8 "Two EIF candidates remain.
" ++ answer_line (utf8 ": ") (utf8 "[Job Info, Employee Info]")] = [s'] /\
    score_assessment ascii_tables (initial_globals unit unit) s' tt = (Ok (score, st'), tt) /\
    score == 1.
Proof.
  destruct (true_names_on_the_answer_line_pass ascii_tables unit unit
              (initial_globals unit unit)
              {| st_final_answer := None;
                 st_ground_truth := Some [utf8 "employee info"; utf8 "JOB  INFO"];
                 st_evaluation_metrics := None; st_entries := ∅ |}
              (utf8 "Two EIF candidates remain.
") (utf8 ": ") [utf8 "employee info"; utf8 "JOB  INFO"] tt)
    as (s' & st' & score & Hp & Hs & H1 & _).
  - vm_compute. repeat constructor.
  - apply Forall_fold_right. vm_compute. repeat split.
  - vm_compute. reflexivity.
  - reflexivity.
  - apply (bool_decide_unpack _). vm_compute. exact I.
  - assert (map (normalize_eif_name ascii_tables) [utf8 "Job Info"; utf8 "Employee Info"]
            = [utf8 "job info"; utf8 "employee info"]) as -> by (vm_compute; reflexivity).
    assert (map (normalize_eif_name ascii_tables) [utf8 "employee info"; utf8 "JOB  INFO"]
            = [utf8 "employee info"; utf8 "job info"]) as -> by (vm_compute; reflexivity).
    apply perm_swap.
  - exists s', st', score. split; [exact Hp|]. split; [exact Hs | exact H1].
Defined.

(** ** The ground truth of a sample *)

Lemma comma_pattern_compiled :
  compile false "[,，]" = class_pattern false [CChar 44%N; CChar 65292%N].
Proof. vm_compute. reflexivity. Qed.

Lemma lstrip_all (P : char -> Prop) s : Forall P s -> Forall P (lstrip s).
Proof.
  induction 1 as [|c s Hc Hs IH]; [constructor|]. cbn [lstrip].
  destruct (isspace c); [exact IH | constructor; assumption].
Qed.

Lemma strip_all (P : char -> Prop) s : Forall P s -> Forall P (strip s).
Proof.
  intros H. unfold strip, rstrip. apply Forall_rev, lstrip_all, Forall_rev, lstrip_all, H.
Qed.

(** X17. Whatever the cell of the data file, the ground-truth names [run]
    reads from it are not empty, have no whitespace at either end and hold
    no comma, ASCII or full-width; a cell that is empty or blank gives no
    name. *)
Theorem true_eif_list_names (U : unicode_tables) (cell : str) :
  Forall (fun x => x <> [] /\ strip x = x /\
                   Forall (fun c => c <> 44%N /\ c <> 65292%N) x)
         (true_eif_list U cell) /\
  (forallb isspace cell = true -> true_eif_list U cell = []).
Proof.
  unfold true_eif_list. cbv zeta. split.
  - destruct (_ && _); [|constructor].
    rewrite comma_pattern_compiled, re_split_class.
    apply Forall_forall. intros x Hx%list_elem_of_In%in_map_iff.
    destruct Hx as (item & <- & Hitem%filter_In). destruct Hitem as [Hin Hne].
    split; [|split].
    + destruct (strip item); [discriminate Hne | discriminate].
    + apply strip_idem.
    + apply strip_all.
      pose proof (pieces_clear (chr_ok U false [CChar 44%N; CChar 65292%N])
                    (strip cell)) as Hclear.
      rewrite Forall_forall in Hclear. apply list_elem_of_In in Hin.
      eapply Forall_impl; [exact (Hclear item Hin)|].
      intros c Hc. unfold chr_ok in Hc. cbn [existsb citem_mem xorb orb] in Hc.
      split; intros ->; cbn in Hc; discriminate.
  - intros Hblank. rewrite (strip_blank cell Hblank). reflexivity.
Qed.

(** ** Removing the groups in parentheses *)

Lemma app_opener (o : char) (a r a' b : str) :
  a ++ r = a' ++ o :: b -> o ∉ a -> exists m, a' = a ++ m /\ r = m ++ o :: b.
Proof.
  revert a'. induction a as [|x a IH]; intros a' H Ho; [exists a'; split; [reflexivity | exact H]|].
  destruct a' as [|y a'].
  - cbn [app] in H. injection H as -> _. contradiction Ho. left.
  - cbn [app] in H. injection H as -> H.
    destruct (IH a' H) as (m & -> & ->); [intros Hin; apply Ho; right; exact Hin|].
    exists m. split; reflexivity.
Qed.

Section GroupFacts.
Variable U : unicode_tables.
Variables o c : char.
Hypothesis distinct : o <> c.

Lemma star_class_stuck neg items greedy (k : kont) (Q : str -> Prop) :
  (forall x t, Q (x :: t) -> Q t) ->
  (forall t cs, Q t -> k t cs = None) ->
  forall n s cs, Q s -> star_loop (rmatch U (Chr neg items)) greedy k n s cs = None.
Proof.
  intros Htail Hk. induction n as [|n IH]; intros s cs HQ; cbn [star_loop]; [apply Hk, HQ|].
  rewrite (Hk s cs HQ).
  assert (rmatch U (Chr neg items) s cs
            (fun s' cs' =>
               if (length s' <? length s)%nat
               then star_loop (rmatch U (Chr neg items)) greedy k n s' cs'
               else None) = None) as ->.
  { cbn [rmatch]. destruct s as [|x t]; [reflexivity|].
    destruct (chr_ok U neg items x); [|reflexivity].
    destruct (_ <? _)%nat; [apply IH, (Htail x t HQ) | reflexivity]. }
  destruct greedy; reflexivity.
Qed.

Lemma group_re_unfold x t (k : kont) :
  rmatch U (group_re o c) (x :: t) [] k =
  if (x =? o)%N
  then star_loop (rmatch U (Chr true [CChar c])) true
         (fun s' cs' => rmatch U (Chr false [CChar c]) s' cs' k) (length t) t []
  else None.
Proof.
  unfold group_re, Lit.
  change (rmatch U (Cat (Chr false [CChar o])
                        (Cat (Star true (Chr true [CChar c])) (Chr false [CChar c])))
                 (x :: t) [] k)
    with (if chr_ok U false [CChar o] x
          then star_loop (rmatch U (Chr true [CChar c])) true
                 (fun s' cs' => rmatch U (Chr false [CChar c]) s' cs' k) (length t) t []
          else None).
  rewrite chr_ok_literal. reflexivity.
Qed.

Lemma here_group_none s : c ∉ s -> here U (group_re o c) s = None.
Proof.
  intros Hs. unfold here, match_here. destruct s as [|x t]; [reflexivity|].
  rewrite group_re_unfold. destruct (x =? o)%N; [|reflexivity].
  rewrite (star_class_stuck true [CChar c] true _ (fun t => c ∉ t)); [reflexivity| | |].
  - intros y t' H Hin. apply H. right. exact Hin.
  - intros t' cs H. cbn [rmatch]. destruct t' as [|y t']; [reflexivity|].
    rewrite chr_ok_literal. destruct (y =? c)%N eqn:E; [|reflexivity].
    apply N.eqb_eq in E. subst y. contradiction H. left.
  - intros Hin. apply Hs. right. exact Hin.
Qed.

Lemma here_group (q rest : str) :
  c ∉ q ->
  here U (group_re o c) (o :: q ++ c :: rest) =
  Some {| m_before := []; m_text := o :: q ++ [c]; m_groups := []; m_after := rest |}.
Proof.
  intros Hq. unfold here, match_here. rewrite group_re_unfold, N.eqb_refl.
  assert (drop_while (chr_ok U true [CChar c]) (q ++ c :: rest) = c :: rest) as Hdrop.
  { apply drop_while_until.
    - apply Forall_forall. intros d Hd. unfold chr_ok. cbn [existsb citem_mem orb xorb].
      destruct (d =? c)%N eqn:E; [|reflexivity].
      apply N.eqb_eq in E. subst d. contradiction.
    - unfold chr_ok. cbn [existsb citem_mem orb xorb]. rewrite N.eqb_refl. reflexivity. }
  rewrite star_class_greedy; rewrite ?Hdrop; [| lia |].
  - cbn [rmatch]. rewrite chr_ok_literal, N.eqb_refl.
    replace (o :: q ++ c :: rest) with ((o :: q ++ [c]) ++ rest)
      by (cbn [app]; rewrite <- app_assoc; reflexivity).
    rewrite take_prefix. reflexivity.
  - cbn [rmatch]. rewrite chr_ok_literal, N.eqb_refl. eauto.
Qed.

Lemma here_group_head x t : x <> o -> here U (group_re o c) (x :: t) = None.
Proof.
  intros Hx. unfold here, match_here. rewrite group_re_unfold.
  apply N.eqb_neq in Hx. rewrite Hx. reflexivity.
Qed.

Lemma scan_group_none s : c ∉ s -> scan U (group_re o c) s = None.
Proof.
  induction s as [|x t IH]; intros Hs; cbn [scan]; [reflexivity|].
  rewrite (here_group_none (x :: t) Hs), IH; [reflexivity|].
  intros Hin. apply Hs. right. exact Hin.
Qed.

Lemma scan_group_skip a s :
  o ∉ a -> scan U (group_re o c) (a ++ s) = prepend a <$> scan U (group_re o c) s.
Proof.
  intros Ha. induction a as [|x a IH]; cbn [app].
  - destruct (scan U (group_re o c) s) as [m|]; [|reflexivity].
    cbn. rewrite prepend_nil. reflexivity.
  - cbn [scan]. rewrite here_group_head by (intros ->; apply Ha; left).
    rewrite IH by (intros Hin; apply Ha; right; exact Hin).
    destruct (scan U (group_re o c) s) as [m|]; reflexivity.
Qed.

Lemma scan_group a q rest :
  o ∉ a -> c ∉ q ->
  scan U (group_re o c) (a ++ o :: q ++ c :: rest) =
  Some {| m_before := a; m_text := o :: q ++ [c]; m_groups := []; m_after := rest |}.
Proof.
  intros Ha Hq. rewrite (scan_group_skip a _ Ha). cbn [scan].
  rewrite (here_group q rest Hq). cbn. unfold prepend. cbn. rewrite app_nil_r. reflexivity.
Qed.

Lemma scan_group_open a q :
  o ∉ a -> c ∉ q -> scan U (group_re o c) (a ++ o :: q) = None.
Proof.
  intros Ha Hq. rewrite (scan_group_skip a _ Ha), scan_group_none; [reflexivity|].
  intros [Heq|Hin]%elem_of_cons; [apply distinct; symmetry; exact Heq | exact (Hq Hin)].
Qed.

Lemma scan_no_opener s : o ∉ s -> scan U (group_re o c) s = None.
Proof.
  intros Ho. pose proof (scan_group_skip s [] Ho) as H.
  rewrite app_nil_r in H. rewrite H. reflexivity.
Qed.

(** What is left when the groups are removed is a part of the text, in
    which no opening character is followed by a closing one. *)
Lemma remove_groups fuel : forall start s,
  (length s < fuel)%nat ->
  group_free o c (remove_matches (matches_from U fuel (group_pattern o c) start s) s) /\
  sublist (remove_matches (matches_from U fuel (group_pattern o c) start s) s) s.
Proof.
  induction fuel as [|f IH]; intros start s Hlen; [lia|].
  cbn [matches_from]. unfold search.
  change (anchored (group_pattern o c)) with false.
  change (body (group_pattern o c)) with (group_re o c). cbn [andb].
  destruct (decide (o ∈ s)) as [Ho|Ho].
  2:{ rewrite (scan_no_opener s Ho). cbn [remove_matches]. split; [|reflexivity].
      intros a b ->. contradiction Ho. apply elem_of_app. right. left. }
  apply list_elem_of_split_l in Ho as (a & t & -> & Ha).
  destruct (decide (c ∈ t)) as [Hc|Hc].
  - apply list_elem_of_split_l in Hc as (q & rest & -> & Hq).
    rewrite (scan_group a q rest Ha Hq). cbn [m_text m_after m_before remove_matches].
    destruct (IH false rest) as [Hfree Hsub].
    { rewrite length_app in Hlen. cbn [length] in Hlen.
      rewrite length_app in Hlen. cbn [length] in Hlen. lia. }
    split.
    + intros a' b Heq. apply app_opener in Heq as (m & -> & Heq); [|exact Ha].
      exact (Hfree m b Heq).
    + apply sublist_app; [reflexivity|]. apply sublist_cons.
      apply sublist_inserts_l. apply sublist_cons. exact Hsub.
  - rewrite (scan_group_open a t Ha Hc). cbn [remove_matches]. split; [|reflexivity].
    intros a' b Heq. apply app_opener in Heq as (m & -> & Heq); [|exact Ha].
    destruct m as [|x m]; cbn [app] in Heq.
    + injection Heq as Heq. subst b. exact Hc.
    + injection Heq as _ Heq. subst t. intros Hin. apply Hc.
      apply elem_of_app. right. right. exact Hin.
Qed.

Lemma sub_empty_groups s :
  group_free o c (sub_empty U (group_pattern o c) s) /\
  sublist (sub_empty U (group_pattern o c) s) s.
Proof. apply remove_groups. cbn [length]. lia. Qed.

End GroupFacts.

Lemma group_free_sublist o c (r s : str) :
  sublist r s -> group_free o c s -> group_free o c r.
Proof.
  intros Hsub Hfree a b ->.
  apply sublist_app_l in Hsub as (k1 & k2 & -> & _ & Hsub).
  apply sublist_cons_l in Hsub as (k3 & k4 & -> & Hsub).
  intros Hin. apply (Hfree (k1 ++ k3) k4); [rewrite <- app_assoc; reflexivity|].
  eapply elem_of_sublist; [exact Hin | exact Hsub].
Qed.

Lemma sublist_lstrip s : sublist (lstrip s) s.
Proof.
  induction s as [|x s IH]; [reflexivity|]. cbn [lstrip].
  destruct (isspace x); [apply sublist_cons; exact IH | reflexivity].
Qed.

Lemma sublist_rev' (l k : str) : sublist l k -> sublist (rev l) (rev k).
Proof.
  induction 1 as [|x l k _ IH|x l k _ IH]; cbn [rev]; [reflexivity| |].
  - apply sublist_app; [exact IH | reflexivity].
  - apply sublist_inserts_r. exact IH.
Qed.

Lemma sublist_strip s : sublist (strip s) s.
Proof.
  unfold strip, rstrip. transitivity (lstrip s); [|apply sublist_lstrip].
  rewrite <- (rev_involutive (lstrip s)) at 2. apply sublist_rev', sublist_lstrip.
Qed.

Lemma group_patterns_compiled :
  compile false "\([^)]*\)" = group_pattern 40%N 41%N /\
  compile false "（[^）]*）" = group_pattern 65288%N 65289%N.
Proof. split; vm_compute; reflexivity. Qed.

(** X18. In a normalized name no opening parenthesis is followed, however
    far, by a closing one: no group in parentheses is left, ASCII or
    full-width; and the name has no whitespace at either end. *)
Theorem normalized_names_hold_no_group (U : unicode_tables) (name : str) :
  group_free 40%N 41%N (normalize_eif_name U name) /\
  group_free 65288%N 65289%N (normalize_eif_name U name) /\
  strip (normalize_eif_name U name) = normalize_eif_name U name.
Proof.
  unfold normalize_eif_name. cbv zeta.
  destruct group_patterns_compiled as [-> ->].
  set (collapsed := join (utf8 " ") (split (strip (str_lower U name)))).
  destruct (sub_empty_groups U 40%N 41%N ltac:(discriminate) collapsed) as [Hfree1 _].
  destruct (sub_empty_groups U 65288%N 65289%N ltac:(discriminate)
              (sub_empty U (group_pattern 40%N 41%N) collapsed)) as [Hfree2 Hsub2].
  split; [|split].
  - eapply group_free_sublist; [|exact Hfree1].
    transitivity (sub_empty U (group_pattern 65288%N 65289%N)
                    (sub_empty U (group_pattern 40%N 41%N) collapsed));
      [apply sublist_strip | exact Hsub2].
  - eapply group_free_sublist; [apply sublist_strip | exact Hfree2].
  - apply strip_idem.
Qed.

(** ** Names that differ by a group in parentheses *)

Section DropGroups.
Variables o c : char.

Lemma drop_groups_closed h q rest :
  c ∉ q -> drop_groups o c (Some h) (q ++ c :: rest) = drop_groups o c None rest.
Proof.
  revert h. induction q as [|x q IH]; intros h Hq; cbn [app drop_groups].
  - rewrite N.eqb_refl. reflexivity.
  - assert ((x =? c)%N = false) as ->
      by (apply N.eqb_neq; intros ->; apply Hq; left).
    apply IH. intros Hin. apply Hq. right. exact Hin.
Qed.

Lemma drop_groups_open h s : c ∉ s -> drop_groups o c (Some h) s = h ++ s.
Proof.
  revert h. induction s as [|x s IH]; intros h Hs; cbn [drop_groups].
  - rewrite app_nil_r. reflexivity.
  - assert ((x =? c)%N = false) as ->
      by (apply N.eqb_neq; intros ->; apply Hs; left).
    rewrite IH, <- app_assoc by (intros Hin; apply Hs; right; exact Hin). reflexivity.
Qed.

(** A text without opening character passes through. *)
Lemma drop_groups_skip a s :
  o ∉ a -> drop_groups o c None (a ++ s) = a ++ drop_groups o c None s.
Proof.
  intros Ha. induction a as [|x a IH]; [reflexivity|]. cbn [app drop_groups].
  assert ((x =? o)%N = false) as ->
    by (apply N.eqb_neq; intros ->; apply Ha; left).
  rewrite IH by (intros Hin; apply Ha; right; exact Hin). reflexivity.
Qed.

Lemma drop_groups_none s : o ∉ s -> drop_groups o c None s = s.
Proof.
  intros Hs. pose proof (drop_groups_skip s [] Hs) as H.
  rewrite app_nil_r in H. rewrite H. cbn [drop_groups]. apply app_nil_r.
Qed.

Lemma drop_groups_first a q rest :
  o ∉ a -> c ∉ q ->
  drop_groups o c None (a ++ o :: q ++ c :: rest) = a ++ drop_groups o c None rest.
Proof.
  intros Ha Hq. rewrite (drop_groups_skip a _ Ha). cbn [drop_groups].
  rewrite N.eqb_refl. f_equal. apply drop_groups_closed, Hq.
Qed.

(** So does a text at the end that holds neither character. *)
Lemma drop_groups_end held s r :
  o ∉ r -> c ∉ r -> drop_groups o c held (s ++ r) = drop_groups o c held s ++ r.
Proof.
  intros Ho Hc. revert held. induction s as [|x s IH]; intros held.
  - cbn [app]. destruct held as [h|].
    + rewrite (drop_groups_open h r Hc). reflexivity.
    + cbn [drop_groups app]. apply drop_groups_none, Ho.
  - cbn [app drop_groups]. destruct held as [h|].
    + destruct (x =? c)%N; apply IH.
    + destruct (x =? o)%N; [apply IH | rewrite IH; reflexivity].
Qed.

Variable U : unicode_tables.
Hypothesis distinct : o <> c.

(** [re.sub] with the pattern of a group removes the groups. *)
Lemma remove_matches_groups fuel : forall start s,
  (length s < fuel)%nat ->
  remove_matches (matches_from U fuel (group_pattern o c) start s) s
  = drop_groups o c None s.
Proof.
  induction fuel as [|f IH]; intros start s Hlen; [lia|].
  cbn [matches_from]. unfold search.
  change (anchored (group_pattern o c)) with false.
  change (body (group_pattern o c)) with (group_re o c). cbn [andb].
  destruct (decide (o ∈ s)) as [Ho|Ho].
  2:{ rewrite (scan_no_opener U o c s Ho). cbn [remove_matches].
      symmetry. apply drop_groups_none, Ho. }
  apply list_elem_of_split_l in Ho as (a & t & -> & Ha).
  destruct (decide (c ∈ t)) as [Hc|Hc].
  - apply list_elem_of_split_l in Hc as (q & rest & -> & Hq).
    rewrite (scan_group U o c distinct a q rest Ha Hq).
    cbn [m_text m_after m_before remove_matches].
    rewrite (drop_groups_first a q rest Ha Hq). f_equal. apply IH.
    rewrite length_app in Hlen. cbn [length] in Hlen.
    rewrite length_app in Hlen. cbn [length] in Hlen. lia.
  - rewrite (scan_group_open U o c distinct a t Ha Hc). cbn [remove_matches].
    rewrite (drop_groups_skip a _ Ha). cbn [drop_groups]. rewrite N.eqb_refl.
    f_equal. symmetry. exact (drop_groups_open [o] t Hc).
Qed.

Lemma sub_empty_drop_groups s :
  sub_empty U (group_pattern o c) s = drop_groups o c None s.
Proof. apply remove_matches_groups. cbn [length]. lia. Qed.

End DropGroups.

Lemma strip_spaces z :
  exists l r, forallb isspace l = true /\ forallb isspace r = true /\ z = l ++ strip z ++ r.
Proof.
  assert (forall s, exists ws, forallb isspace ws = true /\ s = ws ++ lstrip s) as Hl.
  { intros s. destruct (lstrip_spaces s) as (ws & Hws & Hs). exists ws. split; [|exact Hs].
    apply forallb_forall. intros x Hx. rewrite Forall_forall in Hws.
    apply Hws, list_elem_of_In, Hx. }
  destruct (Hl z) as (l & Hlws & Hz).
  destruct (Hl (rev (lstrip z))) as (r & Hrws & Hrev).
  exists l, (rev r). split; [exact Hlws|]. split.
  - rewrite forallb_forall in *. intros x Hx. apply Hrws, in_rev, Hx.
  - unfold strip, rstrip. rewrite Hz at 1. f_equal.
    rewrite <- (rev_involutive (lstrip z)). rewrite Hrev at 1.
    rewrite rev_app_distr, rev_involutive. reflexivity.
Qed.

Section GroupDifference.
Variable U : unicode_tables.

(** The last three steps of [normalize_eif_name]. *)
Let strip_parens (z : str) : str :=
  strip (drop_groups 65288%N 65289%N None (drop_groups 40%N 41%N None z)).

Lemma normalize_eif_name_steps name :
  normalize_eif_name U name = strip_parens (single_spaced U name).
Proof.
  unfold normalize_eif_name, strip_parens, single_spaced. cbv zeta.
  destruct group_patterns_compiled as [-> ->].
  rewrite !sub_empty_drop_groups by discriminate. rewrite split_strip. reflexivity.
Qed.

Lemma space_not_paren l x : forallb isspace l = true -> isspace x = false -> x ∉ l.
Proof.
  intros Hl Hx Hin. rewrite forallb_forall in Hl.
  apply list_elem_of_In, Hl in Hin. congruence.
Qed.

Lemma strip_parens_strip z : strip_parens (strip z) = strip_parens z.
Proof.
  destruct (strip_spaces z) as (l & r & Hl & Hr & Hz).
  unfold strip_parens. rewrite Hz at 2.
  assert (forall o c s, isspace o = false -> isspace c = false ->
            drop_groups o c None (l ++ s ++ r) = l ++ drop_groups o c None s ++ r) as Hpad.
  { intros o c s Ho Hc.
    transitivity (l ++ drop_groups o c None (s ++ r));
      [apply drop_groups_skip, space_not_paren; assumption|].
    f_equal. apply drop_groups_end; apply space_not_paren; assumption. }
  transitivity (strip (l ++ drop_groups 65288%N 65289%N None
                               (drop_groups 40%N 41%N None (strip z)) ++ r));
    [symmetry; apply strip_pad; assumption|].
  f_equal. symmetry.
  transitivity (drop_groups 65288%N 65289%N None
                  (l ++ drop_groups 40%N 41%N None (strip z) ++ r));
    [f_equal; apply Hpad; reflexivity | apply Hpad; reflexivity].
Qed.

Lemma drops_group_strip_parens z z' : drops_group z z' -> strip_parens z = strip_parens z'.
Proof.
  intros [x q y Hx Hq | x q y Hx Hq Hx' Hq']; unfold strip_parens; f_equal.
  - f_equal. transitivity (x ++ drop_groups 40%N 41%N None y);
      [apply drop_groups_first; assumption | symmetry; apply drop_groups_skip; assumption].
  - assert (40%N ∉ x ++ 65288%N :: q ++ [65289%N]) as Hpre.
    { rewrite elem_of_app, elem_of_cons, elem_of_app, list_elem_of_singleton.
      intros [H|[H|[H|H]]]; [exact (Hx' H) | discriminate H | exact (Hq' H) | discriminate H]. }
    assert (drop_groups 40%N 41%N None (x ++ 65288%N :: q ++ 65289%N :: y)
            = x ++ 65288%N :: q ++ 65289%N :: drop_groups 40%N 41%N None y) as ->.
    { replace (x ++ 65288%N :: q ++ 65289%N :: y)
        with ((x ++ 65288%N :: q ++ [65289%N]) ++ y)
        by (rewrite <- !app_assoc; cbn [app]; rewrite <- app_assoc; reflexivity).
      transitivity ((x ++ 65288%N :: q ++ [65289%N]) ++ drop_groups 40%N 41%N None y);
        [apply drop_groups_skip; exact Hpre|].
      rewrite <- !app_assoc. cbn [app]. rewrite <- app_assoc. reflexivity. }
    assert (drop_groups 40%N 41%N None (x ++ y) = x ++ drop_groups 40%N 41%N None y) as ->
      by (apply drop_groups_skip; exact Hx').
    transitivity (x ++ drop_groups 65288%N 65289%N None (drop_groups 40%N 41%N None y));
      [apply drop_groups_first; assumption | symmetry; apply drop_groups_skip; assumption].
Qed.

Lemma normalize_without_groups a b z :
  rtc drops_group (single_spaced U a) z -> single_spaced U b = strip z ->
  normalize_eif_name U a = normalize_eif_name U b.
Proof.
  intros Hrtc Hb. rewrite !normalize_eif_name_steps, Hb, strip_parens_strip. clear Hb.
  induction Hrtc as [|z1 z2 z3 Hstep _ IH]; [reflexivity|].
  rewrite (drops_group_strip_parens z1 z2 Hstep). exact IH.
Qed.

Lemma normalize_same_words a b :
  same_modulo_case_and_space U a b -> normalize_eif_name U a = normalize_eif_name U b.
Proof.
  intros Hab. rewrite !normalize_eif_name_steps. unfold single_spaced.
  rewrite (rtsc_ws_edit_split _ _ Hab). reflexivity.
Qed.

End GroupDifference.

(** C5, amended. [normalize_eif_name] collapses the whitespace before it
    strips the parentheses.  Names that differ only by case and by
    surrounding or extra whitespace normalize to the same string.  So do
    two names when the second, in lower case and single-spaced, is what is
    left of the first, in lower case and single-spaced, once groups in
    ASCII or full-width parentheses are taken out and the ends trimmed:
    groups at the end or at the start of a name, groups that touch a word,
    groups of several words, and several groups.  A group that stands
    between two spaces inside a name is not among them: it leaves both
    spaces.  Nine spellings of "Client Info" normalize to "client info". *)
Theorem normalize_eif_name_ignores_case_and_spacing :
  (forall U a b,
     same_modulo_case_and_space U a b ->
     normalize_eif_name U a = normalize_eif_name U b) /\
  (forall U a b z,
     rtc drops_group (single_spaced U a) z -> single_spaced U b = strip z ->
     normalize_eif_name U a = normalize_eif_name U b) /\
  Forall (fun name => normalize_eif_name ascii_tables name = utf8 "client info")
    [utf8 "Client Info"; utf8 "  CLIENT   info "; utf8 "Client Info (legacy)";
     utf8 "Client Info（旧版）"; utf8 "Client Info (old legacy version)";
     utf8 "Client Info(legacy)"; utf8 "(legacy) Client Info";
     utf8 "Client Info  (legacy)  "; utf8 "Client Info (a) (b)"].
Proof.
  split; [exact normalize_same_words|]. split; [exact normalize_without_groups|].
  repeat (apply List.Forall_cons; [vm_compute; reflexivity|]). apply List.Forall_nil.
Qed.

(** The names "  Customer MASTER" and "customer master" differ only by
    case and leading whitespace; "Client (a)（b） Info(c)" is "client info"
    with three groups, none of them between two spaces once the groups
    before it are taken out. *)
Lemma normalize_eif_name_ignores_case_and_spacing_witness :
  same_modulo_case_and_space ascii_tables (utf8 "  Customer MASTER") (utf8 "customer master") /\
  normalize_eif_name ascii_tables (utf8 "  Customer MASTER")
  = normalize_eif_name ascii_tables (utf8 "customer master") /\
  rtc drops_group (single_spaced ascii_tables (utf8 "Client(a)（b） Info (c)"))
      (utf8 "client info ") /\
  normalize_eif_name ascii_tables (utf8 "Client(a)（b） Info (c)")
  = normalize_eif_name ascii_tables (utf8 "CLIENT  Info").
Proof.
  assert (same_modulo_case_and_space ascii_tables
            (utf8 "  Customer MASTER") (utf8 "customer master")) as H.
  { unfold same_modulo_case_and_space.
    assert (str_lower ascii_tables (utf8 "  Customer MASTER")
            = 32%N :: 32%N :: str_lower ascii_tables (utf8 "customer master")) as ->
      by (vm_compute; reflexivity).
    eapply rtc_l; [left; apply ws_lead; reflexivity|].
    eapply rtc_l; [left; apply ws_lead; reflexivity|].
    apply rtc_refl. }
  assert (rtc drops_group (single_spaced ascii_tables (utf8 "Client(a)（b） Info (c)"))
            (utf8 "client info ")) as Hg.
  { assert (single_spaced ascii_tables (utf8 "Client(a)（b） Info (c)")
            = utf8 "client" ++ 40%N :: utf8 "a" ++ 41%N :: utf8 "（b） info (c)") as ->
      by (vm_compute; reflexivity).
    apply (rtc_l _ _ (utf8 "client" ++ utf8 "（b） info (c)")).
    { apply drops_ascii; apply (bool_decide_unpack _); vm_compute; exact I. }
    assert (utf8 "client" ++ utf8 "（b） info (c)"
            = utf8 "client（b） info " ++ 40%N :: utf8 "c" ++ 41%N :: []) as ->
      by (vm_compute; reflexivity).
    apply (rtc_l _ _ (utf8 "client（b） info " ++ [])).
    { apply drops_ascii; apply (bool_decide_unpack _); vm_compute; exact I. }
    assert (utf8 "client（b） info " ++ []
            = utf8 "client" ++ 65288%N :: utf8 "b" ++ 65289%N :: utf8 " info ") as ->
      by (vm_compute; reflexivity).
    apply (rtc_l _ _ (utf8 "client" ++ utf8 " info ")).
    { apply drops_cjk; apply (bool_decide_unpack _); vm_compute; exact I. }
    assert (utf8 "client" ++ utf8 " info " = utf8 "client info ") as ->
      by (vm_compute; reflexivity).
    apply rtc_refl. }
  split; [exact H|].
  split; [exact (proj1 normalize_eif_name_ignores_case_and_spacing ascii_tables _ _ H)|].
  split; [exact Hg|].
  apply (proj1 (proj2 normalize_eif_name_ignores_case_and_spacing) ascii_tables _ _ _ Hg).
  vm_compute. reflexivity.
Defined.

(** ** Characters a pattern cannot do without *)

Section RequiresFacts.
Variable U : unicode_tables.
Variable c : char.

Lemma star_loop_free ma greedy (k : kont) :
  (forall s cs (h : kont),
     c ∉ s -> (forall s' cs', c ∉ s' -> h s' cs' = None) -> ma s cs h = None) ->
  (forall s cs, c ∉ s -> k s cs = None) ->
  forall n s cs, c ∉ s -> star_loop ma greedy k n s cs = None.
Proof.
  intros Hma Hk. induction n as [|n IH]; intros s cs Hs; cbn [star_loop]; [apply Hk, Hs|].
  rewrite (Hk s cs Hs), Hma; [destruct greedy; reflexivity | exact Hs|].
  intros s' cs' Hs'. destruct (_ <? _)%nat; [apply IH, Hs' | reflexivity].
Qed.

(** A match on a text without [c] hands a text without [c] on. *)
Lemma rmatch_free (r : re) :
  forall s cs (k : kont),
    c ∉ s -> (forall s' cs', c ∉ s' -> k s' cs' = None) -> rmatch U r s cs k = None.
Proof.
  induction r as [|neg items|a IHa b IHb|a IHa b IHb|g a IHa|i a IHa|p a IHa| |];
    intros s cs k Hs Hk; cbn [rmatch].
  - apply Hk, Hs.
  - destruct s as [|x t]; [reflexivity|]. destruct (chr_ok U neg items x); [|reflexivity].
    apply Hk. intros Hin. apply Hs. right. exact Hin.
  - apply IHa; [exact Hs|]. intros s' cs' Hs'. apply IHb; [exact Hs' | exact Hk].
  - rewrite IHa, IHb by assumption. reflexivity.
  - apply star_loop_free; [|exact Hk | exact Hs].
    intros s' cs' h Hs' Hh. apply IHa; assumption.
  - apply IHa; [exact Hs|]. intros s' cs' Hs'. apply Hk, Hs'.
  - destruct (rmatch U a s cs _) as [[? cs']|]; destruct p; try reflexivity; apply Hk, Hs.
  - destruct s as [|x [|y t]]; [apply Hk, Hs | | reflexivity].
    destruct (x =? 10)%N; [apply Hk, Hs | reflexivity].
  - destruct s; [apply Hk, Hs | reflexivity].
Qed.

Lemma requires_sound (r : re) :
  requires c r = true ->
  forall s cs (k : kont), c ∉ s -> rmatch U r s cs k = None.
Proof.
  induction r as [|neg items|a IHa b IHb|a IHa b IHb|g a IHa|i a IHa|p a IHa| |];
    intros Hreq s cs k Hs; cbn [requires] in Hreq; try discriminate Hreq.
  - destruct neg; [discriminate|]. destruct items as [|[d| | |] [|? ?]]; try discriminate.
    apply N.eqb_eq in Hreq. subst d. cbn [rmatch]. destruct s as [|x t]; [reflexivity|].
    rewrite chr_ok_literal. destruct (x =? c)%N eqn:E; [|reflexivity].
    apply N.eqb_eq in E. subst x. contradiction Hs. left.
  - cbn [rmatch]. apply orb_true_iff in Hreq as [Ha|Hb]; [apply IHa; assumption|].
    apply rmatch_free; [exact Hs|]. intros s' cs' Hs'. apply IHb; assumption.
  - cbn [rmatch]. apply andb_true_iff in Hreq as [Ha Hb].
    rewrite IHa, IHb by assumption. reflexivity.
  - cbn [rmatch]. apply IHa; assumption.
Qed.

(** A pattern finds nothing in a text without a character it requires. *)
Lemma search_requires (p : pattern) (s : str) :
  requires c (body p) = true -> c ∉ s -> search U p s = None.
Proof.
  intros Hreq Hs.
  assert (forall t, c ∉ t -> here U (body p) t = None) as Hhere.
  { intros t Ht. unfold here, match_here. rewrite requires_sound by assumption. reflexivity. }
  unfold search. destruct (anchored p); [apply Hhere, Hs|].
  induction s as [|x t IH]; cbn [scan]; rewrite Hhere by exact Hs; [reflexivity|].
  rewrite IH; [reflexivity|]. intros Hin. apply Hs. right. exact Hin.
Qed.

End RequiresFacts.

(** ** The bracketed list of an answer line *)

Section ListTail.
Variable U : unicode_tables.

Lemma rmatch_star_class neg items (k : kont) s cs :
  is_Some (k (drop_while (chr_ok U neg items) s) cs) ->
  rmatch U (Star true (Chr neg items)) s cs k = k (drop_while (chr_ok U neg items) s) cs.
Proof.
  intros Hk.
  change (star_loop (rmatch U (Chr neg items)) true k (length s) s cs
          = k (drop_while (chr_ok U neg items) s) cs).
  apply star_class_greedy; [lia | exact Hk].
Qed.

Lemma rmatch_lits L r s cs (k : kont) :
  rmatch U (lits L r) (L ++ s) cs k = rmatch U r s cs k.
Proof.
  induction L as [|c L IH]; [reflexivity|]. cbn [lits fold_right app].
  change (rmatch U (Cat (Lit c) (fold_right (fun c r => Cat (Lit c) r) r L))
                 (c :: L ++ s) cs k)
    with (if chr_ok U false [CChar c] c then rmatch U (lits L r) (L ++ s) cs k else None).
  rewrite chr_ok_literal, N.eqb_refl. exact IH.
Qed.

Lemma rmatch_optional_star r x t cs (k : kont) :
  x <> 42%N ->
  rmatch U (Cat (Alt (Chr false [CChar 42%N]) Eps) r) (x :: t) cs k
  = rmatch U r (x :: t) cs k.
Proof.
  intros Hx.
  change (rmatch U (Cat (Alt (Chr false [CChar 42%N]) Eps) r) (x :: t) cs k)
    with (orelse (if chr_ok U false [CChar 42%N] x then rmatch U r t cs k else None)
                 (rmatch U r (x :: t) cs k)).
  rewrite chr_ok_literal. apply N.eqb_neq in Hx. rewrite Hx. reflexivity.
Qed.

(** The colon, the blanks and the bracketed list, read to the end of the
    text. *)
Lemma rmatch_list_tail colon sp body cs :
  colon = 65306%N \/ colon = 58%N ->
  Forall (fun x => isspace x = true) sp ->
  body <> [] -> 93%N ∉ body ->
  rmatch U list_tail_re (colon :: sp ++ 91%N :: body ++ [93%N]) cs
         (fun s' cs' => Some (s', cs'))
  = Some ([], (1%nat, body) :: cs).
Proof.
  intros Hcolon Hsp Hne Hbody. destruct body as [|b0 body]; [congruence|].
  assert (chr_ok U true [CChar 93%N] b0 = true) as Hb0.
  { unfold chr_ok. cbn [existsb citem_mem orb xorb].
    destruct (b0 =? 93)%N eqn:E; [|reflexivity].
    apply N.eqb_eq in E. subst b0. contradiction Hbody. left. }
  assert (drop_while (chr_ok U true [CChar 93%N]) (body ++ [93%N]) = [93%N]) as Hdrop.
  { apply drop_while_until; [|reflexivity].
    apply Forall_forall. intros d Hd. unfold chr_ok. cbn [existsb citem_mem orb xorb].
    destruct (d =? 93)%N eqn:E; [|reflexivity].
    apply N.eqb_eq in E. subst d. contradiction Hbody. right. exact Hd. }
  assert (drop_while (chr_ok U false [CSpace]) (sp ++ 91%N :: (b0 :: body) ++ [93%N])
          = 91%N :: (b0 :: body) ++ [93%N]) as Hsp'.
  { apply drop_while_until; [|reflexivity].
    eapply Forall_impl; [exact Hsp|]. intros x Hx. unfold chr_ok.
    cbn [existsb citem_mem orb xorb]. rewrite Hx. reflexivity. }
  (* what the list itself gives *)
  assert (rmatch U (Cat (Lit 91%N)
                        (Cat (Group 1 (Cat (Chr true [CChar 93%N])
                                           (Star true (Chr true [CChar 93%N]))))
                             (Lit 93%N)))
                 (91%N :: (b0 :: body) ++ [93%N]) cs (fun s' cs' => Some (s', cs'))
          = Some ([], (1%nat, b0 :: body) :: cs)) as Hlist.
  { unfold Lit.
    change (rmatch U (Cat (Chr false [CChar 91%N])
                          (Cat (Group 1 (Cat (Chr true [CChar 93%N])
                                             (Star true (Chr true [CChar 93%N]))))
                               (Chr false [CChar 93%N])))
                   (91%N :: (b0 :: body) ++ [93%N]) cs (fun s' cs' => Some (s', cs')))
      with (if chr_ok U true [CChar 93%N] b0
            then rmatch U (Star true (Chr true [CChar 93%N])) (body ++ [93%N]) cs
                   (fun s' cs' =>
                      rmatch U (Chr false [CChar 93%N]) s'
                        ((1%nat, take (length ((b0 :: body) ++ [93%N]) - length s')
                                      ((b0 :: body) ++ [93%N])) :: cs')
                        (fun s'' cs'' => Some (s'', cs'')))
            else None).
    rewrite Hb0, rmatch_star_class; rewrite Hdrop.
    - cbn [rmatch]. rewrite chr_ok_literal. cbn [N.eqb Pos.eqb].
      change [93%N] with ([93%N] ++ []) at 1. rewrite take_prefix. reflexivity.
    - cbn [rmatch]. rewrite chr_ok_literal. cbn [N.eqb Pos.eqb]. eauto. }
  unfold list_tail_re.
  change (rmatch U (Cat (Chr false [CChar 65306%N; CChar 58%N]) ?r) (colon :: ?t) cs ?k)
    with (if chr_ok U false [CChar 65306%N; CChar 58%N] colon
          then rmatch U r t cs k else None).
  assert (chr_ok U false [CChar 65306%N; CChar 58%N] colon = true) as ->
    by (destruct Hcolon as [-> | ->]; reflexivity).
  change (rmatch U (Cat (Star true (Chr false [CSpace])) ?r) ?t cs ?k)
    with (rmatch U (Star true (Chr false [CSpace])) t cs (fun s' cs' => rmatch U r s' cs' k)).
  rewrite rmatch_star_class; rewrite Hsp'; [exact Hlist | rewrite Hlist; eauto].
Qed.

End ListTail.

(** ** Names on an answer line *)

Lemma length_rstrip s : (length (rstrip s) <= length s)%nat.
Proof.
  unfold rstrip. rewrite length_rev. pose proof (length_lstrip (rev s)) as H.
  rewrite length_rev in H. exact H.
Qed.

(** A trimmed text starts and ends with a character that is no
    whitespace. *)
Lemma strip_fixed_ends s :
  strip s = s -> s <> [] -> lstrip s = s /\ rstrip s = s.
Proof.
  intros Hs Hne.
  assert (lstrip s = s) as Hl.
  { destruct s as [|x t]; [congruence|]. cbn [lstrip]. destruct (isspace x) eqn:Hx; [|reflexivity].
    exfalso. unfold strip in Hs. cbn [lstrip] in Hs. rewrite Hx in Hs.
    pose proof (length_rstrip (lstrip t)) as H1. pose proof (length_lstrip t) as H2.
    rewrite Hs in H1. cbn [length] in H1. lia. }
  split; [exact Hl|]. unfold strip in Hs. rewrite Hl in Hs. exact Hs.
Qed.

Lemma rstrip_app pre s : rstrip s = s -> s <> [] -> rstrip (pre ++ s) = pre ++ s.
Proof.
  intros Hr Hne. unfold rstrip in *. rewrite rev_app_distr.
  assert (lstrip (rev s) = rev s) as Hrev.
  { rewrite <- Hr at 2. rewrite rev_involutive. reflexivity. }
  destruct (lstrip_fixed (rev s) Hrev) as (x & t & Hs & Hx).
  { intros Hnil. apply Hne. rewrite <- (rev_involutive s), Hnil. reflexivity. }
  rewrite Hs. cbn [app lstrip]. rewrite Hx.
  change (x :: t ++ rev pre) with ((x :: t) ++ rev pre).
  rewrite <- Hs, rev_app_distr, !rev_involutive. reflexivity.
Qed.

Section PlainNames.
Variable U : unicode_tables.

Lemma plain_name_tidy n : plain_name U n -> tidy n.
Proof. intros (_ & Hclean & _). rewrite <- Hclean. apply clean_eif_name_tidy. Qed.

Lemma plain_name_strip n : plain_name U n -> strip n = n.
Proof. intros H. apply (plain_name_tidy n H). Qed.

Lemma plain_name_avoids n x : plain_name U n -> x ∈ reserved -> x ∉ n.
Proof.
  intros (_ & _ & Havoid) Hx Hin. rewrite Forall_forall in Havoid.
  exact (Havoid x Hin Hx).
Qed.

Lemma plain_name_no_bracket n : plain_name U n -> (91%N ∉ n) /\ (93%N ∉ n).
Proof.
  intros H. destruct (plain_name_tidy n H) as (_ & _ & Hb).
  unfold bracket_free in Hb. rewrite Forall_forall in Hb.
  split; intros Hin; destruct (Hb _ Hin) as [H1 H2]; congruence.
Qed.

(** The names joined with a comma and a space: what may occur in the
    text, and its two ends. *)
Lemma joined_names names :
  names <> [] -> Forall (plain_name U) names ->
  let body := join (utf8 ", ") names in
  body <> [] /\ strip body = body /\
  (forall x, x ∈ body -> x = 44%N \/ x = 32%N \/ exists n, n ∈ names /\ x ∈ n).
Proof.
  intros Hne Hall body. split; [|split].
  - destruct names as [|n [|n' names]]; [congruence| |].
    + apply Forall_cons in Hall as [(Hn & _) _]. exact Hn.
    + apply Forall_cons in Hall as [(Hn & _) _]. subst body.
      change (join (utf8 ", ") (n :: n' :: names))
        with (n ++ utf8 ", " ++ join (utf8 ", ") (n' :: names)).
      destruct n; [congruence | discriminate].
  - subst body. induction Hall as [|n names Hn Hall IH]; [congruence|].
    destruct names as [|n' names]; [exact (plain_name_strip n Hn)|].
    change (join (utf8 ", ") (n :: n' :: names))
      with (n ++ utf8 ", " ++ join (utf8 ", ") (n' :: names)).
    specialize (IH ltac:(discriminate)).
    assert (join (utf8 ", ") (n' :: names) <> []) as Hrest.
    { apply Forall_cons in Hall as [(Hn' & _) _].
      destruct names as [|n'' names]; [exact Hn'|].
      change (join (utf8 ", ") (n' :: n'' :: names))
        with (n' ++ utf8 ", " ++ join (utf8 ", ") (n'' :: names)).
      destruct n'; [congruence | discriminate]. }
    destruct (strip_fixed_ends _ IH Hrest) as [_ Hr].
    destruct (strip_fixed_ends n (plain_name_strip n Hn) (proj1 Hn)) as [Hl _].
    unfold strip.
    assert (lstrip (n ++ utf8 ", " ++ join (utf8 ", ") (n' :: names))
            = n ++ utf8 ", " ++ join (utf8 ", ") (n' :: names)) as ->.
    { destruct Hn as (Hn & _). destruct n as [|x t]; [congruence|].
      cbn [lstrip app] in *. destruct (isspace x); [|reflexivity].
      exfalso. pose proof (length_lstrip t) as Hlen. rewrite Hl in Hlen.
      cbn [length] in Hlen. lia. }
    rewrite (app_assoc n), rstrip_app by assumption. rewrite <- app_assoc. reflexivity.
  - intros x Hx. subst body. apply join_chars in Hx as [Hx|Hx]; [|right; right; exact Hx].
    apply elem_of_cons in Hx as [->|Hx]; [left; reflexivity|].
    apply elem_of_cons in Hx as [->|Hx]; [right; left; reflexivity | inversion Hx].
Qed.

End PlainNames.

(** ** Splitting the list of an answer line *)

Lemma pieces_from_app_clear (sep : char -> bool) (w : str) :
  Forall (fun x => sep x = false) w ->
  forall acc s, pieces_from sep acc (w ++ s) = pieces_from sep (acc ++ w) s.
Proof.
  induction 1 as [|x w Hx _ IH]; intros acc s; [rewrite app_nil_r; reflexivity|].
  cbn [app pieces_from]. rewrite Hx, IH, <- app_assoc. reflexivity.
Qed.

Lemma pieces_from_join (sep : char -> bool) (rest : list str) :
  sep 44%N = true -> sep 32%N = false ->
  forall n acc,
    Forall (Forall (fun x => sep x = false)) (n :: rest) ->
    pieces_from sep acc (join (utf8 ", ") (n :: rest)) = (acc ++ n) :: map (cons 32%N) rest.
Proof.
  intros Hcomma Hspace. induction rest as [|n' rest IH]; intros n acc Hall.
  - apply Forall_cons in Hall as [Hn _]. cbn [join map].
    rewrite <- (app_nil_r n) at 1. rewrite (pieces_from_app_clear sep n Hn). reflexivity.
  - apply Forall_cons in Hall as [Hn Hall].
    change (join (utf8 ", ") (n :: n' :: rest))
      with (n ++ 44%N :: 32%N :: join (utf8 ", ") (n' :: rest)).
    rewrite (pieces_from_app_clear sep n Hn). cbn [pieces_from]. rewrite Hcomma, Hspace.
    cbn [app]. f_equal. exact (IH n' [32%N] Hall).
Qed.

Lemma filter_keeps_all {A} (q : A -> bool) (l : list A) :
  Forall (fun x => q x = true) l -> List.filter q l = l.
Proof.
  induction 1 as [|x l Hx _ IH]; [reflexivity|]. cbn [List.filter]. rewrite Hx, IH. reflexivity.
Qed.

Section SplitNames.
Variable U : unicode_tables.

Lemma separator_pattern_compiled :
  compile false "[,，、;；]" = class_pattern false separators.
Proof. vm_compute. reflexivity. Qed.

Lemma reserved_chars :
  reserved = [44%N; 65292%N; 12289%N; 59%N; 65307%N; 42%N; 26368%N; 25913%N; 35813%N].
Proof. vm_compute. reflexivity. Qed.

Lemma separator_reserved x : chr_ok U false separators x = true -> x ∈ reserved.
Proof.
  unfold chr_ok, separators. cbn [existsb citem_mem xorb].
  rewrite !orb_true_iff, !N.eqb_eq, reserved_chars. intros H.
  rewrite !elem_of_cons.
  destruct H as [H|[H|[H|[H|[H|H]]]]]; [subst; tauto..|discriminate].
Qed.

Lemma plain_name_clear n :
  plain_name U n -> Forall (fun x => chr_ok U false separators x = false) n.
Proof.
  intros Hn. apply Forall_forall. intros x Hx.
  destruct (chr_ok U false separators x) eqn:E; [|reflexivity].
  exfalso. exact (plain_name_avoids U n x Hn (separator_reserved x E) Hx).
Qed.

Lemma strip_after_space n : plain_name U n -> strip (32%N :: n) = n.
Proof.
  intros Hn. transitivity (strip n); [reflexivity | exact (plain_name_strip U n Hn)].
Qed.

(** The names come back from the list that joins them. *)
Lemma names_from_list names :
  names <> [] -> Forall (plain_name U) names ->
  map (fun item => clean_eif_name U (strip item))
      (List.filter (fun item => truthy (strip item))
                   (re_split U (compile false "[,，、;；]") (join (utf8 ", ") names)))
  = names.
Proof.
  intros Hne Hall. rewrite separator_pattern_compiled, re_split_class.
  destruct names as [|n rest]; [congruence|]. unfold pieces.
  rewrite pieces_from_join; [|reflexivity|reflexivity|].
  2:{ eapply Forall_impl; [exact Hall|]. intros m Hm. exact (plain_name_clear m Hm). }
  cbn [app]. apply Forall_cons in Hall as [Hn Hrest].
  cbn [List.filter]. rewrite (plain_name_strip U n Hn).
  destruct Hn as (Hn & Hclean & Havoid).
  assert (truthy n = true) as -> by (destruct n; [congruence | reflexivity]).
  cbn [map]. rewrite (plain_name_strip U n (conj Hn (conj Hclean Havoid))), Hclean.
  f_equal. clear n Hn Hclean Havoid Hne.
  induction Hrest as [|m rest Hm _ IH]; [reflexivity|].
  cbn [map List.filter]. rewrite (strip_after_space m Hm).
  assert (truthy m = true) as -> by (destruct Hm as (Hm & _); destruct m; [congruence | reflexivity]).
  cbn [map]. rewrite (strip_after_space m Hm), IH. f_equal. apply Hm.
Qed.

Lemma names_are_kept names :
  Forall (plain_name U) names ->
  List.filter (fun item => truthy item && (0 <? length item)%nat) names = names.
Proof.
  intros Hall. apply filter_keeps_all. eapply Forall_impl; [exact Hall|].
  intros n (Hn & _). destruct n; [congruence | reflexivity].
Qed.

(** What the body of the loop over [patterns] returns once its pattern has
    found the list. *)
Lemma try_pattern_names (pat : string) text m names :
  search U (compile false pat) text = Some m ->
  group1 m = join (utf8 ", ") names ->
  names <> [] -> Forall (plain_name U) names ->
  join (utf8 ", ") names ∉ none_words ->
  try_pattern U text pat = Some names.
Proof.
  intros Hsearch Hgroup Hne Hall Hnone.
  destruct (joined_names U names Hne Hall) as (Hbody & Hstrip & Hchars).
  unfold try_pattern. rewrite Hsearch, Hgroup. cbv zeta. rewrite Hstrip.
  assert (mem (join (utf8 ", ") names) none_words = false) as ->
    by (apply bool_decide_eq_false; exact Hnone).
  assert (42%N ∉ join (utf8 ", ") names) as Hstar.
  { intros Hin. destruct (Hchars _ Hin) as [H|[H|(n & Hn & Hx)]]; [discriminate..|].
    rewrite Forall_forall in Hall.
    apply (plain_name_avoids U n 42%N (Hall n Hn)); [|exact Hx].
    rewrite reserved_chars, !elem_of_cons. tauto. }
  assert (mem (join (utf8 ", ") names) [utf8 ""; utf8 "**"; utf8 "*"] = false) as ->.
  { apply bool_decide_eq_false. rewrite !elem_of_cons, elem_of_nil.
    intros [H|[H|[H|[]]]]; [exact (Hbody H)| |]; rewrite H in Hstar; apply Hstar; left. }
  rewrite (names_from_list names Hne Hall), (names_are_kept names Hall).
  destruct names; [congruence | reflexivity].
Qed.

End SplitNames.

(** ** From the names to the answer line and back *)

Lemma colon_shape colon :
  colon ∈ colons ->
  exists cc sp, colon = cc :: sp /\ (cc = 65306%N \/ cc = 58%N) /\
                Forall (fun x => isspace x = true) sp /\
                cc <> 42%N /\ forall x, x ∈ colon -> x = 65306%N \/ x = 58%N \/ x = 32%N.
Proof.
  unfold colons. rewrite !elem_of_cons, elem_of_nil.
  intros [->|[->|[->|[->|[]]]]].
  - exists 65306%N, []. repeat split; [left; reflexivity | constructor | discriminate|].
    intros x Hx. apply list_elem_of_singleton in Hx. tauto.
  - exists 58%N, []. repeat split; [right; reflexivity | constructor | discriminate|].
    intros x Hx. apply list_elem_of_singleton in Hx. tauto.
  - exists 65306%N, [32%N]. repeat split; [left; reflexivity | repeat constructor | discriminate|].
    intros x Hx. change (utf8 "： ") with [65306%N; 32%N] in Hx.
    rewrite !elem_of_cons, elem_of_nil in Hx. tauto.
  - exists 58%N, [32%N]. repeat split; [right; reflexivity | repeat constructor | discriminate|].
    intros x Hx. change (utf8 ": ") with [58%N; 32%N] in Hx.
    rewrite !elem_of_cons, elem_of_nil in Hx. tauto.
Qed.

Lemma first_return_hit {A B} (f : A -> option B) l1 p l2 v :
  Forall (fun q => f q = None) l1 -> f p = Some v ->
  first_return f (l1 ++ p :: l2) = Some v.
Proof.
  intros Hl1 Hp. induction Hl1 as [|q l1 Hq _ IH]; cbn [app first_return].
  - rewrite Hp. reflexivity.
  - rewrite Hq. exact IH.
Qed.

Section RoundTrip.
Variable U : unicode_tables.
Variable names : list str.
Variable colon : str.
Hypothesis some_names : names <> [].
Hypothesis plain_names : Forall (plain_name U) names.
Hypothesis not_none : join (utf8 ", ") names ∉ none_words.
Hypothesis a_colon : colon ∈ colons.

Abbreviation body_text := (join (utf8 ", ") names).

(** What may occur on the answer line after the label. *)
Lemma line_chars lbl x :
  x ∈ render lbl colon names ->
  x ∈ lbl \/ x ∈ [65306%N; 58%N; 32%N; 91%N; 93%N; 44%N] \/ exists n, n ∈ names /\ x ∈ n.
Proof.
  unfold render. rewrite !elem_of_app. intros [H|[H|[H|[H|H]]]].
  - left. exact H.
  - destruct (colon_shape colon a_colon) as (_ & _ & _ & _ & _ & _ & Hc).
    right. left. rewrite !elem_of_cons. destruct (Hc x H) as [-> | [-> | ->]]; tauto.
  - right. left. apply list_elem_of_singleton in H. subst x. rewrite !elem_of_cons. tauto.
  - destruct (joined_names U names some_names plain_names) as (_ & _ & Hchars).
    destruct (Hchars x H) as [-> | [-> | Hn]]; [right; left..|right; right; exact Hn];
      rewrite !elem_of_cons; tauto.
  - right. left. apply list_elem_of_singleton in H. subst x. rewrite !elem_of_cons. tauto.
Qed.

(** A reserved character the label does not hold is not on the line. *)
Lemma line_avoids lbl x :
  x ∈ reserved -> x <> 44%N -> x ∉ lbl -> x ∉ render lbl colon names.
Proof.
  intros Hres Hcomma Hlbl Hin.
  destruct (line_chars lbl x Hin) as [H|[H|(n & Hn & Hx)]]; [exact (Hlbl H)| |].
  - rewrite reserved_chars in Hres.
    repeat (apply elem_of_cons in Hres as [Hres|Hres]; [subst x|]);
      try (inversion Hres; fail);
      repeat (apply elem_of_cons in H as [H|H]; [try discriminate H; try congruence|]);
      inversion H.
  - rewrite Forall_forall in plain_names.
    exact (plain_name_avoids U n x (plain_names n Hn) Hres Hx).
Qed.

Lemma tail_match cs :
  rmatch U list_tail_re (colon ++ utf8 "[" ++ body_text ++ utf8 "]") cs
         (fun s' cs' => Some (s', cs'))
  = Some ([], (1%nat, body_text) :: cs).
Proof.
  destruct (colon_shape colon a_colon) as (cc & sp & -> & Hcc & Hsp & _).
  destruct (joined_names U names some_names plain_names) as (Hne & _ & Hchars).
  change ((cc :: sp) ++ utf8 "[" ++ body_text ++ utf8 "]")
    with (cc :: sp ++ 91%N :: body_text ++ [93%N]).
  apply rmatch_list_tail; [exact Hcc | exact Hsp | exact Hne|].
  intros Hin. destruct (Hchars _ Hin) as [H|[H|(n & Hn & Hx)]]; [discriminate..|].
  rewrite Forall_forall in plain_names.
  exact (proj2 (plain_name_no_bracket U n (plain_names n Hn)) Hx).
Qed.

Lemma scan_here r s m : here U r s = Some m -> scan U r s = Some m.
Proof. intros H. destruct s; cbn [scan]; rewrite H; reflexivity. Qed.

Lemma take_whole (s : str) : take (length s - length (@nil char)) s = s.
Proof. cbn [length]. rewrite Nat.sub_0_r. apply firstn_all. Qed.

(** A pattern made of the label and the bracketed list finds the list. *)
Lemma search_label lbl :
  exists m,
    search U {| anchored := false; body := lits lbl list_tail_re |} (render lbl colon names)
    = Some m /\ group1 m = body_text.
Proof.
  eexists. split; [|shelve]. unfold search. cbn [anchored body]. apply scan_here.
  unfold here, match_here, render. rewrite rmatch_lits, tail_match. reflexivity.
  Unshelve. reflexivity.
Qed.

(** The pattern that allows stars around the label. *)
Lemma search_starred_label :
  exists m,
    search U (compile false "\*?\*?EIF功能点列表\*?\*?[：:]\s*\[([^\]]+)\]")
           (render (utf8 "EIF功能点列表") colon names)
    = Some m /\ group1 m = body_text.
Proof.
  assert (compile false "\*?\*?EIF功能点列表\*?\*?[：:]\s*\[([^\]]+)\]"
          = {| anchored := false;
               body := Cat (Alt (Lit 42%N) Eps) (Cat (Alt (Lit 42%N) Eps)
                         (lits (utf8 "EIF功能点列表")
                            (Cat (Alt (Lit 42%N) Eps) (Cat (Alt (Lit 42%N) Eps)
                               list_tail_re)))) |}) as ->
    by (vm_compute; reflexivity).
  destruct (colon_shape colon a_colon) as (cc & sp & Hcolon & _ & _ & Hstar & _).
  eexists. split; [|shelve]. unfold search. cbn [anchored body]. apply scan_here.
  unfold here, match_here, render, Lit.
  change (utf8 "EIF功能点列表" ++ ?R) with (69%N :: (utf8 "IF功能点列表" ++ R)).
  rewrite !rmatch_optional_star by discriminate.
  change (69%N :: (utf8 "IF功能点列表" ++ ?R)) with (utf8 "EIF功能点列表" ++ R).
  fold (Lit 42%N). unfold Lit at 1 2.
  rewrite rmatch_lits.
  pose proof (tail_match []) as Htail. rewrite Hcolon in Htail |- *.
  change ((cc :: sp) ++ ?R) with (cc :: (sp ++ R)) in Htail |- *.
  rewrite !rmatch_optional_star by exact Hstar. rewrite Htail. reflexivity.
  Unshelve. reflexivity.
Qed.

End RoundTrip.

Section AnswerLineStages.
Variable U : unicode_tables.

Lemma try_pattern_none text (pat : string) :
  search U (compile false pat) text = None -> try_pattern U text pat = None.
Proof. intros H. unfold try_pattern. rewrite H. reflexivity. Qed.

(** Patterns that require a character the text does not hold return
    nothing. *)
Lemma patterns_need (cs : list char) (l : list string) text :
  forallb (fun q => existsb (fun c => requires c (body (compile false q))) cs) l = true ->
  Forall (fun c => c ∉ text) cs ->
  Forall (fun q => try_pattern U text q = None) l.
Proof.
  intros Hl Hcs. rewrite forallb_forall in Hl. apply Forall_forall. intros q Hq.
  apply list_elem_of_In, Hl, existsb_exists in Hq as (c & Hc & Hreq).
  apply try_pattern_none, (search_requires U c); [exact Hreq|].
  rewrite Forall_forall in Hcs. apply Hcs, list_elem_of_In, Hc.
Qed.

Lemma try_numbered_after_title_needs_star text :
  42%N ∉ text -> try_numbered_after_title U text = None.
Proof.
  intros H. unfold try_numbered_after_title.
  rewrite (search_requires U 42%N); [reflexivity | vm_compute; reflexivity | exact H].
Qed.

End AnswerLineStages.

Lemma answer_line_round_trip (U : unicode_tables) (lbl colon : str) (names : list str) :
  lbl ∈ answer_labels -> colon ∈ colons ->
  names <> [] -> Forall (plain_name U) names ->
  join (utf8 ", ") names ∉ none_words ->
  (length (render lbl colon names) <= 500)%nat ->
  extract_answer U (render lbl colon names) = names.
Proof.
  intros Hlbl Hcolon Hne Hall Hnone Hlen.
  assert (forall x, x ∈ reserved -> x <> 44%N -> x ∉ lbl -> x ∉ render lbl colon names)
    as Havoid by (intros x; apply (line_avoids U names colon Hne Hall Hcolon)).
  assert (first_return (try_pattern U (render lbl colon names)) patterns = Some names
          /\ (42%N ∉ lbl) /\ exists c l, lbl = c :: l /\ isspace c = false)
    as (Hpat & Hstar & (c & l & Hhead & Hc)).
  { unfold answer_labels in Hlbl.
    repeat (apply elem_of_cons in Hlbl as [->|Hlbl]); [| | | |inversion Hlbl].
    - split; [|split; [apply (bool_decide_unpack _); vm_compute; exact I
                      | vm_compute; eexists _, _; split; reflexivity]].
      change patterns with ([] ++ "最终EIF功能点列表[：:]\s*\[([^\]]+)\]"%string :: drop 1 patterns).
      apply first_return_hit; [constructor|].
      destruct (search_label U names colon Hne Hall Hcolon (utf8 "最终EIF功能点列表"))
        as (m & Hm & Hg).
      assert (compile false "最终EIF功能点列表[：:]\s*\[([^\]]+)\]"
              = {| anchored := false; body := lits (utf8 "最终EIF功能点列表") list_tail_re |})
        as Hcomp by (vm_compute; reflexivity).
      apply (try_pattern_names U _ _ m); [rewrite Hcomp; exact Hm | assumption..].
    - split; [|split; [apply (bool_decide_unpack _); vm_compute; exact I
                      | vm_compute; eexists _, _; split; reflexivity]].
      change patterns
        with (take 2 patterns ++ "改进后的EIF功能点列表[：:]\s*\[([^\]]+)\]"%string :: drop 3 patterns).
      apply first_return_hit.
      + apply (patterns_need U [26368%N]); [vm_compute; reflexivity|].
        repeat constructor. apply Havoid;
          [rewrite reserved_chars, !elem_of_cons; tauto | discriminate
          | apply (bool_decide_unpack _); vm_compute; exact I].
      + destruct (search_label U names colon Hne Hall Hcolon (utf8 "改进后的EIF功能点列表"))
          as (m & Hm & Hg).
        assert (compile false "改进后的EIF功能点列表[：:]\s*\[([^\]]+)\]"
                = {| anchored := false; body := lits (utf8 "改进后的EIF功能点列表") list_tail_re |})
          as Hcomp by (vm_compute; reflexivity).
        apply (try_pattern_names U _ _ m); [rewrite Hcomp; exact Hm | assumption..].
    - split; [|split; [apply (bool_decide_unpack _); vm_compute; exact I
                      | vm_compute; eexists _, _; split; reflexivity]].
      change patterns
        with (take 4 patterns ++ "该视角识别的EIF功能点[：:]\s*\[([^\]]+)\]"%string :: drop 5 patterns).
      apply first_return_hit.
      + apply (patterns_need U [26368%N; 25913%N]); [vm_compute; reflexivity|].
        repeat constructor; apply Havoid;
          first [ rewrite reserved_chars, !elem_of_cons; tauto | discriminate
                | apply (bool_decide_unpack _); vm_compute; exact I ].
      + destruct (search_label U names colon Hne Hall Hcolon (utf8 "该视角识别的EIF功能点"))
          as (m & Hm & Hg).
        assert (compile false "该视角识别的EIF功能点[：:]\s*\[([^\]]+)\]"
                = {| anchored := false; body := lits (utf8 "该视角识别的EIF功能点") list_tail_re |})
          as Hcomp by (vm_compute; reflexivity).
        apply (try_pattern_names U _ _ m); [rewrite Hcomp; exact Hm | assumption..].
    - split; [|split; [apply (bool_decide_unpack _); vm_compute; exact I
                      | vm_compute; eexists _, _; split; reflexivity]].
      change patterns
        with (take 6 patterns ++ "\*?\*?EIF功能点列表\*?\*?[：:]\s*\[([^\]]+)\]"%string
                :: drop 7 patterns).
      apply first_return_hit.
      + apply (patterns_need U [26368%N; 25913%N; 35813%N]); [vm_compute; reflexivity|].
        repeat constructor; apply Havoid;
          first [ rewrite reserved_chars, !elem_of_cons; tauto | discriminate
                | apply (bool_decide_unpack _); vm_compute; exact I ].
      + destruct (search_starred_label U names colon Hne Hall Hcolon) as (m & Hm & Hg).
        apply (try_pattern_names U _ _ m); [exact Hm | assumption..]. }
  assert (42%N ∉ render lbl colon names) as Hstar'.
  { apply Havoid; [rewrite reserved_chars, !elem_of_cons; tauto | discriminate | exact Hstar]. }
  assert (strip (render lbl colon names) = render lbl colon names) as Hstrip.
  { unfold strip.
    assert (lstrip (render lbl colon names) = render lbl colon names) as ->.
    { unfold render. rewrite Hhead. cbn [app lstrip]. rewrite Hc. reflexivity. }
    unfold render. rewrite !app_assoc. apply rstrip_snoc_solid. reflexivity. }
  unfold extract_answer.
  assert (falsy (render lbl colon names) = false) as ->
    by (unfold render; rewrite Hhead; reflexivity).
  rewrite Hstrip. cbv zeta.
  assert ((500 <? length (render lbl colon names))%nat = false) as ->
    by (apply Nat.ltb_ge; exact Hlen).
  rewrite (try_numbered_after_title_needs_star U _ Hstar'), Hpat. reflexivity.
Qed.

Lemma answer_line_none (U : unicode_tables) (lbl colon : str) :
  lbl ∈ answer_labels -> colon ∈ colons ->
  extract_answer U (lbl ++ colon ++ utf8 "无") = [].
Proof.
  intros Hlbl Hcolon. unfold answer_labels in Hlbl. unfold colons in Hcolon.
  repeat (apply elem_of_cons in Hlbl as [->|Hlbl]); [| | | |inversion Hlbl];
    (repeat (apply elem_of_cons in Hcolon as [->|Hcolon]); [| | | |inversion Hcolon]);
    vm_compute; reflexivity.
Qed.

(** X19. The answer line the prompts ask for is read back as the names it
    was made of: for each of the four labels, either colon with or without
    a space, and a non-empty list of names that [_clean_eif_name] leaves as
    they are and that hold no separator, star or first character of a
    longer label, [extract_answer] returns the names from the line
    "label：[name, name, ...]" of at most 500 characters; and from the line
    "label：无" it returns the empty list. *)
Theorem answer_line_is_read_back (U : unicode_tables) (lbl colon : str) (names : list str) :
  lbl ∈ answer_labels -> colon ∈ colons ->
  (names <> [] -> Forall (plain_name U) names ->
   join (utf8 ", ") names ∉ none_words ->
   (length (render lbl colon names) <= 500)%nat ->
   extract_answer U (render lbl colon names) = names) /\
  extract_answer U (lbl ++ colon ++ utf8 "无") = [].
Proof.
  intros Hlbl Hcolon. split; [|exact (answer_line_none U lbl colon Hlbl Hcolon)].
  intros Hne Hall Hnone Hlen. apply answer_line_round_trip; assumption.
Qed.

Lemma answer_line_is_read_back_witness :
  utf8 "该视角识别的EIF功能点" ∈ answer_labels /\ utf8 "：" ∈ colons /\
  Forall (plain_name ascii_tables) [utf8 "Job Info"; utf8 "功能点2"; utf8 "EMPLOYEE_DATA"] /\
  extract_answer ascii_tables (utf8 "该视角识别的EIF功能点：[Job Info, 功能点2, EMPLOYEE_DATA]")
  = [utf8 "Job Info"; utf8 "功能点2"; utf8 "EMPLOYEE_DATA"].
Proof.
  assert (utf8 "该视角识别的EIF功能点" ∈ answer_labels) as Hl by (vm_compute; repeat constructor).
  assert (utf8 "：" ∈ colons) as Hc by (vm_compute; repeat constructor).
  assert (Forall (plain_name ascii_tables)
            [utf8 "Job Info"; utf8 "功能点2"; utf8 "EMPLOYEE_DATA"]) as Hall.
  { repeat constructor; try discriminate; try (vm_compute; reflexivity);
      apply (bool_decide_unpack _); vm_compute; exact I. }
  split; [exact Hl|]. split; [exact Hc|]. split; [exact Hall|].
  apply (proj1 (answer_line_is_read_back ascii_tables _ _
                  [utf8 "Job Info"; utf8 "功能点2"; utf8 "EMPLOYEE_DATA"] Hl Hc)).
  - discriminate.
  - exact Hall.
  - apply (bool_decide_unpack _). vm_compute. exact I.
  - vm_compute. lia.
Defined.

(** ** Names that [_clean_eif_name] leaves alone *)

Section NeedsFacts.
Variable U : unicode_tables.
Variable ds : list char.

Let clear (s : str) : Prop := Forall (fun x => x ∉ ds) s.

Lemma star_loop_clear ma greedy (k : kont) :
  (forall s cs (h : kont),
     clear s -> (forall s' cs', clear s' -> h s' cs' = None) -> ma s cs h = None) ->
  (forall s cs, clear s -> k s cs = None) ->
  forall n s cs, clear s -> star_loop ma greedy k n s cs = None.
Proof.
  intros Hma Hk. induction n as [|n IH]; intros s cs Hs; cbn [star_loop]; [apply Hk, Hs|].
  rewrite (Hk s cs Hs), Hma; [destruct greedy; reflexivity | exact Hs|].
  intros s' cs' Hs'. destruct (_ <? _)%nat; [apply IH, Hs' | reflexivity].
Qed.

Lemma rmatch_clear (r : re) :
  forall s cs (k : kont),
    clear s -> (forall s' cs', clear s' -> k s' cs' = None) -> rmatch U r s cs k = None.
Proof.
  induction r as [|neg items|a IHa b IHb|a IHa b IHb|g a IHa|i a IHa|p a IHa| |];
    intros s cs k Hs Hk; cbn [rmatch].
  - apply Hk, Hs.
  - destruct s as [|x t]; [reflexivity|]. destruct (chr_ok U neg items x); [|reflexivity].
    apply Hk. exact (Forall_inv_tail Hs).
  - apply IHa; [exact Hs|]. intros s' cs' Hs'. apply IHb; [exact Hs' | exact Hk].
  - rewrite IHa, IHb by assumption. reflexivity.
  - apply star_loop_clear; [|exact Hk | exact Hs].
    intros s' cs' h Hs' Hh. apply IHa; assumption.
  - apply IHa; [exact Hs|]. intros s' cs' Hs'. apply Hk, Hs'.
  - destruct (rmatch U a s cs _) as [[? cs']|]; destruct p; try reflexivity; apply Hk, Hs.
  - destruct s as [|x [|y t]]; [apply Hk, Hs | | reflexivity].
    destruct (x =? 10)%N; [apply Hk, Hs | reflexivity].
  - destruct s; [apply Hk, Hs | reflexivity].
Qed.

Lemma needs_sound (r : re) :
  needs ds r = true ->
  forall s cs (k : kont), clear s -> rmatch U r s cs k = None.
Proof.
  induction r as [|neg items|a IHa b IHb|a IHa b IHb|g a IHa|i a IHa|p a IHa| |];
    intros Hreq s cs k Hs; cbn [needs] in Hreq; try discriminate Hreq.
  - destruct neg; [discriminate|]. cbn [rmatch]. destruct s as [|x t]; [reflexivity|].
    assert (chr_ok U false items x = false) as ->; [|reflexivity].
    unfold chr_ok. cbn [xorb]. apply Forall_inv in Hs.
    induction items as [|it items IH]; [reflexivity|].
    cbn [forallb] in Hreq. apply andb_true_iff in Hreq as [Hit Hrest].
    cbn [existsb]. rewrite (IH Hrest), orb_false_r.
    destruct it as [d| | |]; try discriminate Hit.
    apply bool_decide_eq_true in Hit. cbn [citem_mem].
    apply N.eqb_neq. intros ->. exact (Hs Hit).
  - cbn [rmatch]. apply orb_true_iff in Hreq as [Ha|Hb]; [apply IHa; assumption|].
    apply rmatch_clear; [exact Hs|]. intros s' cs' Hs'. apply IHb; assumption.
  - cbn [rmatch]. apply andb_true_iff in Hreq as [Ha Hb].
    rewrite IHa, IHb by assumption. reflexivity.
  - cbn [rmatch]. apply IHa; assumption.
Qed.

(** A pattern finds nothing in a text without the characters it needs. *)
Lemma search_needs (p : pattern) (s : str) :
  needs ds (body p) = true -> clear s -> search U p s = None.
Proof.
  intros Hreq Hs.
  assert (forall t, clear t -> here U (body p) t = None) as Hhere.
  { intros t Ht. unfold here, match_here. rewrite needs_sound by assumption. reflexivity. }
  unfold search. destruct (anchored p); [apply Hhere, Hs|].
  induction s as [|x t IH]; cbn [scan]; rewrite Hhere by exact Hs; [reflexivity|].
  rewrite IH; [reflexivity|]. exact (Forall_inv_tail Hs).
Qed.

(** And nothing is removed from such a text. *)
Lemma sub_empty_needs (p : pattern) (s : str) :
  needs ds (body p) = true -> clear s -> sub_empty U p s = s.
Proof.
  intros Hreq Hs. unfold sub_empty, finditer. cbn [matches_from].
  rewrite andb_false_r, (search_needs p s Hreq Hs). reflexivity.
Qed.

End NeedsFacts.

Lemma marks_chars : marks = [46; 41; 12289; 45; 8226; 183; 91; 93]%N.
Proof. vm_compute. reflexivity. Qed.

Lemma clean_eif_name_unmarked (U : unicode_tables) (n : str) :
  Forall (fun c => c ∉ marks) n ->
  join (utf8 " ") (split n) = n ->
  clean_eif_name U n = n.
Proof.
  intros Hn Htidy. unfold clean_eif_name.
  rewrite (sub_empty_needs U [46; 41; 12289]%N (compile false "^\d+[\.\)、]\s*"));
    [|vm_compute; reflexivity
     |eapply Forall_impl; [exact Hn|]; intros x Hx Hin; apply Hx;
      rewrite marks_chars; rewrite !elem_of_cons in *; tauto].
  rewrite (sub_empty_needs U [45; 8226; 183]%N (compile false "^[-•·]\s*"));
    [|vm_compute; reflexivity
     |eapply Forall_impl; [exact Hn|]; intros x Hx Hin; apply Hx;
      rewrite marks_chars; rewrite !elem_of_cons in *; tauto].
  rewrite bracket_pattern_compiled, sub_empty_class, filter_keeps_all; [exact Htidy|].
  eapply Forall_impl; [exact Hn|]. intros x Hx. cbv beta.
  unfold chr_ok. cbn [existsb citem_mem xorb].
  rewrite marks_chars, !elem_of_cons in Hx.
  destruct (x =? 91)%N eqn:E1; [apply N.eqb_eq in E1; tauto|].
  destruct (x =? 93)%N eqn:E2; [apply N.eqb_eq in E2; tauto|]. reflexivity.
Qed.

(** X20. [_clean_eif_name] changes nothing it was not written to change:
    whatever the Unicode tables, a name without any of the characters
    ".)、-•·[]" and whose words are separated by single spaces, with no
    space at either end, is returned as it is. *)
Theorem clean_eif_name_keeps_unmarked_names (U : unicode_tables) (n : str) :
  Forall (fun c => c ∉ marks) n ->
  join (utf8 " ") (split n) = n ->
  clean_eif_name U n = n.
Proof. apply clean_eif_name_unmarked. Qed.

Lemma clean_eif_name_keeps_unmarked_names_witness :
  clean_eif_name ascii_tables (utf8 "Job Info 表") = utf8 "Job Info 表".
Proof.
  apply clean_eif_name_keeps_unmarked_names.
  - apply Forall_forall. intros x Hx. apply (bool_decide_unpack _).
    revert x Hx. apply Forall_forall. vm_compute. repeat constructor.
  - vm_compute. reflexivity.
Defined.

(** ** The prompts *)

Section FormatFacts.
Variable kw : list (str * entry).

Lemma brace_free_cons c s :
  brace_free (c :: s) = true ->
  (c =? 123)%N = false /\ (c =? 125)%N = false /\ brace_free s = true.
Proof.
  unfold brace_free. cbn [forallb]. intros [Hc Hs]%andb_true_iff.
  apply negb_true_iff, orb_false_iff in Hc. tauto.
Qed.

Lemma format_fixed s rest :
  brace_free s = true ->
  format_from kw None (s ++ rest)
  = match format_from kw None rest with
    | Ok out => Ok (s ++ out)
    | Raise e => Raise e
    end.
Proof.
  induction s as [|c s IH]; intros Hs;
    [cbn [app]; destruct (format_from kw None rest); reflexivity|].
  apply brace_free_cons in Hs as (H1 & H2 & Hs).
  cbn [app format_from]. rewrite H1, H2, (IH Hs).
  destruct (format_from kw None rest); reflexivity.
Qed.

Lemma format_name name rest : forall acc,
  brace_free name = true ->
  format_from kw (Some acc) (name ++ 125%N :: rest)
  = match List.find (fun kv => bool_decide (kv.1 = acc ++ name)) kw with
    | Some kv =>
        match format_from kw None rest with
        | Ok out => Ok (show kv.2 ++ out)
        | Raise e => Raise e
        end
    | None => Raise (Exception (utf8 "'" ++ (acc ++ name) ++ utf8 "'"))
    end.
Proof.
  induction name as [|c name IH]; intros acc Hn.
  - rewrite app_nil_r. reflexivity.
  - apply brace_free_cons in Hn as (_ & H2 & Hn).
    cbn [app format_from]. rewrite H2, (IH _ Hn), <- app_assoc. reflexivity.
Qed.

(** On a template whose fields are plain names, [format] fills the fields
    from left to right. *)
Lemma format_unparse segs :
  forallb plain_segment segs = true ->
  format_from kw None (unparse segs) = fill kw segs.
Proof.
  induction segs as [|[s|name] segs IH]; intros Hp; [reflexivity| |];
    cbn [forallb] in Hp; apply andb_true_iff in Hp as [Hseg Hp];
    cbn [unparse fill plain_segment] in *.
  - rewrite (format_fixed _ _ Hseg), (IH Hp). reflexivity.
  - apply andb_true_iff in Hseg as [Hne Hname].
    destruct name as [|d name]; [discriminate Hne|].
    destruct (brace_free_cons _ _ Hname) as (H1 & _ & _).
    change (format_from kw None (123%N :: (d :: name) ++ 125%N :: unparse segs))
      with (if (d =? 123)%N
            then match format_from kw None (name ++ 125%N :: unparse segs) with
                 | Ok out => Ok (123%N :: out)
                 | Raise e => Raise e
                 end
            else format_from kw (Some []) ((d :: name) ++ 125%N :: unparse segs)).
    rewrite H1, <- (IH Hp). exact (format_name (d :: name) (unparse segs) [] Hname).
Qed.

Lemma find_key name :
  name ∈ kw.*1 -> exists kv, List.find (fun kv => bool_decide (kv.1 = name)) kw = Some kv.
Proof.
  intros Hin. destruct (List.find _ kw) as [kv|] eqn:E; [eauto|]. exfalso.
  apply list_elem_of_fmap in Hin as (kv & -> & Hkv).
  apply list_elem_of_In in Hkv.
  pose proof (find_none _ _ E _ Hkv) as H. cbv beta in H.
  rewrite bool_decide_eq_false in H. exact (H eq_refl).
Qed.

Lemma fill_ok segs : covers (kw.*1) segs = true -> exists out, fill kw segs = Ok out.
Proof.
  induction segs as [|[s|name] segs IH]; intros Hc; [eexists; reflexivity| |];
    cbn [covers forallb] in Hc; apply andb_true_iff in Hc as [Hseg Hc];
    destruct (IH Hc) as (out & Hout); cbn [fill]; rewrite Hout; [eauto|].
  apply bool_decide_eq_true in Hseg. destruct (find_key name Hseg) as (kv & ->). eauto.
Qed.

Lemma fill_last init tail out :
  fill kw (init ++ [Fixed tail]) = Ok out -> exists a, out = a ++ tail.
Proof.
  revert out. induction init as [|[s|name] init IH]; intros out; cbn [app fill].
  - intros [= <-]. exists []. rewrite app_nil_r. reflexivity.
  - destruct (fill kw (init ++ _)) as [rest|]; [|discriminate]. intros [= <-].
    destruct (IH rest eq_refl) as (a & ->). exists (s ++ a). rewrite app_assoc. reflexivity.
  - destruct (List.find _ kw) as [kv|]; [|discriminate].
    destruct (fill kw (init ++ _)) as [rest|]; [|discriminate]. intros [= <-].
    destruct (IH rest eq_refl) as (a & ->). exists (show kv.2 ++ a).
    rewrite app_assoc. reflexivity.
Qed.

Lemma fill_hole segs name kv out :
  Hole name ∈ segs ->
  List.find (fun kv => bool_decide (kv.1 = name)) kw = Some kv ->
  fill kw segs = Ok out ->
  exists a b, out = a ++ show kv.2 ++ b.
Proof.
  intros Hin Hfind. revert out.
  induction segs as [|seg segs IH]; intros out; [inversion Hin|].
  apply elem_of_cons in Hin as [<-|Hin].
  - cbn [fill]. rewrite Hfind. destruct (fill kw segs) as [rest|]; [|discriminate].
    intros [= <-]. exists [], rest. reflexivity.
  - destruct seg as [s|other]; cbn [fill].
    + destruct (fill kw segs) as [rest|]; [|discriminate]. intros [= <-].
      destruct (IH Hin rest eq_refl) as (a & b & ->). exists (s ++ a), b.
      rewrite app_assoc. reflexivity.
    + destruct (List.find (fun kv => bool_decide (kv.1 = other)) kw) as [kv'|];
        [|discriminate].
      destruct (fill kw segs) as [rest|]; [|discriminate]. intros [= <-].
      destruct (IH Hin rest eq_refl) as (a & b & ->). exists (show kv'.2 ++ a), b.
      rewrite app_assoc. reflexivity.
Qed.

End FormatFacts.

Lemma templates_ok : forallb template_ok templates = true.
Proof. vm_compute. reflexivity. Qed.

(** What [format] makes of a template of the prompter. *)
Lemma format_template (tpl : str) (kw : list (str * entry)) (kv : str * entry) :
  tpl ∈ templates ->
  covers (kw.*1) (segments tpl) = true ->
  List.find (fun kv => bool_decide (kv.1 = utf8 "requirement_text")) kw = Some kv ->
  exists prompt,
    format tpl kw = Ok prompt
    /\ (exists a b, prompt = a ++ show kv.2 ++ b)
    /\ (exists a lbl, lbl ∈ answer_labels /\ prompt = a ++ answer_block lbl)
    /\ (forall name kv',
          Hole name ∈ segments tpl ->
          List.find (fun kv => bool_decide (kv.1 = name)) kw = Some kv' ->
          exists a b, prompt = a ++ show kv'.2 ++ b).
Proof.
  intros Hin Hcov Hfind.
  pose proof templates_ok as Hok. rewrite forallb_forall in Hok.
  specialize (Hok tpl (proj1 (list_elem_of_In _ _) Hin)).
  unfold template_ok in Hok. cbv zeta in Hok.
  apply andb_true_iff in Hok as [Hok Hlast].
  apply andb_true_iff in Hok as [Hok Hreq].
  apply andb_true_iff in Hok as [Hun Hplain].
  apply bool_decide_eq_true in Hun, Hreq.
  destruct (fill_ok kw _ Hcov) as (prompt & Hfill).
  exists prompt. split; [|split; [|split]].
  - unfold format. rewrite <- Hun at 1. rewrite (format_unparse kw _ Hplain). exact Hfill.
  - exact (fill_hole kw _ _ kv prompt Hreq Hfind Hfill).
  - destruct (last (segments tpl)) as [[tail|?]|] eqn:El; try discriminate Hlast.
    apply last_Some in El as (init & El). rewrite El in Hfill.
    destruct (fill_last kw init tail prompt Hfill) as (a & ->).
    apply existsb_exists in Hlast as (lbl & Hlbl & Htail).
    apply bool_decide_eq_true in Htail.
    exists (a ++ take (length tail - length (answer_block lbl)) tail), lbl.
    split; [apply list_elem_of_In; exact Hlbl|].
    rewrite <- app_assoc. f_equal. rewrite <- Htail at 2. symmetry. apply take_drop.
  - intros name kv' Hname Hkv'. exact (fill_hole kw _ _ kv' prompt Hname Hkv' Hfill).
Qed.

Lemma template_member (n : nat) (tpl : str) : templates !! n = Some tpl -> tpl ∈ templates.
Proof. apply list_elem_of_lookup_2. Qed.

Lemma sample_names_plain (U : unicode_tables) : Forall (plain_name U) sample_names.
Proof.
  assert (Forall (fun n => n <> [] /\ Forall (fun c => c ∉ marks) n
                           /\ join (utf8 " ") (split n) = n
                           /\ Forall (fun c => c ∉ reserved) n) sample_names) as H.
  { apply Forall_forall. intros n Hn. unfold sample_names in Hn.
    repeat (apply elem_of_cons in Hn as [->|Hn]); [| | |inversion Hn];
      (split; [vm_compute; discriminate|]);
      (split; [|split; [vm_compute; reflexivity|]]);
      apply Forall_forall; intros x Hx; apply (bool_decide_unpack _);
      revert x Hx; apply Forall_forall; vm_compute; repeat constructor. }
  eapply Forall_impl; [exact H|]. intros n (Hne & Hm & Ht & Hr).
  split; [exact Hne|]. split; [|exact Hr]. apply clean_eif_name_unmarked; assumption.
Qed.

(** The sample answer line of a prompt is read as its three names. *)
Lemma sample_line_read (U : unicode_tables) (lbl : str) :
  lbl ∈ answer_labels ->
  extract_answer U (render lbl (utf8 "：") sample_names) = sample_names.
Proof.
  intros Hlbl.
  assert (length (render lbl (utf8 "：") sample_names) <= 500)%nat as Hlen.
  { unfold answer_labels in Hlbl.
    repeat (apply elem_of_cons in Hlbl as [->|Hlbl]); [| | | |inversion Hlbl];
      vm_compute; lia. }
  apply answer_line_round_trip.
  - exact Hlbl.
  - apply list_elem_of_here.
  - discriminate.
  - apply sample_names_plain.
  - apply (bool_decide_unpack _). vm_compute. exact I.
  - exact Hlen.
Qed.

Section PromptFacts.
Variable current : option str.
Variable method : str.
Variable kwargs : gmap str entry.

Lemma generate_prompt_assert (num_branches : Z) :
  num_branches <> 1%Z ->
  generate_prompt num_branches current method kwargs
  = Raise (Exception (utf8 "Branching should be done via multiple requests.")).
Proof.
  intros Hn. unfold generate_prompt. apply Z.eqb_neq in Hn. rewrite Hn. reflexivity.
Qed.

Lemma generate_prompt_unknown :
  known_method method = false -> generate_prompt 1 current method kwargs = Ok None.
Proof.
  unfold known_method, generate_prompt. intros H.
  apply orb_false_iff in H as [H Hgot]. apply orb_false_iff in H as [H Htot].
  apply orb_false_iff in H as [Hio Hcot]. rewrite Hio, Hcot, Htot, Hgot. reflexivity.
Qed.

Lemma generate_prompt_no_text :
  known_method method = true -> kwargs !! utf8 "requirement_text" = None ->
  generate_prompt 1 current method kwargs = Raise (Exception (utf8 "'requirement_text'")).
Proof.
  unfold known_method, generate_prompt. intros H Hreq.
  assert (get_item kwargs (utf8 "requirement_text")
          = Raise (Exception (utf8 "'requirement_text'"))) as Hget.
  { unfold get_item. rewrite Hreq. vm_compute. reflexivity. }
  change (negb (1 =? 1)%Z) with false. cbv iota.
  destruct (is_prefix (utf8 "io") method); [rewrite Hget; reflexivity|].
  destruct (is_prefix (utf8 "cot") method); [rewrite Hget; reflexivity|].
  destruct (is_prefix (utf8 "tot") method).
  { destruct current as [[|? ?]|]; rewrite Hget; reflexivity. }
  destruct (is_prefix (utf8 "got") method); [|discriminate H].
  destruct (bool_decide (kwargs !! utf8 "phase" = Some (Text (utf8 "analysis")))
            && bool_decide (is_Some (kwargs !! utf8 "perspective"))) eqn:E.
  { apply andb_true_iff in E as [_ [v Hv]%bool_decide_eq_true].
    rewrite Hget. unfold get_item. rewrite Hv. reflexivity. }
  clear E.
  destruct (bool_decide (kwargs !! utf8 "phase" = Some (Text (utf8 "merge")))
            && from_option truth false (kwargs !! utf8 "merge_perspectives"));
    rewrite Hget; reflexivity.
Qed.

Lemma generate_prompt_shape (r : entry) :
  known_method method = true -> kwargs !! utf8 "requirement_text" = Some r ->
  exists prompt,
    generate_prompt 1 current method kwargs = Ok (Some prompt)
    /\ (exists a b, prompt = a ++ show r ++ b)
    /\ (exists a lbl, lbl ∈ answer_labels /\ prompt = a ++ answer_block lbl)
    /\ (forall text,
          is_prefix (utf8 "io") method = false -> is_prefix (utf8 "cot") method = false ->
          is_prefix (utf8 "tot") method = true -> current = Some text -> text <> [] ->
          exists a b, prompt = a ++ text ++ b).
Proof.
  unfold known_method, generate_prompt. intros H Hreq.
  assert (get_item kwargs (utf8 "requirement_text") = Ok r) as Hget
    by (unfold get_item; rewrite Hreq; reflexivity).
  assert (forall tpl kw n,
            templates !! n = Some tpl ->
            covers (kw.*1) (segments tpl) = true ->
            List.find (fun kv => bool_decide (kv.1 = utf8 "requirement_text")) kw
            = Some (utf8 "requirement_text", r) ->
            exists prompt,
              (and_then (format tpl kw) (fun prompt => Ok (Some prompt))) = Ok (Some prompt)
              /\ (exists a b, prompt = a ++ show r ++ b)
              /\ (exists a lbl, lbl ∈ answer_labels /\ prompt = a ++ answer_block lbl)
              /\ (forall name kv',
                    Hole name ∈ segments tpl ->
                    List.find (fun kv => bool_decide (kv.1 = name)) kw = Some kv' ->
                    exists a b, prompt = a ++ show kv'.2 ++ b))
    as Hfmt.
  { intros tpl kw n Hn Hcov Hfind.
    destruct (format_template tpl kw _ (template_member n tpl Hn) Hcov Hfind)
      as (prompt & -> & Hr & Hb & Hholes).
    exists prompt. split; [reflexivity|]. split; [exact Hr|]. split; assumption. }
  assert (forall kw, List.find (fun kv => bool_decide (kv.1 = utf8 "requirement_text"))
                       ((utf8 "requirement_text", r) :: kw)
                     = Some (utf8 "requirement_text", r)) as Hhead.
  { intros kw. cbn [List.find fst]. rewrite bool_decide_eq_true_2 by reflexivity. reflexivity. }
  assert (forall k v kw, k <> utf8 "requirement_text" ->
            List.find (fun kv => bool_decide (kv.1 = utf8 "requirement_text"))
              ((k, v) :: (utf8 "requirement_text", r) :: kw)
            = Some (utf8 "requirement_text", r)) as Hnext.
  { intros k v kw Hk. cbn [List.find fst].
    rewrite (bool_decide_eq_false_2 _ Hk), bool_decide_eq_true_2 by reflexivity. reflexivity. }
  assert (forall tpl kw n,
            templates !! n = Some tpl ->
            covers (kw.*1) (segments tpl) = true ->
            List.find (fun kv => bool_decide (kv.1 = utf8 "requirement_text")) kw
            = Some (utf8 "requirement_text", r) ->
            (forall text : str,
               is_prefix (utf8 "io") method = false -> is_prefix (utf8 "cot") method = false ->
               is_prefix (utf8 "tot") method = true -> current = Some text -> text <> [] ->
               False) ->
            exists prompt,
              (and_then (format tpl kw) (fun prompt => Ok (Some prompt))) = Ok (Some prompt)
              /\ (exists a b, prompt = a ++ show r ++ b)
              /\ (exists a lbl, lbl ∈ answer_labels /\ prompt = a ++ answer_block lbl)
              /\ (forall text,
                    is_prefix (utf8 "io") method = false ->
                    is_prefix (utf8 "cot") method = false ->
                    is_prefix (utf8 "tot") method = true -> current = Some text ->
                    text <> [] ->
                    exists a b, prompt = a ++ text ++ b))
    as Hplain.
  { intros tpl kw n Hn Hcov Hfind Hno.
    destruct (Hfmt tpl kw n Hn Hcov Hfind) as (prompt & Hrun & Hr & Hb & _).
    exists prompt. split; [exact Hrun|]. split; [exact Hr|]. split; [exact Hb|].
    intros text H1 H2 H3 H4 H5. destruct (Hno text H1 H2 H3 H4 H5). }
  change (negb (1 =? 1)%Z) with false. cbv iota.
  destruct (is_prefix (utf8 "io") method).
  { rewrite Hget. unfold and_then at 1.
    apply (Hplain _ _ 0%nat); [reflexivity | vm_compute; reflexivity | apply Hhead|].
    intros text H1. discriminate H1. }
  destruct (is_prefix (utf8 "cot") method).
  { rewrite Hget. unfold and_then at 1.
    apply (Hplain _ _ 1%nat); [reflexivity | vm_compute; reflexivity | apply Hhead|].
    intros text _ H2. discriminate H2. }
  destruct (is_prefix (utf8 "tot") method).
  { destruct current as [[|c cur]|]; rewrite Hget; unfold and_then at 1.
    - apply (Hplain _ _ 2%nat); [reflexivity | vm_compute; reflexivity | apply Hhead|].
      intros text _ _ _ [= <-] Hne. exact (Hne eq_refl).
    - destruct (Hfmt tot_improve_prompt
                  [(utf8 "current", Text (c :: cur)); (utf8 "requirement_text", r)] 4%nat)
        as (prompt & Hrun & Hr & Hb & Hholes);
        [reflexivity | vm_compute; reflexivity | |].
      { apply Hnext. apply (bool_decide_unpack _). vm_compute. exact I. }
      exists prompt. split; [exact Hrun|]. split; [exact Hr|]. split; [exact Hb|].
      intros text _ _ _ [= <-] _.
      apply (Hholes (utf8 "current") (utf8 "current", Text (c :: cur))).
      + apply (bool_decide_unpack _). vm_compute. exact I.
      + cbn [List.find fst]. rewrite bool_decide_eq_true_2 by reflexivity. reflexivity.
    - apply (Hplain _ _ 2%nat); [reflexivity | vm_compute; reflexivity | apply Hhead|].
      intros text _ _ _ H4. discriminate H4. }
  destruct (is_prefix (utf8 "got") method); [|discriminate H].
  destruct (bool_decide (kwargs !! utf8 "phase" = Some (Text (utf8 "analysis")))
            && bool_decide (is_Some (kwargs !! utf8 "perspective"))) eqn:E.
  { apply andb_true_iff in E as [_ [v Hv]%bool_decide_eq_true].
    rewrite Hget. unfold get_item. rewrite Hv. unfold and_then at 1 2.
    apply (Hplain _ _ 5%nat); [reflexivity | vm_compute; reflexivity| |].
    - apply Hnext. apply (bool_decide_unpack _). vm_compute. exact I.
    - intros text _ _ H3. discriminate H3. }
  clear E.
  destruct (bool_decide (kwargs !! utf8 "phase" = Some (Text (utf8 "merge")))
            && from_option truth false (kwargs !! utf8 "merge_perspectives"));
    rewrite Hget; unfold and_then at 1.
  - apply (Hplain _ _ 6%nat); [reflexivity | vm_compute; reflexivity | apply Hhead|].
    intros text _ _ H3. discriminate H3.
  - apply (Hplain _ _ 3%nat); [reflexivity | vm_compute; reflexivity | apply Hhead|].
    intros text _ _ H3. discriminate H3.
Qed.

End PromptFacts.

(** X21. When [generate_prompt] gives no prompt.  With a number of branches
    other than 1 its assertion fails, whatever the other arguments; with one
    branch and a method that begins with none of "io", "cot", "tot" and
    "got" it returns [None] and raises nothing; with one branch, such a
    method and no "requirement_text" among the keyword arguments it raises
    the [KeyError] of that key, in every branch. *)
Theorem generate_prompt_failures (num_branches : Z) (current : option str) (method : str)
    (kwargs : gmap str entry) :
  (num_branches <> 1%Z ->
   generate_prompt num_branches current method kwargs
   = Raise (Exception (utf8 "Branching should be done via multiple requests.")))
  /\ (known_method method = false ->
      generate_prompt 1 current method kwargs = Ok None)
  /\ (known_method method = true -> kwargs !! utf8 "requirement_text" = None ->
      generate_prompt 1 current method kwargs
      = Raise (Exception (utf8 "'requirement_text'"))).
Proof.
  split; [apply generate_prompt_assert|].
  split; [apply generate_prompt_unknown | apply generate_prompt_no_text].
Qed.

Lemma generate_prompt_failures_witness :
  generate_prompt 2 None (utf8 "io") ∅
  = Raise (Exception (utf8 "Branching should be done via multiple requests."))
  /\ generate_prompt 1 None (utf8 "plan") ∅ = Ok None
  /\ generate_prompt 1 (Some (utf8 "员工信息")) (utf8 "tot") ∅
     = Raise (Exception (utf8 "'requirement_text'")).
Proof.
  split; [|split].
  - apply (proj1 (generate_prompt_failures 2 None (utf8 "io") ∅)). discriminate.
  - apply (proj1 (proj2 (generate_prompt_failures 1 None (utf8 "plan") ∅))).
    vm_compute. reflexivity.
  - apply (proj2 (proj2 (generate_prompt_failures 1 (Some (utf8 "员工信息")) (utf8 "tot") ∅)));
      [vm_compute; reflexivity | apply lookup_empty].
Defined.


